(** * Operation-graph construction of the phased command
      (rush-lib, logic/operations/PhasedOperationPlugin.ts)

    A shallow embedding of [createOperations], [getOrCreateOperations],
    [getShards] and [getOperationKey].

    JavaScript objects with identity ([Operation]) live in an arena: the heap
    is a list of records and an Operation is its index.  A JavaScript [Set]
    is a duplicate-free list in insertion order, the [Map] of memoised
    resolutions is an association list in insertion order.  The [await]s of
    the source are all sequential, so the asynchronous functions are modelled
    as state-passing functions.  The recursion of [getOrCreateOperations] is
    bounded by a fuel argument that counts the nesting depth, the propagation
    loop by one that counts its rounds; [createOperations_returns] shows that
    enough fuel exists when the phase data are acyclic.  A shard count is a
    JavaScript number, modelled as an integer. *)

From stdpp Require Import base option list strings gmap.
From Stdlib Require Import ZArith Lia.

Open Scope Z_scope.
Open Scope nat_scope.

(** ** External data: phases, projects and project configuration *)

(** rush-project.json operation settings: only the shard count is read. *)
Record IOperationSettings := { shards : option Z }.

Record RushProjectConfiguration := {
  operationSettingsByOperationName : gmap string IOperationSettings
}.

(** The phase and project objects are read-only here and may refer to each
    other cyclically, so they are given by their accessors.  Equality is
    object identity. *)
Class Workspace := {
  IPhase : Type;
  RushConfigurationProject : Type;
  IPhase_eq_dec :: EqDecision IPhase;
  RushConfigurationProject_eq_dec :: EqDecision RushConfigurationProject;
  (* phase.name, phase.dependencies.self, phase.dependencies.upstream *)
  name : IPhase → string;
  self : IPhase → list IPhase;
  upstream : IPhase → list IPhase;
  (* project.packageName, project.dependencyProjects *)
  packageName : RushConfigurationProject → string;
  dependencyProjects : RushConfigurationProject → list RushConfigurationProject;
  (* RushProjectConfiguration.tryLoadForProjectAsync(project, terminal) *)
  tryLoadForProjectAsync : RushConfigurationProject → option RushProjectConfiguration
}.

(** ** Operations and runners *)

(** Modelled from the spec: the enum OperationStatus is not among the
    sources; the construction only produces [Success] and [Skipped]. *)
Inductive OperationStatus :=
| Success
| Skipped
| OtherStatus (label : string).

(** The object literal of lines 96-108. *)
Record RunnerLiteral := {
  cacheable : bool;
  reportTiming : bool;
  warningsAreAllowed : bool;
  silent : bool;
  literalName : string;
  getConfigHash : string;
  executeAsync : OperationStatus
}.

(** Modelled from the spec: the class NullOperationRunner is not among the
    sources; it is configured by a display name, a fixed outcome and a
    silence flag, and its step yields the fixed outcome. *)
Inductive IOperationRunner :=
| NullOperationRunner (runnerName : string) (result : OperationStatus) (isSilent : bool)
| LiteralRunner (config : RunnerLiteral)
| ExternalRunner (runnerName : string).

Definition sharedConfig (n : string) : RunnerLiteral :=
  {| cacheable := true; reportTiming := false; warningsAreAllowed := false;
     silent := true; literalName := n; getConfigHash := EmptyString;
     executeAsync := Success |}.

(** The outcome a runner of this file reports; an external runner is opaque. *)
Definition fixedResult (r : IOperationRunner) : option OperationStatus :=
  match r with
  | NullOperationRunner _ res _ => Some res
  | LiteralRunner c => Some (executeAsync c)
  | ExternalRunner _ => None
  end.

Definition isSkip (r : option IOperationRunner) : Prop :=
  ∃ n s, r = Some (NullOperationRunner n Skipped s).

Section Model.
Context `{W : Workspace}.

(** Modelled from the spec: the class Operation is not among the sources.
    An Operation is identified by project, phase and an optional shard
    descriptor {current, max}; it holds a dependency set, the derived
    consumer set and a runner slot that is unset unless assigned. *)
Record Operation := {
  project : RushConfigurationProject;
  phase : IPhase;
  shard : option (Z * Z);
  dependencies : list nat;
  consumers : list nat;
  runner : option IOperationRunner
}.

(** [Set.prototype.add] on an insertion-ordered set. *)
Definition setAdd (x : nat) (s : list nat) : list nat :=
  if decide (x ∈ s) then s else s ++ [x].

Definition setHas {A} `{EqDecision A} (x : A) (s : list A) : bool :=
  bool_decide (x ∈ s).

(** [Map.prototype.get] and [Map.prototype.set] on an insertion-ordered map. *)
Fixpoint mapGet {V} (k : string) (m : list (string * V)) : option V :=
  match m with
  | [] => None
  | (k', v) :: m' => if decide (k = k') then Some v else mapGet k m'
  end.

Fixpoint mapSet {V} (k : string) (v : V) (m : list (string * V)) : list (string * V) :=
  match m with
  | [] => [(k, v)]
  | (k', v') :: m' => if decide (k = k') then (k, v) :: m' else (k', v') :: mapSet k v m'
  end.

Definition withRunner (r : IOperationRunner) (o : Operation) : Operation :=
  {| project := project o; phase := phase o; shard := shard o;
     dependencies := dependencies o; consumers := consumers o;
     runner := Some r |}.

Definition withDependency (d : nat) (o : Operation) : Operation :=
  {| project := project o; phase := phase o; shard := shard o;
     dependencies := setAdd d (dependencies o); consumers := consumers o;
     runner := runner o |}.

Definition withConsumer (c : nat) (o : Operation) : Operation :=
  {| project := project o; phase := phase o; shard := shard o;
     dependencies := dependencies o; consumers := setAdd c (consumers o);
     runner := runner o |}.

(** Modelled from the spec: Operation.addDependency is not among the
    sources; [a.addDependency(b)] inserts [b] into the dependency set of [a]
    and [a] into the consumer set of [b]. *)
Definition addDependencyHeap (a b : nat) (h : list Operation) : list Operation :=
  alter (withConsumer a) b (alter (withDependency b) a h).

(** The operation found at [o] after [a.addDependency(b)]. *)
Definition afterEdge (a b o : nat) (op : Operation) : Operation :=
  (if decide (b = o) then withConsumer a else id)
    ((if decide (a = o) then withDependency b else id) op).

(** ** The state of one construction pass *)

Record PassState := {
  heap : list Operation;
  existingOperations : list nat;
  operationsWithWork : list nat;
  allOperations : list (string * list nat)
}.

(** State passing; [None] is an exhausted fuel. *)
Definition M (A : Type) : Type := PassState → option (A * PassState).

Definition ret {A} (a : A) : M A := λ st, Some (a, st).

Definition bind {A B} (m : M A) (k : A → M B) : M B :=
  λ st, match m st with
        | Some (a, st') => k a st'
        | None => None
        end.

Definition outOfFuel {A} : M A := λ _, None.

Notation "'let*' x ':=' m 'in' k" := (bind m (λ x, k))
  (at level 10, x name, m at level 100, k at level 200, only parsing).
Notation "m '>>' k" := (bind m (λ _, k))
  (at level 90, right associativity, only parsing).

Fixpoint forEach {A} (l : list A) (body : A → M unit) : M unit :=
  match l with
  | [] => ret tt
  | x :: l' => body x >> forEach l' body
  end.

(** The state updates behind the statements of the source. *)
Definition stAlloc (op : Operation) (st : PassState) : PassState :=
  {| heap := heap st ++ [op];
     existingOperations := existingOperations st;
     operationsWithWork := operationsWithWork st;
     allOperations := allOperations st |}.

Definition stHeap (f : list Operation → list Operation) (st : PassState) : PassState :=
  {| heap := f (heap st);
     existingOperations := existingOperations st;
     operationsWithWork := operationsWithWork st;
     allOperations := allOperations st |}.

Definition stWork (o : nat) (st : PassState) : PassState :=
  {| heap := heap st;
     existingOperations := existingOperations st;
     operationsWithWork := setAdd o (operationsWithWork st);
     allOperations := allOperations st |}.

Definition stExisting (o : nat) (st : PassState) : PassState :=
  {| heap := heap st;
     existingOperations := setAdd o (existingOperations st);
     operationsWithWork := operationsWithWork st;
     allOperations := allOperations st |}.

Definition stMemo (key : string) (ops : list nat) (st : PassState) : PassState :=
  {| heap := heap st;
     existingOperations := existingOperations st;
     operationsWithWork := operationsWithWork st;
     allOperations := mapSet key ops (allOperations st) |}.

Definition modify (f : PassState → PassState) : M unit := λ st, Some (tt, f st).

(** [new Operation({ project, phase, shard })]: a fresh object, no runner
    being passed to the constructor. *)
Definition blankOperation (pr : RushConfigurationProject) (ph : IPhase)
    (sh : option (Z * Z)) : Operation :=
  {| project := pr; phase := ph; shard := sh;
     dependencies := []; consumers := []; runner := None |}.

Definition newOperation (pr : RushConfigurationProject) (ph : IPhase)
    (sh : option (Z * Z)) : M nat :=
  λ st, Some (length (heap st), stAlloc (blankOperation pr ph sh) st).

(** [operation.runner = r] *)
Definition setRunner (o : nat) (r : IOperationRunner) : M unit :=
  modify (stHeap (alter (withRunner r) o)).

(** [a.addDependency(b)] *)
Definition addDependency (a b : nat) : M unit :=
  modify (stHeap (addDependencyHeap a b)).

(** [operationsWithWork.add(o)] *)
Definition addWork (o : nat) : M unit := modify (stWork o).

(** [existingOperations.add(o)] *)
Definition addExisting (o : nat) : M unit := modify (stExisting o).

(** [allOperations.set(key, ops)] *)
Definition setMemo (key : string) (ops : list nat) : M unit :=
  modify (stMemo key ops).

(** [allOperations.get(key)] *)
Definition getMemo (key : string) : M (option (list nat)) :=
  λ st, Some (mapGet key (allOperations st), st).

(** ** The functions of the source *)

(** The context of the createOperations hook; the terminal is only handed
    on to the configuration loader. *)
Record ICreateOperationsContext := {
  projectsInUnknownState : list RushConfigurationProject;
  phaseOriginal : list IPhase;
  phaseSelection : list IPhase;
  projectSelection : list RushConfigurationProject
}.

(** Lines 65-69 and 180-184: [new NullOperationRunner({ name: key, result:
    OperationStatus.Skipped, silent: true })] *)
Definition skipRunner (key : string) : IOperationRunner :=
  NullOperationRunner key Skipped true.

(** Lines 231-233. *)
Definition getOperationKey (ph : IPhase) (pr : RushConfigurationProject) : string :=
  packageName pr +:+ ";" +:+ name ph.

(** Lines 219-228: no configuration, no entry for the phase name, or an
    entry without a shard count all give [undefined]. *)
Definition getShards (ph : IPhase) (pr : RushConfigurationProject) : option Z :=
  match tryLoadForProjectAsync pr with
  | Some rushProjectConfiguration =>
      match operationSettingsByOperationName rushProjectConfiguration !! name ph with
      | Some settings => shards settings
      | None => None
      end
  | None => None
  end.

(** Line 87: [shards && shards > 1] holds for a defined, non-zero count
    above one; the count is then the number of shards. *)
Definition shardsAboveOne (n : option Z) : option Z :=
  match n with
  | Some k => if negb (Z.eqb k 0) && Z.ltb 1 k then Some k else None
  | None => None
  end.

(** [Array.from({ length: shards }, (_, index) => index + 1)] *)
Definition shardIndices (n : Z) : list Z :=
  map (λ index, Z.of_nat index + 1)%Z (seq 0 (Z.to_nat n)).

Section Resolution.
Variable context : ICreateOperationsContext.
(** The recursive calls. *)
Variable getOrCreate : IPhase → RushConfigurationProject → M (list nat).

(** [(await getOrCreateOperations(depPhase, depProject)).forEach((op) =>
    target.addDependency(op))] *)
Definition wire (target : nat) (depPhase : IPhase)
    (depProject : RushConfigurationProject) : M unit :=
  let* ops := getOrCreate depPhase depProject in
  forEach ops (λ op, addDependency target op).

(** Lines 156-170, the body for one shard. *)
Definition createShard (pr : RushConfigurationProject) (ph : IPhase)
    (n : Z) (deps dependents : list nat) (shardNo : Z) : M nat :=
  let* shardOperation := newOperation pr ph (Some (shardNo, n)) in
  forEach deps (λ dependency, addDependency shardOperation dependency) >>
  forEach dependents (λ dependent, addDependency dependent shardOperation) >>
  addWork shardOperation >>
  addExisting shardOperation >>
  ret shardOperation.

Fixpoint createShards (pr : RushConfigurationProject) (ph : IPhase)
    (n : Z) (deps dependents : list nat) (indices : list Z)
    (operations : list nat) : M (list nat) :=
  match indices with
  | [] => ret operations
  | shardNo :: rest =>
      let* shardOperation := createShard pr ph n deps dependents shardNo in
      createShards pr ph n deps dependents rest (operations ++ [shardOperation])
  end.

(** Lines 91-127: the two cache-boundary operations. *)
Definition createBoundaries (ph : IPhase) (pr : RushConfigurationProject)
    : M (nat * nat) :=
  let* buildCacheRestoreOperation := newOperation pr ph None in
  setRunner buildCacheRestoreOperation
    (LiteralRunner (sharedConfig "buildCacheRestore")) >>
  let* buildCacheSaveOperation := newOperation pr ph None in
  setRunner buildCacheSaveOperation
    (LiteralRunner (sharedConfig "buildCacheSave")) >>
  addWork buildCacheRestoreOperation >>
  addWork buildCacheSaveOperation >>
  addExisting buildCacheSaveOperation >>
  addExisting buildCacheRestoreOperation >>
  ret (buildCacheRestoreOperation, buildCacheSaveOperation).

(** Lines 88-171. *)
Definition shardedBranch (key : string) (ph : IPhase)
    (pr : RushConfigurationProject) (n : Z) : M (list nat) :=
  let* boundaries := createBoundaries ph pr in
  let deps := [boundaries.1] in
  let dependents := [boundaries.2] in
  let operations := deps ++ dependents in
  forEach (self ph) (λ depPhase,
    forEach deps (λ dependency, wire dependency depPhase pr)) >>
  (if bool_decide (upstream ph ≠ []) then
     if bool_decide (dependencyProjects pr ≠ []) then
       forEach (upstream ph) (λ depPhase,
         forEach (dependencyProjects pr) (λ dependencyProject,
           forEach dependents (λ dependent,
             wire dependent depPhase dependencyProject)))
     else ret tt
   else ret tt) >>
  let* operations := createShards pr ph n deps dependents (shardIndices n) operations in
  setMemo key operations >>
  ret operations.

(** Line 178: [!phaseSelection.has(phase) || !projectSelection.has(project)] *)
Definition outOfScope (ph : IPhase) (pr : RushConfigurationProject) : bool :=
  negb (setHas ph (phaseSelection context))
  || negb (setHas pr (projectSelection context)).

(** Lines 173-190: the operation of an unsharded pair, its disposition and
    its registration. *)
Definition createSingle (key : string) (ph : IPhase)
    (pr : RushConfigurationProject) : M nat :=
  let* operation := newOperation pr ph None in
  (if outOfScope ph pr
   then setRunner operation (skipRunner key)
   else if setHas pr (projectsInUnknownState context)
        then addWork operation
        else ret tt) >>
  setMemo key [operation] >>
  addExisting operation >>
  ret operation.

(** Lines 173-211.  The array [operations] of line 85 is not touched on this
    path: the memo receives the fresh array [[operation]] and the caller
    receives [operations], still empty. *)
Definition unshardedBranch (key : string) (ph : IPhase)
    (pr : RushConfigurationProject) (operations : list nat) : M (list nat) :=
  let* operation := createSingle key ph pr in
  forEach (self ph) (λ depPhase, wire operation depPhase pr) >>
  (if bool_decide (upstream ph ≠ []) then
     if bool_decide (dependencyProjects pr ≠ []) then
       forEach (upstream ph) (λ depPhase,
         forEach (dependencyProjects pr) (λ dependencyProject,
           wire operation depPhase dependencyProject))
     else ret tt
   else ret tt) >>
  ret operations.

(** Lines 77-216. *)
Definition getOrCreateBody (ph : IPhase) (pr : RushConfigurationProject)
    : M (list nat) :=
  let key := getOperationKey ph pr in
  let* cached := getMemo key in
  match cached with
  | Some operations => ret operations
  | None =>
      let operations := [] in
      match shardsAboveOne (getShards ph pr) with
      | Some n => shardedBranch key ph pr n
      | None => unshardedBranch key ph pr operations
      end
  end.

End Resolution.

Fixpoint getOrCreateOperations (fuel : nat) (context : ICreateOperationsContext)
    (ph : IPhase) (pr : RushConfigurationProject) : M (list nat) :=
  match fuel with
  | O => outOfFuel
  | S fuel' => getOrCreateBody context (getOrCreateOperations fuel' context) ph pr
  end.

(** Lines 47-51. *)
Definition createSelected (fuel : nat) (context : ICreateOperationsContext) : M unit :=
  forEach (phaseOriginal context) (λ ph,
    forEach (projectSelection context) (λ pr,
      getOrCreateOperations fuel context ph pr >> ret tt)).

Definition consumersOf (h : list Operation) (o : nat) : list nat :=
  match h !! o with
  | Some op => consumers op
  | None => []
  end.

(** Lines 55-57: the consumers of one operation join the set. *)
Definition addAll (s cs : list nat) : list nat :=
  foldl (λ s' consumer, setAdd consumer s') s cs.

(** Lines 54-58: the iteration of a Set visits the elements added while it
    runs; [i] is the position of the iterator. *)
Fixpoint expandConsumers (fuel : nat) (h : list Operation) (i : nat)
    (withWork : list nat) : option (list nat) :=
  match fuel with
  | O => None
  | S fuel' =>
      match withWork !! i with
      | None => Some withWork
      | Some operation =>
          expandConsumers fuel' h (S i)
            (addAll withWork (consumersOf h operation))
      end
  end.

(** Lines 62-70, for one operation of one entry of the memo. *)
Definition mark (withWork : list nat) (key : string) (h : list Operation)
    (operation : nat) : list Operation :=
  if setHas operation withWork then h
  else alter (withRunner (skipRunner key)) operation h.

(** Lines 60-72. *)
Definition finalizeEntry (withWork : list nat) (h : list Operation)
    (entry : string * list nat) : list Operation :=
  foldl (mark withWork entry.1) h entry.2.

Definition finalize (withWork : list nat) (memo : list (string * list nat))
    (h : list Operation) : list Operation :=
  foldl (finalizeEntry withWork) h memo.

(** The state a pass starts from. *)
Definition initialState (existing : list nat) (h : list Operation) : PassState :=
  {| heap := h; existingOperations := existing;
     operationsWithWork := []; allOperations := [] |}.

(** Lines 31-75: the returned set, with the heap it refers to. *)
Definition createOperations (fuel : nat) (existing : list nat)
    (context : ICreateOperationsContext) (h : list Operation)
    : option (list nat * list Operation) :=
  match createSelected fuel context (initialState existing h) with
  | None => None
  | Some (_, st) =>
      match expandConsumers fuel (heap st) 0 (operationsWithWork st) with
      | None => None
      | Some withWork =>
          Some (existingOperations st,
                finalize withWork (allOperations st) (heap st))
      end
  end.

End Model.

(** ** What holds during a pass *)

Section Invariants.
Context `{W : Workspace}.
Variable context : ICreateOperationsContext.
(** The heap the pass starts from; the operations of the pass are the ones
    from index [length h0] on. *)
Variable h0 : list Operation.

(** Package names and phase names identify projects and phases, and the
    separator of the key occurs in no package name. *)
Definition keysIdentifyPairs : Prop :=
  ∀ ph pr ph' pr',
    getOperationKey ph pr = getOperationKey ph' pr' →
    pr = pr' ∧ name ph = name ph'.

Definition shardedPair (op : Operation) : option Z :=
  shardsAboveOne (getShards (phase op) (project op)).

Definition boundaryRunner (r : option IOperationRunner) : Prop :=
  ∃ n, r = Some (LiteralRunner (sharedConfig n)).

(** The disposition of an operation of the pass, before finalization. *)
Definition classified (withWork : list nat) (o : nat) (op : Operation) : Prop :=
  match shardedPair op with
  | Some _ =>
      o ∈ withWork ∧
      match shard op with
      | None => boundaryRunner (runner op)
      | Some _ => runner op = None
      end
  | None =>
      shard op = None ∧
      if outOfScope context (phase op) (project op)
      then runner op = Some (skipRunner (getOperationKey (phase op) (project op)))
      else runner op = None ∧
           (setHas (project op) (projectsInUnknownState context) = true →
            o ∈ withWork)
  end.

Record Inv (st : PassState) : Prop := {
  inv_base : length h0 ≤ length (heap st);
  inv_nodup : NoDup (operationsWithWork st);
  inv_memo : ∀ k l o,
    mapGet k (allOperations st) = Some l → o ∈ l → o < length (heap st);
  inv_existing : ∀ o,
    length h0 ≤ o → o < length (heap st) → o ∈ existingOperations st;
  inv_class : ∀ o op,
    length h0 ≤ o → heap st !! o = Some op →
    classified (operationsWithWork st) o op;
  inv_consumers : ∀ o op c,
    heap st !! o = Some op → c ∈ consumers op →
    (∃ op0, h0 !! o = Some op0 ∧ c ∈ consumers op0) ∨
    (∃ cop, heap st !! c = Some cop ∧ o ∈ dependencies cop);
  inv_cover : keysIdentifyPairs → ∀ o op,
    length h0 ≤ o → heap st !! o = Some op → shardedPair op = None →
    mapGet (getOperationKey (phase op) (project op)) (allOperations st) = Some [o]
}.

Definition grows (st st' : PassState) : Prop :=
  length (heap st) ≤ length (heap st') ∧
  existingOperations st ⊆ existingOperations st' ∧
  operationsWithWork st ⊆ operationsWithWork st'.

(** The invariant together with the growth since a base state. *)
Definition since (base st : PassState) : Prop := Inv st ∧ grows base st.

(** What a resolution guarantees to its caller. *)
Definition resolves (rec : IPhase → RushConfigurationProject → M (list nat)) : Prop :=
  ∀ ph pr st l st',
    Inv st → rec ph pr st = Some (l, st') →
    Inv st' ∧ grows st st' ∧ ∀ o, o ∈ l → o < length (heap st').

End Invariants.

(** What finalization may do to the operation at index [o]. *)
Definition finalized `{W : Workspace} (withWork : list nat) (o : nat)
    (op op' : Operation) : Prop :=
  project op' = project op ∧ phase op' = phase op ∧ shard op' = shard op ∧
  dependencies op' = dependencies op ∧ consumers op' = consumers op ∧
  (runner op' = runner op ∨
   ((o ∉ withWork) ∧ ∃ key, runner op' = Some (skipRunner key))).

Definition skippedAt `{W : Workspace} (o : nat) (h : list Operation) : Prop :=
  ∃ op key, h !! o = Some op ∧ runner op = Some (skipRunner key).

(** The consumer relation of a heap and what it reaches. *)
Definition consumerEdge `{W : Workspace} (h : list Operation) (x y : nat) : Prop :=
  y ∈ consumersOf h x.

Definition reachesFrom `{W : Workspace} (h : list Operation) (s : list nat)
    (x : nat) : Prop :=
  ∃ y, y ∈ s ∧ rtc (consumerEdge h) y x.

(** Every consumer some operation of the heap mentions. *)
Definition allConsumers `{W : Workspace} (h : list Operation) : list nat :=
  mjoin (consumers <$> h).

(** Whether a name contains the separator of the memo key. *)
Fixpoint hasSeparator (s : string) : bool :=
  match s with
  | EmptyString => false
  | String c s' => Ascii.eqb c (Ascii.ascii_of_nat 59) || hasSeparator s'
  end.

(** ** Fuel *)

Section FuelDefinitions.
Context `{W : Workspace}.

(** A run that never exhausts its fuel. *)
Definition total {A} (m : M A) : Prop := ∀ st, is_Some (m st).

(** [m'] returns whatever [m] returns. *)
Definition refines {A} (m m' : M A) : Prop :=
  ∀ st r, m st = Some r → m' st = Some r.

(** The phase and project data are acyclic: a measure decreases along the
    self dependencies and along the upstream dependencies. *)
Definition ranked (rank : IPhase → RushConfigurationProject → nat) : Prop :=
  (∀ ph pr depPhase, depPhase ∈ self ph → rank depPhase pr < rank ph pr) ∧
  (∀ ph pr depPhase depProject,
     depPhase ∈ upstream ph → depProject ∈ dependencyProjects pr →
     rank depPhase depProject < rank ph pr).
End FuelDefinitions.


(** ** States and predicates for the properties of resolutions *)

Section BlockStates.
Context `{W : Workspace}.
Variable context : ICreateOperationsContext.

(** The operation lines 173-187 leave behind for an unsharded pair. *)
Definition singleOperation (key : string) (ph : IPhase)
    (pr : RushConfigurationProject) : Operation :=
  if outOfScope context ph pr
  then withRunner (skipRunner key) (blankOperation pr ph None)
  else blankOperation pr ph None.

(** The state after lines 173-190. *)
Definition afterSingle (key : string) (ph : IPhase)
    (pr : RushConfigurationProject) (st : PassState) : PassState :=
  {| heap := heap st ++ [singleOperation key ph pr];
     existingOperations := setAdd (length (heap st)) (existingOperations st);
     operationsWithWork :=
       if outOfScope context ph pr then operationsWithWork st
       else if setHas pr (projectsInUnknownState context)
            then setAdd (length (heap st)) (operationsWithWork st)
            else operationsWithWork st;
     allOperations := mapSet key [length (heap st)] (allOperations st) |}.

Definition restoreOperation (ph : IPhase) (pr : RushConfigurationProject) : Operation :=
  withRunner (LiteralRunner (sharedConfig "buildCacheRestore")) (blankOperation pr ph None).

Definition saveOperation (ph : IPhase) (pr : RushConfigurationProject) : Operation :=
  withRunner (LiteralRunner (sharedConfig "buildCacheSave")) (blankOperation pr ph None).

(** The state after lines 91-127. *)
Definition afterBoundaries (ph : IPhase) (pr : RushConfigurationProject)
    (st : PassState) : PassState :=
  {| heap := (heap st ++ [restoreOperation ph pr]) ++ [saveOperation ph pr];
     existingOperations :=
       setAdd (length (heap st))
         (setAdd (S (length (heap st))) (existingOperations st));
     operationsWithWork :=
       setAdd (S (length (heap st)))
         (setAdd (length (heap st)) (operationsWithWork st));
     allOperations := allOperations st |}.

(** The state after one round of lines 156-170. *)
Definition afterShard (ph : IPhase) (pr : RushConfigurationProject) (n : Z)
    (restore save : nat) (shardNo : Z) (st : PassState) : PassState :=
  {| heap :=
       addDependencyHeap save (length (heap st))
         (addDependencyHeap (length (heap st)) restore
            (heap st ++ [blankOperation pr ph (Some (shardNo, n))]));
     existingOperations := setAdd (length (heap st)) (existingOperations st);
     operationsWithWork := setAdd (length (heap st)) (operationsWithWork st);
     allOperations := allOperations st |}.
End BlockStates.

Section RuleDefs.
Context `{W : Workspace}.

(** Every memoised operation is in the heap and satisfies [U]. *)
Definition listed (U : nat → Prop) (st : PassState) : Prop :=
  ∀ k l o, mapGet k (allOperations st) = Some l → o ∈ l →
           o < length (heap st) ∧ U o.

(** [rec] keeps the invariant [I] and returns operations of the heap that
    satisfy [U]. *)
Definition keeps (I : PassState → Prop) (U : nat → Prop)
    (rec : IPhase → RushConfigurationProject → M (list nat)) : Prop :=
  ∀ ph pr st l st',
    I st → listed U st → rec ph pr st = Some (l, st') →
    I st' ∧ listed U st' ∧ length (heap st) ≤ length (heap st') ∧
    ∀ o, o ∈ l → o < length (heap st') ∧ U o.

(** The invariant, the memo and the length of the heap since [base]. *)
Definition kept (I : PassState → Prop) (U : nat → Prop)
    (base st : PassState) : Prop :=
  I st ∧ listed U st ∧ length (heap base) ≤ length (heap st).
End RuleDefs.

Section StableDefs.
Context `{W : Workspace}.

(** What a resolution may do to the state it finds: the operations of the
    heap keep their project, phase, shard, runner and dependencies and may
    gain consumers; the sets and the memo keep their members. *)
Definition stableSince (base st : PassState) : Prop :=
  (∀ o op, heap base !! o = Some op →
     ∃ op', heap st !! o = Some op' ∧
            project op' = project op ∧ phase op' = phase op ∧
            shard op' = shard op ∧ runner op' = runner op ∧
            dependencies op' = dependencies op ∧
            consumers op ⊆ consumers op') ∧
  existingOperations base ⊆ existingOperations st ∧
  operationsWithWork base ⊆ operationsWithWork st ∧
  (∀ k v, mapGet k (allOperations base) = Some v →
          mapGet k (allOperations st) = Some v).

(** Every memoised operation is in the heap. *)
Definition memoInHeap (st : PassState) : Prop := listed (λ _, True) st.
End StableDefs.

Section LinkDefs.
Context `{W : Workspace}.

(** [a] lists [b] among its dependencies; [b] lists [a] among its consumers. *)
Definition dependsOn (h : list Operation) (a b : nat) : Prop :=
  ∃ op, h !! a = Some op ∧ b ∈ dependencies op.

Definition consumedBy (h : list Operation) (b a : nat) : Prop :=
  ∃ op, h !! b = Some op ∧ a ∈ consumers op.

(** The consumer sets are the inverse of the dependency sets. *)
Definition linked (h : list Operation) : Prop :=
  ∀ a b, dependsOn h a b ↔ consumedBy h b a.

(** The operations of [h0] are where they were, and no key of the memo
    occurs twice. *)
Definition framed (h0 : list Operation) (st : PassState) : Prop :=
  (∀ o op, h0 !! o = Some op → heap st !! o = Some op) ∧
  NoDup (allOperations st).*1.
End LinkDefs.

Section CellDefs.
Context `{W : Workspace}.

(** The operations [C] names are below [b] and are as in [h]. *)
Definition untouched (C : nat → Prop) (h : list Operation) (b : nat)
    (st : PassState) : Prop :=
  b ≤ length (heap st) ∧ ∀ o, C o → heap st !! o = h !! o.

(** Identity and runner of [op] are those of [op0]. *)
Definition sameCore (op0 op : Operation) : Prop :=
  project op = project op0 ∧ phase op = phase op0 ∧
  shard op = shard op0 ∧ runner op = runner op0.

(** Line 169: the operation of one shard once it is wired. *)
Definition shardOperation (ph : IPhase) (pr : RushConfigurationProject)
    (n : Z) (restore save : nat) (shardNo : Z) : Operation :=
  withConsumer save (withDependency restore (blankOperation pr ph (Some (shardNo, n)))).
End CellDefs.

Section HeldDefs.
Context `{W : Workspace}.
Variable context : ICreateOperationsContext.

(** What holds of the two boundaries of a sharded pair while its
    dependencies are resolved (lines 133-154): they are in both sets, keep
    identity and runner, have no consumer yet, and no memo entry lists
    them. *)
Definition boundariesHeld (ph : IPhase) (pr : RushConfigurationProject)
    (restore save : nat) (st : PassState) : Prop :=
  listed (λ o, ¬ (o = restore ∨ o = save)) st ∧
  save < length (heap st) ∧
  (∃ op, heap st !! restore = Some op ∧
         sameCore (restoreOperation ph pr) op ∧ consumers op = []) ∧
  (∃ op, heap st !! save = Some op ∧
         sameCore (saveOperation ph pr) op ∧ consumers op = []) ∧
  restore ∈ operationsWithWork st ∧ save ∈ operationsWithWork st ∧
  restore ∈ existingOperations st ∧ save ∈ existingOperations st.

(** What holds of the operation of an unsharded pair while its
    dependencies are resolved (lines 196-211). *)
Definition singleHeld (key : string) (ph : IPhase) (pr : RushConfigurationProject)
    (o : nat) (st : PassState) : Prop :=
  memoInHeap st ∧
  (∃ op, heap st !! o = Some op ∧ sameCore (singleOperation context key ph pr) op) ∧
  mapGet key (allOperations st) = Some [o] ∧
  o ∈ existingOperations st ∧
  (outOfScope context ph pr = false →
   setHas pr (projectsInUnknownState context) = true →
   o ∈ operationsWithWork st).

(** One call of getOrCreateOperations that returns. *)
Definition resolutionStep (st st' : PassState) : Prop :=
  ∃ fuel ph pr l, getOrCreateOperations fuel context ph pr st = Some (l, st').
End HeldDefs.

Section AddedDefs.
Context `{W : Workspace}.

(** The set holds what it held at the start of the pass, then operations
    of the pass. *)
Definition addsCreated (existing : list nat) (h0 : list Operation)
    (st : PassState) : Prop :=
  length h0 ≤ length (heap st) ∧
  ∃ added, existingOperations st = existing ++ added ∧
           ∀ o, o ∈ added → length h0 ≤ o < length (heap st).
End AddedDefs.

Section OwnedDefs.
Context `{W : Workspace}.

(** Every entry of the memo lists at least one Operation, and the Operations
    it lists are in the heap and in the returned set and have the key of the
    entry. *)
Definition owned (st : PassState) : Prop :=
  ∀ k l, mapGet k (allOperations st) = Some l →
    l ≠ [] ∧
    ∀ o, o ∈ l →
      ∃ op, heap st !! o = Some op ∧
            getOperationKey (phase op) (project op) = k ∧
            o ∈ existingOperations st.
End OwnedDefs.

Section SelfEdgeDefs.
Context `{W : Workspace}.

(** The Operation at [o] is among its own dependencies and consumers. *)
Definition selfEdge (o : nat) (st : PassState) : Prop :=
  ∃ op, heap st !! o = Some op ∧ o ∈ dependencies op ∧ o ∈ consumers op.
End SelfEdgeDefs.


(** ** A concrete workspace *)

Module Demo.

Inductive Phase := Build | Test | Bundle.
Inductive Project := ProjA | ProjB | ProjC.

#[export] Instance Phase_eq_dec : EqDecision Phase.
Proof. solve_decision. Defined.
#[export] Instance Project_eq_dec : EqDecision Project.
Proof. solve_decision. Defined.

Definition phaseName (ph : Phase) : string :=
  match ph with
  | Build => "_phase:build"
  | Test => "_phase:test"
  | Bundle => "_phase:bundle"
  end.

(** test and bundle follow the build of the same project; build and bundle
    follow the same phase of the projects depended on. *)
Definition phaseSelf (ph : Phase) : list Phase :=
  match ph with
  | Build => []
  | Test => [Build]
  | Bundle => [Build]
  end.

Definition phaseUpstream (ph : Phase) : list Phase :=
  match ph with
  | Build => [Build]
  | Test => []
  | Bundle => [Bundle]
  end.

Definition projectName (pr : Project) : string :=
  match pr with
  | ProjA => "a"
  | ProjB => "b"
  | ProjC => "c"
  end.

(** c depends on b, b depends on a. *)
Definition projectDeps (pr : Project) : list Project :=
  match pr with
  | ProjA => []
  | ProjB => [ProjA]
  | ProjC => [ProjB]
  end.

(** Project a has no configuration; project b shards its bundle phase three
    ways and has an entry without a shard count for its test phase; project
    c asks for a single shard. *)
Definition loadConfig (pr : Project) : option RushProjectConfiguration :=
  match pr with
  | ProjA => None
  | ProjB => Some {| operationSettingsByOperationName :=
                       <[ "_phase:bundle" := {| shards := Some 3%Z |} ]>
                       (<[ "_phase:test" := {| shards := None |} ]> ∅) |}
  | ProjC => Some {| operationSettingsByOperationName :=
                       <[ "_phase:bundle" := {| shards := Some 1%Z |} ]> ∅ |}
  end.

#[export] Instance workspace : Workspace :=
  {| IPhase := Phase; RushConfigurationProject := Project;
     name := phaseName; self := phaseSelf; upstream := phaseUpstream;
     packageName := projectName; dependencyProjects := projectDeps;
     tryLoadForProjectAsync := loadConfig |}.

Definition mkContext (changed : list Project) (original selection : list Phase)
    (projects : list Project) : ICreateOperationsContext :=
  {| projectsInUnknownState := changed; phaseOriginal := original;
     phaseSelection := selection; projectSelection := projects |}.

(** build requested for the changed project a alone. *)
Definition buildA : ICreateOperationsContext :=
  mkContext [ProjA] [Build] [Build] [ProjA].

(** build requested for b and a, in this order; only a changed. *)
Definition buildBA : ICreateOperationsContext :=
  mkContext [ProjA] [Build] [Build] [ProjB; ProjA].

(** bundle requested for c alone; b and a are dependencies out of scope. *)
Definition bundleC : ICreateOperationsContext :=
  mkContext [] [Bundle] [Build; Bundle] [ProjC].

(** bundle requested for b. *)
Definition bundleB : ICreateOperationsContext :=
  mkContext [] [Bundle] [Build; Bundle] [ProjB].

(** build and test were asked for, test was then unselected. *)
Definition buildTestA : ICreateOperationsContext :=
  mkContext [ProjA] [Build; Test] [Build] [ProjA].

Definition emptyState : PassState := initialState [] [].

(** A measure that decreases along the dependencies of the workspace. *)
Definition rank (ph : Phase) (pr : Project) : nat :=
  match ph with Build => 0 | Test => 1 | Bundle => 1 end
  + 2 * match pr with ProjA => 0 | ProjB => 1 | ProjC => 2 end.

(** Three operations left by an earlier pass: the build of b consumes the
    build of a, the build of c consumes the build of b. *)
Definition chainHeap : list Operation :=
  [ {| project := ProjA; phase := Build; shard := None;
       dependencies := []; consumers := [1]; runner := None |};
    {| project := ProjB; phase := Build; shard := None;
       dependencies := [0]; consumers := [2]; runner := None |};
    {| project := ProjC; phase := Build; shard := None;
       dependencies := [1]; consumers := []; runner := None |} ].


(** *** The passes evaluated *)

Definition stateOf {A} (r : option (A * PassState)) : PassState :=
  match r with
  | Some (_, st) => st
  | None => emptyState
  end.

Definition heapOf (r : option (list nat * list Operation)) : list Operation :=
  match r with
  | Some (_, h) => h
  | None => []
  end.

Definition setOf (r : option (list nat * list Operation)) : list nat :=
  match r with
  | Some (existing, _) => existing
  | None => []
  end.

(** The first resolution of the build of a. *)
Definition afterBuildA : PassState :=
  Eval vm_compute in stateOf (getOrCreateOperations 1 buildA Build ProjA emptyState).

(** The first resolution of the bundle of b. *)
Definition afterBundleB : PassState :=
  Eval vm_compute in stateOf (getOrCreateOperations 3 bundleB Bundle ProjB emptyState).

(** The pass that bundles c. *)
Definition bundleCSet : list nat :=
  Eval vm_compute in setOf (createOperations 10 [] bundleC []).

Definition bundleCHeap : list Operation :=
  Eval vm_compute in heapOf (createOperations 10 [] bundleC []).

Definition restoreOfB : Operation :=
  {| project := ProjB; phase := Bundle; shard := None;
     dependencies := [2]; consumers := [7; 8; 9; 0];
     runner := Some (LiteralRunner (sharedConfig "buildCacheRestore")) |}.

Definition firstShardOfB : Operation :=
  {| project := ProjB; phase := Bundle; shard := Some (1%Z, 3%Z);
     dependencies := [4]; consumers := [5; 0]; runner := None |}.

Definition buildOfB : Operation :=
  {| project := ProjB; phase := Build; shard := None;
     dependencies := []; consumers := [4];
     runner := Some (skipRunner "b;_phase:build") |}.

(** The pass that builds and tests a, test being out of scope. *)
Definition buildTestASelected : PassState :=
  Eval vm_compute in stateOf (createSelected 3 buildTestA (initialState [] [])).

Definition buildTestAWork : list nat :=
  Eval vm_compute in
    default [] (expandConsumers 3 (heap buildTestASelected) 0
                  (operationsWithWork buildTestASelected)).

Definition testOfA : Operation :=
  {| project := ProjA; phase := Test; shard := None;
     dependencies := [0]; consumers := [];
     runner := Some (skipRunner "a;_phase:test") |}.

(** The pass that builds b and a. *)
Definition buildBASelected : PassState :=
  Eval vm_compute in stateOf (createSelected 3 buildBA (initialState [] [])).

Definition buildBAWork : list nat :=
  Eval vm_compute in
    default [] (expandConsumers 3 (heap buildBASelected) 0
                  (operationsWithWork buildBASelected)).

Definition skippedBuildOfB : Operation :=
  {| project := ProjB; phase := Build; shard := None;
     dependencies := []; consumers := [];
     runner := Some (skipRunner "b;_phase:build") |}.

Definition buildOfA : Operation :=
  {| project := ProjA; phase := Build; shard := None;
     dependencies := []; consumers := []; runner := None |}.

(** The pass that builds a on top of the three earlier operations. *)
Definition chainPassHeap : list Operation :=
  Eval vm_compute in heapOf (createOperations 5 [0; 1; 2] buildA chainHeap).

(** The pass that builds and tests a, as returned. *)
Definition buildTestAHeap : list Operation :=
  Eval vm_compute in heapOf (createOperations 3 [] buildTestA []).

End Demo.

(** ** Further passes on the concrete workspace *)

Module Scenarios.
Import Demo.

(** The state in which the pass over [chainHeap] starts. *)
Definition chainState : PassState := initialState [0; 1; 2] chainHeap.

(** The first resolution of the build of a on top of the three earlier
    operations. *)
Definition afterChainBuildA : PassState :=
  Eval vm_compute in stateOf (getOrCreateOperations 1 buildA Build ProjA chainState).

(** The build of b resolved after the build of a. *)
Definition afterBuildAB : PassState :=
  Eval vm_compute in stateOf (getOrCreateOperations 2 buildBA Build ProjB afterBuildA).

(** The bundle of c resolved after the bundle of b. *)
Definition afterBundleBC : PassState :=
  Eval vm_compute in stateOf (getOrCreateOperations 4 bundleB Bundle ProjC afterBundleB).

(** Nothing to create: no phase is handed to the pass. *)
Definition noPhase : ICreateOperationsContext :=
  mkContext [ProjA] [] [Build] [ProjA].

End Scenarios.

(** ** A workspace with a phase that depends on itself *)

Module Cyclic.

Inductive Phase := Again.
Inductive Project := Solo | Plain.

#[export] Instance Phase_eq_dec : EqDecision Phase.
Proof. solve_decision. Defined.
#[export] Instance Project_eq_dec : EqDecision Project.
Proof. solve_decision. Defined.

Definition projectName (pr : Project) : string :=
  match pr with
  | Solo => "solo"
  | Plain => "plain"
  end.

(** Project solo shards the phase two ways; project plain has no
    configuration. *)
Definition loadConfig (pr : Project) : option RushProjectConfiguration :=
  match pr with
  | Solo => Some {| operationSettingsByOperationName :=
                      <[ "_phase:again" := {| shards := Some 2%Z |} ]> ∅ |}
  | Plain => None
  end.

(** The one phase follows itself within each project. *)
#[export] Instance workspace : Workspace :=
  {| IPhase := Phase; RushConfigurationProject := Project;
     name := λ _, "_phase:again"; self := λ _, [Again]; upstream := λ _, [];
     packageName := projectName; dependencyProjects := λ _, [];
     tryLoadForProjectAsync := loadConfig |}.

Definition again : ICreateOperationsContext :=
  {| projectsInUnknownState := [Solo; Plain]; phaseOriginal := [Again];
     phaseSelection := [Again]; projectSelection := [Solo; Plain] |}.

(** The resolution of the phase for project plain. *)
Definition afterPlain : PassState :=
  Eval vm_compute in
    match getOrCreateOperations 2 again Again Plain (initialState [] []) with
    | Some (_, st) => st
    | None => initialState [] []
    end.

End Cyclic.

(** ** Sets and maps in insertion order *)

Section Containers.
Context `{W : Workspace}.

Lemma elem_of_setAdd x y s : x ∈ setAdd y s ↔ x ∈ s ∨ x = y.
Proof.
  unfold setAdd. destruct (decide (y ∈ s)) as [Hy|Hy].
  - split; [by left|]. intros [?| ->]; done.
  - rewrite elem_of_app, list_elem_of_singleton. done.
Qed.

Lemma setAdd_incl y s : s ⊆ setAdd y s.
Proof. intros x Hx. apply elem_of_setAdd. by left. Qed.

Lemma setAdd_self y s : y ∈ setAdd y s.
Proof. apply elem_of_setAdd. by right. Qed.

Lemma setAdd_idemp y s : setAdd y (setAdd y s) = setAdd y s.
Proof.
  unfold setAdd at 1. destruct (decide (y ∈ setAdd y s)) as [|Hn]; [done|].
  destruct Hn. apply setAdd_self.
Qed.

Lemma setAdd_NoDup y s : NoDup s → NoDup (setAdd y s).
Proof.
  intros Hs. unfold setAdd. destruct (decide (y ∈ s)); [done|].
  apply NoDup_app. split_and!; [done| |apply NoDup_singleton].
  intros x Hx ->%list_elem_of_singleton. done.
Qed.

Lemma setAdd_prefix y s : ∃ extra, setAdd y s = s ++ extra.
Proof.
  unfold setAdd. destruct (decide (y ∈ s)).
  - exists []. by rewrite app_nil_r.
  - by exists [y].
Qed.

Lemma setHas_true {A} `{EqDecision A} (x : A) s : setHas x s = true ↔ x ∈ s.
Proof. unfold setHas. apply bool_decide_eq_true. Qed.

Lemma setHas_false {A} `{EqDecision A} (x : A) s : setHas x s = false ↔ x ∉ s.
Proof. unfold setHas. apply bool_decide_eq_false. Qed.

Lemma mapGet_mapSet_eq {V} k (v : V) m : mapGet k (mapSet k v m) = Some v.
Proof.
  induction m as [|[k' v'] m IH]; simpl.
  - by rewrite decide_True.
  - destruct (decide (k = k')) as [->|Hne]; simpl.
    + by rewrite decide_True.
    + by rewrite decide_False.
Qed.

Lemma mapGet_mapSet_ne {V} k k' (v : V) m :
  k ≠ k' → mapGet k' (mapSet k v m) = mapGet k' m.
Proof.
  intros Hne. induction m as [|[k2 v2] m IH]; simpl.
  - by rewrite decide_False.
  - destruct (decide (k = k2)) as [->|Hne2]; simpl.
    + by rewrite !decide_False.
    + destruct (decide (k' = k2)); [done|apply IH].
Qed.

Lemma mapGet_elem {V} k (v : V) m : mapGet k m = Some v → (k, v) ∈ m.
Proof.
  induction m as [|[k' v'] m IH]; simpl; [done|].
  destruct (decide (k = k')) as [->|Hne].
  - intros [= ->]. apply list_elem_of_here.
  - intros Hg. apply list_elem_of_further. by apply IH.
Qed.

Lemma alter_last {A} (f : A → A) (l : list A) x :
  alter f (length l) (l ++ [x]) = l ++ [f x].
Proof.
  rewrite <-(Nat.add_0_r (length l)). by rewrite alter_app_r.
Qed.

Lemma lookup_snoc_Some {A} (l : list A) x i y :
  (l ++ [x]) !! i = Some y ↔ l !! i = Some y ∨ (i = length l ∧ y = x).
Proof.
  rewrite lookup_app_Some. split.
  - intros [?|[Hle Hx]]; [by left|right].
    apply list_lookup_singleton_Some in Hx as [Hi ->]. split; [lia|done].
  - intros [?|[-> ->]]; [by left|right]. split; [lia|].
    by rewrite Nat.sub_diag.
Qed.

(** ** Running the state-passing code *)

Lemma bind_Some {A B} (m : M A) (k : A → M B) st b st' :
  bind m k st = Some (b, st') ↔
  ∃ a st1, m st = Some (a, st1) ∧ k a st1 = Some (b, st').
Proof.
  unfold bind. destruct (m st) as [[a st1]|].
  - split; [by exists a, st1|]. by intros (? & ? & [= <- <-] & ?).
  - split; [done|]. by intros (? & ? & ? & ?).
Qed.

Lemma modify_Some f st (u : unit) st' :
  modify f st = Some (u, st') ↔ st' = f st.
Proof. unfold modify. destruct u. split; [by intros [= <-]|by intros ->]. Qed.

Lemma ret_Some {A} (a b : A) st st' : ret a st = Some (b, st') ↔ b = a ∧ st' = st.
Proof. unfold ret. split; [by intros [= <- <-]|by intros [-> ->]]. Qed.

(** A loop keeps what each of its rounds keeps. *)
Lemma forEach_invariant {A} (I : PassState → Prop) (l : list A) body st st' u :
  forEach l body st = Some (u, st') →
  I st →
  (∀ x s s', x ∈ l → I s → body x s = Some (tt, s') → I s') →
  I st'.
Proof.
  revert st. induction l as [|x l IH]; intros st Hrun HI Hbody; simpl in Hrun.
  - apply ret_Some in Hrun as [_ ->]. done.
  - apply bind_Some in Hrun as ([] & st1 & H1 & H2).
    eapply IH; [exact H2|eapply Hbody; [apply list_elem_of_here|exact HI|exact H1]|].
    intros y s s' Hy. apply Hbody. by apply list_elem_of_further.
Qed.

End Containers.

(** ** Dirty propagation (lines 54-58) *)

Section Propagation.
Context `{W : Workspace}.
Implicit Types (h : list Operation) (s : list nat).

Lemma elem_of_addAll x s cs : x ∈ addAll s cs ↔ x ∈ s ∨ x ∈ cs.
Proof.
  unfold addAll. revert s. induction cs as [|c cs IH]; intros s; simpl.
  - rewrite elem_of_nil. tauto.
  - rewrite IH, elem_of_setAdd, elem_of_cons. intuition congruence.
Qed.

Lemma addAll_prefix s cs : ∃ extra, addAll s cs = s ++ extra.
Proof.
  unfold addAll. revert s. induction cs as [|c cs IH]; intros s; simpl.
  - exists []. by rewrite app_nil_r.
  - destruct (setAdd_prefix c s) as [e1 ->].
    destruct (IH (s ++ e1)) as [e2 ->]. exists (e1 ++ e2). by rewrite app_assoc.
Qed.

Lemma addAll_NoDup s cs : NoDup s → NoDup (addAll s cs).
Proof.
  unfold addAll. revert s. induction cs as [|c cs IH]; intros s Hs; simpl; [done|].
  apply IH. by apply setAdd_NoDup.
Qed.

Lemma addAll_lookup s cs i x : s !! i = Some x → addAll s cs !! i = Some x.
Proof.
  intros Hx. destruct (addAll_prefix s cs) as [e ->]. by apply lookup_app_l_Some.
Qed.

(** A set closed under the consumer relation holds all it reaches. *)
Lemma closed_reaches h (s : list nat) x y :
  (∀ a b, a ∈ s → consumerEdge h a b → b ∈ s) →
  rtc (consumerEdge h) x y → x ∈ s → y ∈ s.
Proof.
  intros Hcl Hr. induction Hr as [|a b c Hab _ IH]; [done|].
  intros Ha. apply IH. by eapply Hcl.
Qed.

Lemma reachesFrom_step h s x y :
  reachesFrom h s x → consumerEdge h x y → reachesFrom h s y.
Proof.
  intros (z & Hz & Hr) He. exists z. split; [done|].
  eapply rtc_r; eauto.
Qed.

(** The loop invariant: everything in the set is reached from the starting
    set, which it contains, and the consumers of the elements the iterator
    has passed are in. *)
Lemma expandConsumers_closure fuel h s0 : ∀ i s r,
  expandConsumers fuel h i s = Some r →
  (∀ x, x ∈ s0 → x ∈ s) →
  (∀ x, x ∈ s → reachesFrom h s0 x) →
  (∀ j x y, j < i → s !! j = Some x → consumerEdge h x y → y ∈ s) →
  ∀ x, x ∈ r ↔ reachesFrom h s0 x.
Proof.
  induction fuel as [|fuel IH]; intros i s r Hrun Hsub Hreach Hdone; [done|].
  simpl in Hrun. destruct (s !! i) as [operation|] eqn:Hi.
  - eapply IH; [exact Hrun| | |].
    + intros x Hx. apply elem_of_addAll. left. auto.
    + intros x [Hx|Hx]%elem_of_addAll; [auto|].
      eapply reachesFrom_step; [apply Hreach; eapply list_elem_of_lookup_2, Hi|done].
    + intros j x y Hj Hx Hxy. apply elem_of_addAll.
      assert (j < i ∨ j = i) as [Hlt| ->] by lia.
      * left. apply (Hdone j x y Hlt); [|done].
        destruct (addAll_prefix s (consumersOf h operation)) as [e He].
        rewrite He in Hx.
        apply lookup_app_Some in Hx as [Hx|[Hge _]]; [done|].
        apply lookup_lt_Some in Hi. lia.
      * right. erewrite addAll_lookup in Hx by done. by injection Hx as <-.
  - injection Hrun as <-. intros x. split; [auto|].
    intros (y & Hy & Hr). eapply closed_reaches; [|exact Hr|auto].
    intros a b [j Hj]%list_elem_of_lookup Hab. apply (Hdone j a b); [|done..].
    apply lookup_lt_Some in Hj. apply lookup_ge_None in Hi. lia.
Qed.

Lemma consumersOf_allConsumers h o x : x ∈ consumersOf h o → x ∈ allConsumers h.
Proof.
  unfold consumersOf, allConsumers. destruct (h !! o) as [op|] eqn:Ho.
  - intros Hx. apply list_elem_of_join. exists (consumers op). split; [done|].
    apply list_elem_of_fmap. exists op. split; [done|].
    by eapply list_elem_of_lookup_2.
  - by intros ?%elem_of_nil.
Qed.

(** The loop ends: the set stays duplicate-free and within the starting set
    and the consumers the heap mentions. *)
Lemma expandConsumers_returns h s0 : ∀ fuel i s,
  NoDup s → (∀ x, x ∈ s → x ∈ s0 ++ allConsumers h) →
  i ≤ length s → length (s0 ++ allConsumers h) < fuel + i →
  is_Some (expandConsumers fuel h i s).
Proof.
  induction fuel as [|fuel IH]; intros i s Hnd Hsub Hi Hfuel.
  - assert (length s ≤ length (s0 ++ allConsumers h)); [|lia].
    apply submseteq_length, NoDup_submseteq; [done|]. intros x. apply Hsub.
  - simpl. destruct (s !! i) as [operation|] eqn:Hop; [|by eexists].
    apply IH.
    + by apply addAll_NoDup.
    + intros x [Hx|Hx]%elem_of_addAll; [auto|].
      apply elem_of_app. right. by eapply consumersOf_allConsumers.
    + apply lookup_lt_Some in Hop.
      destruct (addAll_prefix s (consumersOf h operation)) as [e He].
      rewrite He, length_app. lia.
    + lia.
Qed.

End Propagation.

(** ** Dependency edges *)

Section Edges.
Context `{W : Workspace}.
Implicit Types (h : list Operation) (op : Operation).

Lemma length_addDependencyHeap a b h :
  length (addDependencyHeap a b h) = length h.
Proof. unfold addDependencyHeap. by rewrite !length_alter. Qed.

Lemma addDependencyHeap_lookup a b h o :
  addDependencyHeap a b h !! o = afterEdge a b o <$> h !! o.
Proof.
  unfold addDependencyHeap, afterEdge. rewrite !list_lookup_alter.
  destruct (decide (b = o)) as [->|], (decide (a = o)) as [->|];
    rewrite ?list_lookup_alter_eq, ?list_lookup_alter_ne by done;
    by destruct (h !! o).
Qed.

Lemma afterEdge_core a b o op :
  project (afterEdge a b o op) = project op ∧
  phase (afterEdge a b o op) = phase op ∧
  shard (afterEdge a b o op) = shard op ∧
  runner (afterEdge a b o op) = runner op.
Proof. unfold afterEdge. by repeat case_decide. Qed.

Lemma afterEdge_dependencies a b o op x :
  x ∈ dependencies (afterEdge a b o op) ↔
  x ∈ dependencies op ∨ (a = o ∧ x = b).
Proof.
  unfold afterEdge. repeat case_decide; simpl; rewrite ?elem_of_setAdd;
    intuition congruence.
Qed.

Lemma afterEdge_consumers a b o op x :
  x ∈ consumers (afterEdge a b o op) ↔
  x ∈ consumers op ∨ (b = o ∧ x = a).
Proof.
  unfold afterEdge. repeat case_decide; simpl; rewrite ?elem_of_setAdd;
    intuition congruence.
Qed.

Lemma withDependency_idemp b op :
  withDependency b (withDependency b op) = withDependency b op.
Proof. unfold withDependency. simpl. by rewrite setAdd_idemp. Qed.

Lemma withConsumer_idemp a op :
  withConsumer a (withConsumer a op) = withConsumer a op.
Proof. unfold withConsumer. simpl. by rewrite setAdd_idemp. Qed.

Lemma afterEdge_idemp a b o op :
  afterEdge a b o (afterEdge a b o op) = afterEdge a b o op.
Proof.
  unfold afterEdge. repeat case_decide; simpl; try done.
  - unfold withConsumer, withDependency. simpl. by rewrite !setAdd_idemp.
  - apply withConsumer_idemp.
  - apply withDependency_idemp.
Qed.

Lemma addDependencyHeap_idemp a b h :
  addDependencyHeap a b (addDependencyHeap a b h) = addDependencyHeap a b h.
Proof.
  apply list_eq. intros o. rewrite !addDependencyHeap_lookup.
  destruct (h !! o) as [op|]; simpl; [|done]. by rewrite afterEdge_idemp.
Qed.

End Edges.

(** ** The invariant of a pass, statement by statement *)

Section InvariantSteps.
Context `{W : Workspace}.
Variable context : ICreateOperationsContext.
Variable h0 : list Operation.
Local Abbreviation Inv := (Inv context h0).
Local Abbreviation classified := (classified context).

Lemma grows_refl st : grows st st.
Proof. by split_and!. Qed.

Lemma grows_trans st1 st2 st3 : grows st1 st2 → grows st2 st3 → grows st1 st3.
Proof.
  intros (? & ? & ?) (? & ? & ?). split_and!; [lia|by etrans..].
Qed.

Lemma grows_alloc op st : grows st (stAlloc op st).
Proof. split_and!; simpl; [rewrite length_app; lia|done..]. Qed.

Lemma grows_heap f st :
  (∀ h, length (f h) = length h) → grows st (stHeap f st).
Proof. intros Hf. split_and!; simpl; [by rewrite Hf|done..]. Qed.

Lemma grows_work o st : grows st (stWork o st).
Proof. split_and!; simpl; [done..|apply setAdd_incl]. Qed.

Lemma grows_existing o st : grows st (stExisting o st).
Proof. split_and!; simpl; [done|apply setAdd_incl|done]. Qed.

Lemma grows_memo k l st : grows st (stMemo k l st).
Proof. by split_and!. Qed.

Lemma classified_mono s s' o op :
  s ⊆ s' → classified s o op → classified s' o op.
Proof.
  intros Hs. unfold classified. destruct (shardedPair op).
  - intros [? ?]. split; [by apply Hs|done].
  - intros [? Hc]. split; [done|]. destruct (outOfScope _ _ _); [done|].
    destruct Hc as [? Hc]. split; [done|]. intros ?. by apply Hs, Hc.
Qed.

Lemma classified_core s o op op' :
  project op' = project op → phase op' = phase op → shard op' = shard op →
  runner op' = runner op → classified s o op → classified s o op'.
Proof.
  unfold classified, shardedPair. by intros -> -> -> ->.
Qed.

(** [a.addDependency(b)] between two operations of the heap. *)
Lemma Inv_addDependency a b st :
  Inv st → a < length (heap st) → b < length (heap st) →
  Inv (stHeap (addDependencyHeap a b) st).
Proof.
  intros [Hbase Hnd Hmemo Hex Hcl Hcons Hcov] Ha Hb.
  split; simpl; rewrite ?length_addDependencyHeap; try done.
  - intros o op' Ho. rewrite addDependencyHeap_lookup.
    destruct (heap st !! o) as [op|] eqn:Hop; [|done]. intros [= <-].
    destruct (afterEdge_core a b o op) as (? & ? & ? & ?).
    eapply classified_core; eauto.
  - intros o op' c. rewrite addDependencyHeap_lookup.
    destruct (heap st !! o) as [op|] eqn:Hop; [|done]. intros [= <-].
    intros [Hc|[-> ->]]%afterEdge_consumers.
    + destruct (Hcons o op c Hop Hc) as [?|(cop & Hcop & Hdep)]; [by left|right].
      exists (afterEdge a b c cop). rewrite addDependencyHeap_lookup, Hcop.
      split; [done|]. apply afterEdge_dependencies. by left.
    + right. destruct (lookup_lt_is_Some_2 _ _ Ha) as [opa Hopa].
      exists (afterEdge a o a opa). rewrite addDependencyHeap_lookup, Hopa.
      split; [done|]. apply afterEdge_dependencies. by right.
  - intros Hk o op' Ho. rewrite addDependencyHeap_lookup.
    destruct (heap st !! o) as [op|] eqn:Hop; [|done]. intros [= <-].
    destruct (afterEdge_core a b o op) as (Hpr & Hph & _ & _).
    unfold shardedPair. rewrite Hpr, Hph. by apply Hcov.
Qed.

Lemma Inv_work o st : Inv st → Inv (stWork o st).
Proof.
  intros [Hbase Hnd Hmemo Hex Hcl Hcons Hcov]. split; simpl; try done.
  - by apply setAdd_NoDup.
  - intros o' op ? ?. eapply classified_mono; [apply setAdd_incl|by apply Hcl].
Qed.

Lemma Inv_existing o st : Inv st → Inv (stExisting o st).
Proof.
  intros [Hbase Hnd Hmemo Hex Hcl Hcons Hcov]. split; simpl; try done.
  intros o' ? ?. apply setAdd_incl. by apply Hex.
Qed.

(** [allOperations.set(key, ops)], for operations of the heap and a key that
    no unsharded operation of the pass is registered under. *)
Lemma Inv_memo key ops st :
  Inv st →
  (∀ o, o ∈ ops → o < length (heap st)) →
  (keysIdentifyPairs → ∀ o op, length h0 ≤ o → heap st !! o = Some op →
     shardedPair op = None → getOperationKey (phase op) (project op) ≠ key) →
  Inv (stMemo key ops st).
Proof.
  intros [Hbase Hnd Hmemo Hex Hcl Hcons Hcov] Hops Hkey. split; simpl; try done.
  - intros k l o. destruct (decide (key = k)) as [->|Hne].
    + rewrite mapGet_mapSet_eq. intros [= <-]. apply Hops.
    + rewrite mapGet_mapSet_ne by done. apply Hmemo.
  - intros Hk o op Ho Hop Hun. rewrite mapGet_mapSet_ne; [by apply Hcov|].
    intros Heq. by eapply Hkey.
Qed.

(** A fresh operation placed at the end of the heap and registered. *)
Lemma Inv_alloc op st st' :
  Inv st →
  heap st' = heap st ++ [op] →
  existingOperations st ⊆ existingOperations st' →
  operationsWithWork st ⊆ operationsWithWork st' →
  NoDup (operationsWithWork st') →
  length (heap st) ∈ existingOperations st' →
  consumers op = [] →
  classified (operationsWithWork st') (length (heap st)) op →
  (∀ k l, mapGet k (allOperations st') = Some l →
     mapGet k (allOperations st) = Some l ∨ l = [length (heap st)]) →
  (∀ k l, mapGet k (allOperations st) = Some l →
     mapGet k (allOperations st') = Some l) →
  (keysIdentifyPairs → shardedPair op = None →
     mapGet (getOperationKey (phase op) (project op)) (allOperations st')
       = Some [length (heap st)]) →
  Inv st'.
Proof.
  intros [Hbase Hnd Hmemo Hex Hcl Hcons Hcov] Hheap Hsubex Hsubw Hnd' Hnew Hnocons
    Hclnew Hmemo' Hkeep Hcovnew.
  split; rewrite ?Hheap, ?length_app; simpl.
  - lia.
  - done.
  - intros k l o Hl Ho. destruct (Hmemo' k l Hl) as [Hold| ->].
    + specialize (Hmemo k l o Hold Ho). lia.
    + apply list_elem_of_singleton in Ho as ->. lia.
  - intros o Ho Hlt. destruct (decide (o = length (heap st))) as [->|]; [done|].
    apply Hsubex, Hex; [done|lia].
  - intros o op' Ho [Hop|[-> ->]]%lookup_snoc_Some; [|done].
    eapply classified_mono; [exact Hsubw|by apply Hcl].
  - intros o op' c [Hop|[-> ->]]%lookup_snoc_Some Hc.
    + destruct (Hcons o op' c Hop Hc) as [?|(cop & Hcop & Hdep)]; [by left|right].
      exists cop. split; [|done]. by apply lookup_app_l_Some.
    + rewrite Hnocons in Hc. by apply elem_of_nil in Hc.
  - intros Hk o op' Ho [Hop|[-> ->]]%lookup_snoc_Some Hun.
    + by apply Hkeep, Hcov.
    + by apply Hcovnew.
Qed.

End InvariantSteps.

(** ** The invariant of a pass, resolution by resolution *)

Lemma newOperation_Some `{W : Workspace} pr ph sh st o st' :
  newOperation pr ph sh st = Some (o, st') ↔
  o = length (heap st) ∧ st' = stAlloc (blankOperation pr ph sh) st.
Proof.
  unfold newOperation. split; [by intros [= <- <-]|by intros [-> ->]].
Qed.

Lemma getMemo_Some `{W : Workspace} key st r st' :
  getMemo key st = Some (r, st') ↔
  r = mapGet key (allOperations st) ∧ st' = st.
Proof. unfold getMemo. split; [by intros [= <- <-]|by intros [-> ->]]. Qed.

Lemma getShards_name `{W : Workspace} ph ph' pr :
  name ph = name ph' → getShards ph pr = getShards ph' pr.
Proof. unfold getShards. by intros ->. Qed.

Ltac subst_eq E :=
  lazymatch type of E with
  | ?x = ?y => first [subst x | subst y | clear E]
  end.

(** Takes the first statement off a run. *)
Ltac run_prim H :=
  lazymatch type of H with
  | newOperation _ _ _ _ = Some _ => apply newOperation_Some in H as [-> ->]
  | getMemo _ _ = Some _ => apply getMemo_Some in H as [-> ->]
  | setRunner _ _ _ = Some _ => apply modify_Some in H as ->
  | addDependency _ _ _ = Some _ => apply modify_Some in H as ->
  | addWork _ _ = Some _ => apply modify_Some in H as ->
  | addExisting _ _ = Some _ => apply modify_Some in H as ->
  | setMemo _ _ _ = Some _ => apply modify_Some in H as ->
  | ret _ _ = Some _ =>
      let E1 := fresh "E" in
      let E2 := fresh "E" in
      apply ret_Some in H as [E1 E2]; subst_eq E1; subst_eq E2
  | _ => idtac
  end.

Ltac run_step H :=
  lazymatch type of H with
  | bind _ _ _ = Some _ =>
      let a := fresh "a" in
      let s := fresh "s" in
      let H1 := fresh "Hrun" in
      apply bind_Some in H as (a & s & H1 & H); run_prim H1
  | _ => run_prim H
  end.

Section InvariantResolution.
Context `{W : Workspace}.
Variable context : ICreateOperationsContext.
Variable h0 : list Operation.
Local Abbreviation Inv := (Inv context h0).
Local Abbreviation classified := (classified context).
Local Abbreviation since := (since context h0).

(** Lines 173-190. *)
Lemma createSingle_Inv ph pr st o st' :
  Inv st →
  mapGet (getOperationKey ph pr) (allOperations st) = None →
  shardsAboveOne (getShards ph pr) = None →
  createSingle context (getOperationKey ph pr) ph pr st = Some (o, st') →
  Inv st' ∧ grows st st' ∧ o = length (heap st) ∧ o < length (heap st').
Proof.
  intros HI Hmiss Hun Hrun. unfold createSingle in Hrun.
  run_step Hrun. run_step Hrun.
  assert (∃ op ws',
    s = {| heap := heap st ++ [op];
           existingOperations := existingOperations st;
           operationsWithWork := ws';
           allOperations := allOperations st |} ∧
    operationsWithWork st ⊆ ws' ∧ NoDup ws' ∧ consumers op = [] ∧
    project op = pr ∧ phase op = ph ∧
    classified ws' (length (heap st)) op)
    as (op & ws' & -> & Hws & Hnd & Hnc & Hpr & Hph & Hcl).
  { pose proof (inv_nodup _ _ _ HI) as Hnd.
    unfold classified, shardedPair.
    destruct (outOfScope context ph pr) eqn:Hscope.
    - run_prim Hrun0.
      exists (withRunner (skipRunner (getOperationKey ph pr)) (blankOperation pr ph None)),
        (operationsWithWork st).
      split_and!; try done.
      + unfold stHeap, stAlloc; simpl. by rewrite alter_last.
      + simpl. by rewrite Hun, Hscope.
    - destruct (setHas pr (projectsInUnknownState context)) eqn:Hch; run_prim Hrun0.
      + exists (blankOperation pr ph None), (setAdd (length (heap st)) (operationsWithWork st)).
        split_and!; try done; [apply setAdd_incl|by apply setAdd_NoDup|].
        simpl. rewrite Hun, Hscope. split_and!; try done. intros _. apply setAdd_self.
      + exists (blankOperation pr ph None), (operationsWithWork st).
        split_and!; try done. simpl. rewrite Hun, Hscope, Hch. by split_and!. }
  clear Hrun0. do 3 run_step Hrun.
  split_and!.
  - eapply (Inv_alloc _ _ op st); simpl; try done.
    + apply setAdd_incl.
    + apply setAdd_self.
    + intros k l. destruct (decide (getOperationKey ph pr = k)) as [<-|Hne].
      * rewrite mapGet_mapSet_eq. intros [= <-]. by right.
      * rewrite mapGet_mapSet_ne by done. by left.
    + intros k l Hk. rewrite mapGet_mapSet_ne; [done|]. intros <-. congruence.
    + intros _ _. rewrite Hpr, Hph. apply mapGet_mapSet_eq.
  - split_and!; simpl; [rewrite length_app; lia|apply setAdd_incl|done].
  - done.
  - simpl. rewrite length_app. simpl. lia.
Qed.

(** Lines 91-127. *)
Lemma createBoundaries_Inv ph pr n st b st' :
  Inv st →
  shardsAboveOne (getShards ph pr) = Some n →
  createBoundaries ph pr st = Some (b, st') →
  Inv st' ∧ grows st st' ∧
  b = (length (heap st), S (length (heap st))) ∧
  S (S (length (heap st))) = length (heap st').
Proof.
  intros HI Hsh Hrun. unfold createBoundaries in Hrun.
  do 9 run_step Hrun.
  set (restore := withRunner (LiteralRunner (sharedConfig "buildCacheRestore"))
                    (blankOperation pr ph None)).
  set (save := withRunner (LiteralRunner (sharedConfig "buildCacheSave"))
                    (blankOperation pr ph None)).
  set (r := length (heap st)).
  pose (mid := {| heap := heap st ++ [restore];
                  existingOperations := setAdd r (existingOperations st);
                  operationsWithWork := setAdd r (operationsWithWork st);
                  allOperations := allOperations st |}).
  assert (Inv mid) as Hmid.
  { eapply (Inv_alloc _ _ restore st); simpl; try done.
    - apply setAdd_incl.
    - apply setAdd_incl.
    - apply setAdd_NoDup, (inv_nodup _ _ _ HI).
    - apply setAdd_self.
    - unfold classified, shardedPair; simpl. rewrite Hsh.
      split; [apply setAdd_self|by eexists].
    - by left.
    - unfold shardedPair; simpl. by rewrite Hsh. }
  assert (Hh1 : alter (withRunner (LiteralRunner (sharedConfig "buildCacheRestore"))) r
                  (heap st ++ [blankOperation pr ph None]) = heap st ++ [restore])
    by apply alter_last.
  unfold stExisting, stWork, stHeap, stAlloc;
    cbn [heap existingOperations operationsWithWork allOperations].
  rewrite Hh1, alter_last. fold save.
  split_and!.
  - eapply (Inv_alloc _ _ save mid); cbn [heap existingOperations operationsWithWork allOperations mid];
      try done.
    + intros x. rewrite !elem_of_setAdd. tauto.
    + intros x. rewrite !elem_of_setAdd. tauto.
    + apply setAdd_NoDup, setAdd_NoDup, (inv_nodup _ _ _ HI).
    + rewrite !elem_of_setAdd. tauto.
    + unfold classified, shardedPair; simpl. rewrite Hsh.
      split; [apply setAdd_self|by eexists].
    + by left.
    + unfold shardedPair; simpl. by rewrite Hsh.
  - split_and!; cbn [heap existingOperations operationsWithWork allOperations].
    + rewrite !length_app. lia.
    + intros x. rewrite !elem_of_setAdd. tauto.
    + intros x. rewrite !elem_of_setAdd. tauto.
  - subst r. by rewrite length_app, Nat.add_1_r.
  - cbn [heap]. rewrite !length_app. simpl. lia.
Qed.

(** Lines 157-169, with the boundary operations as the only dependency and
    the only dependent. *)
Lemma createShard_Inv ph pr n r sv shardNo st o st' :
  Inv st →
  shardsAboveOne (getShards ph pr) = Some n →
  r < length (heap st) → sv < length (heap st) →
  createShard pr ph n [r] [sv] shardNo st = Some (o, st') →
  Inv st' ∧ grows st st' ∧ o < length (heap st').
Proof.
  intros HI Hsh Hr Hsv Hrun. unfold createShard in Hrun. simpl in Hrun.
  injection Hrun as <- <-.
  set (sh := length (heap st)).
  pose (mid := {| heap := heap st ++ [blankOperation pr ph (Some (shardNo, n))];
                  existingOperations := setAdd sh (existingOperations st);
                  operationsWithWork := setAdd sh (operationsWithWork st);
                  allOperations := allOperations st |}).
  assert (Inv mid) as Hmid.
  { eapply (Inv_alloc _ _ _ st); simpl; try done.
    - apply setAdd_incl.
    - apply setAdd_incl.
    - apply setAdd_NoDup, (inv_nodup _ _ _ HI).
    - apply setAdd_self.
    - unfold classified, shardedPair; simpl. rewrite Hsh.
      split; [apply setAdd_self|done].
    - by left.
    - unfold shardedPair; simpl. by rewrite Hsh. }
  assert (length (heap mid) = S (length (heap st))) as Hlen.
  { simpl. rewrite length_app. simpl. lia. }
  split_and!.
  - apply (Inv_addDependency _ _ sv sh (stHeap (addDependencyHeap sh r) mid)).
    + apply Inv_addDependency; [done|lia..].
    + simpl. rewrite length_addDependencyHeap, length_app. simpl. lia.
    + simpl. rewrite length_addDependencyHeap, length_app. simpl. lia.
  - split_and!; simpl.
    + rewrite !length_addDependencyHeap, length_app. lia.
    + apply setAdd_incl.
    + apply setAdd_incl.
  - simpl. rewrite !length_addDependencyHeap, length_app. simpl. lia.
Qed.

Section Recursion.
Variable rec : IPhase → RushConfigurationProject → M (list nat).
Hypothesis Hrec : resolves context h0 rec.

(** Line 197 and lines 205-207. *)
Lemma wire_since base target depPhase depProject st u st' :
  since base st → target < length (heap base) →
  wire rec target depPhase depProject st = Some (u, st') →
  since base st'.
Proof.
  intros [HI Hg] Ht Hrun. unfold wire in Hrun. run_step Hrun.
  destruct (Hrec _ _ _ _ _ HI Hrun0) as (HI1 & Hg1 & Hvalid).
  assert (target < length (heap s)) as Ht1.
  { destruct Hg as [? _], Hg1 as [? _]. lia. }
  cut (since base st' ∧ length (heap st') = length (heap s)); [tauto|].
  apply (forEach_invariant
           (λ x, since base x ∧ length (heap x) = length (heap s)) _ _ _ _ _ Hrun).
  - split; [|done]. split; [done|]. by eapply grows_trans.
  - intros op s1 s2 Hop [[HI2 Hg2] Hlen] Hstep. run_prim Hstep.
    split; [split|].
    + apply Inv_addDependency; [done|lia|]. rewrite Hlen. by apply Hvalid.
    + eapply grows_trans; [exact Hg2|]. apply grows_heap, length_addDependencyHeap.
    + simpl. by rewrite length_addDependencyHeap.
Qed.

Lemma wireAll_since base (targets : list nat) depPhase depProject st u st' :
  since base st → (∀ t, t ∈ targets → t < length (heap base)) →
  forEach targets (λ t, wire rec t depPhase depProject) st = Some (u, st') →
  since base st'.
Proof.
  intros Hs Ht Hrun. apply (forEach_invariant (since base) _ _ _ _ _ Hrun Hs).
  intros t s1 s2 Hin Hs1 Hstep. eapply wire_since; eauto.
Qed.

(** Lines 156-170. *)
Lemma createShards_since ph pr n r sv base : ∀ indices operations st l st',
  since base st →
  shardsAboveOne (getShards ph pr) = Some n →
  r < length (heap base) → sv < length (heap base) →
  (∀ o, o ∈ operations → o < length (heap st)) →
  createShards pr ph n [r] [sv] indices operations st = Some (l, st') →
  since base st' ∧ ∀ o, o ∈ l → o < length (heap st').
Proof.
  induction indices as [|shardNo rest IH];
    intros operations st l st' [HI Hg] Hsh Hr Hsv Hops Hrun; simpl in Hrun.
  - run_prim Hrun. by split.
  - run_step Hrun.
    assert (length (heap base) ≤ length (heap st)) as Hle by apply Hg.
    assert (r < length (heap st)) as Hr1 by lia.
    assert (sv < length (heap st)) as Hsv1 by lia.
    destruct (createShard_Inv _ _ _ _ _ _ _ _ _ HI Hsh Hr1 Hsv1 Hrun0)
      as (HI1 & Hg1 & Ha).
    eapply IH; [|done..| |exact Hrun].
    + split; [done|]. by eapply grows_trans.
    + intros o [Ho| ->%list_elem_of_singleton]%elem_of_app; [|done].
      specialize (Hops o Ho). destruct Hg1 as [? _]. lia.
Qed.

(** Lines 133-154 and 196-211: the two loops over the dependencies. *)
Lemma dependencyLoops_since base ph pr (selfBody : IPhase → M unit)
    (upstreamBody : IPhase → RushConfigurationProject → M unit) st u u' s st' :
  (∀ depPhase s1 s2,
     since base s1 → selfBody depPhase s1 = Some (tt, s2) → since base s2) →
  (∀ depPhase depProject s1 s2,
     since base s1 → upstreamBody depPhase depProject s1 = Some (tt, s2) →
     since base s2) →
  since base st →
  forEach (self ph) selfBody st = Some (u, s) →
  (if bool_decide (upstream ph ≠ []) then
     if bool_decide (dependencyProjects pr ≠ []) then
       forEach (upstream ph) (λ depPhase,
         forEach (dependencyProjects pr) (λ dependencyProject,
           upstreamBody depPhase dependencyProject))
     else ret tt
   else ret tt) s = Some (u', st') →
  since base st'.
Proof.
  intros Hself Hup Hs Hrun1 Hrun2.
  assert (since base s) as Hs1.
  { apply (forEach_invariant (since base) _ _ _ _ _ Hrun1 Hs).
    intros depPhase s1 s2 _. apply Hself. }
  destruct (bool_decide (upstream ph ≠ [])); [|by run_prim Hrun2].
  destruct (bool_decide (dependencyProjects pr ≠ [])); [|by run_prim Hrun2].
  apply (forEach_invariant (since base) _ _ _ _ _ Hrun2 Hs1).
  intros depPhase s1 s2 _ Hs2 Hrun3.
  apply (forEach_invariant (since base) _ _ _ _ _ Hrun3 Hs2).
  intros depProject s3 s4 _. apply Hup.
Qed.

(** Lines 77-216. *)
Lemma getOrCreateBody_resolves :
  resolves context h0 (getOrCreateBody context rec).
Proof.
  intros ph pr st l st' HI Hrun. unfold getOrCreateBody in Hrun.
  run_step Hrun.
  destruct (mapGet (getOperationKey ph pr) (allOperations st)) as [cached|] eqn:Hmemo.
  { run_prim Hrun. split_and!; [done|apply grows_refl|].
    intros o Ho. by eapply inv_memo. }
  destruct (shardsAboveOne (getShards ph pr)) as [n|] eqn:Hsh.
  - unfold shardedBranch in Hrun. run_step Hrun.
    destruct (createBoundaries_Inv _ _ _ _ _ _ HI Hsh Hrun0) as (HI1 & Hg1 & -> & Hlen).
    cbn [fst snd] in Hrun. do 5 run_step Hrun.
    assert (since s s1) as Hs1.
    { eapply (dependencyLoops_since s ph pr); [| |split; [done|apply grows_refl]
                                              |exact Hrun1|exact Hrun2].
      - intros depPhase s3 s4 Hs3 Hrun. eapply wireAll_since; [exact Hs3| |exact Hrun].
        intros t ->%list_elem_of_singleton. lia.
      - intros depPhase depProject s3 s4 Hs3 Hrun.
        eapply wireAll_since; [exact Hs3| |exact Hrun].
        intros t ->%list_elem_of_singleton. lia. }
    assert (length (heap st) < length (heap s)) as Hr by lia.
    assert (S (length (heap st)) < length (heap s)) as Hsv by lia.
    assert (∀ o, o ∈ [length (heap st)] ++ [S (length (heap st))] →
                 o < length (heap s1)) as Hops.
    { destruct Hs1 as [_ [? _]].
      intros o [->%list_elem_of_singleton| ->%list_elem_of_singleton]%elem_of_app; lia. }
    destruct (createShards_since _ _ _ _ _ _ _ _ _ _ _ Hs1 Hsh Hr Hsv Hops Hrun3)
      as [[HI2 Hg2] Hvalid].
    split_and!.
    + apply Inv_memo; [done|done|].
      intros Hkeys o op _ _ Hun Hkey. apply Hkeys in Hkey as [Hpr Hname].
      unfold shardedPair in Hun.
      rewrite (getShards_name _ _ _ Hname), Hpr in Hun. congruence.
    + eapply grows_trans; [exact Hg1|]. eapply grows_trans; [exact Hg2|].
      apply grows_memo.
    + done.
  - unfold unshardedBranch in Hrun. do 4 run_step Hrun.
    destruct (createSingle_Inv _ _ _ _ _ HI Hmemo Hsh Hrun0) as (HI1 & Hg1 & -> & Hlt).
    assert (since s s1) as [HI2 Hg2].
    { eapply (dependencyLoops_since s ph pr); [| |split; [done|apply grows_refl]
                                              |exact Hrun1|exact Hrun2].
      - intros depPhase s3 s4 Hs3 Hrun. eapply wire_since; [exact Hs3|done|exact Hrun].
      - intros depPhase depProject s3 s4 Hs3 Hrun.
        eapply wire_since; [exact Hs3|done|exact Hrun]. }
    split_and!; [done|by eapply grows_trans|].
    by intros o ?%elem_of_nil.
Qed.

End Recursion.
End InvariantResolution.


Section Pass.
Context `{W : Workspace}.
Variable context : ICreateOperationsContext.
Variable h0 : list Operation.

Lemma getOrCreateOperations_resolves fuel :
  resolves context h0 (getOrCreateOperations fuel context).
Proof.
  induction fuel as [|fuel IH]; [by intros ph pr st l st' _ ?|].
  simpl. by apply getOrCreateBody_resolves.
Qed.

Lemma Inv_initial existing : Inv context h0 (initialState existing h0).
Proof.
  split; simpl; try done.
  - apply NoDup_nil_2.
  - intros o ? ?. lia.
  - intros o op Ho Hop%lookup_lt_Some. lia.
  - intros o op c Hop Hc. left. by exists op.
  - intros _ o op Ho Hop%lookup_lt_Some. lia.
Qed.

(** Lines 47-51. *)
Lemma createSelected_Inv fuel existing u st :
  createSelected fuel context (initialState existing h0) = Some (u, st) →
  Inv context h0 st ∧ grows (initialState existing h0) st.
Proof.
  intros Hrun. unfold createSelected in Hrun.
  apply (forEach_invariant (since context h0 (initialState existing h0)) _ _ _ _ _ Hrun).
  { split; [apply Inv_initial|apply grows_refl]. }
  intros ph s1 s2 _ Hs1 Hrun1.
  apply (forEach_invariant (since context h0 (initialState existing h0)) _ _ _ _ _ Hrun1 Hs1).
  intros pr s3 s4 _ [HI Hg] Hrun2. run_step Hrun2. run_prim Hrun2.
  destruct (getOrCreateOperations_resolves fuel _ _ _ _ _ HI Hrun0) as (? & ? & _).
  split; [done|by eapply grows_trans].
Qed.

End Pass.

(** ** Finalization (lines 60-72) *)

Section Finalization.
Context `{W : Workspace}.
Variable withWork : list nat.
Implicit Types (h : list Operation) (memo : list (string * list nat)).

Local Abbreviation mark := (mark withWork).
Local Abbreviation finalized := (finalized withWork).

Lemma finalize_steps (P : list Operation → Prop) memo h :
  P h → (∀ key o h', P h' → P (mark key h' o)) → P (finalize withWork memo h).
Proof.
  intros Hh Hstep. unfold finalize. revert h Hh.
  induction memo as [|[key ops] memo IH]; intros h Hh; simpl; [done|].
  apply IH. unfold finalizeEntry. simpl. clear IH. revert h Hh.
  induction ops as [|o ops IH]; intros h Hh; simpl; [done|].
  apply IH. by apply (Hstep key o h).
Qed.

Lemma mark_lookup key h o o' :
  mark key h o !! o' =
  if decide ((o ∉ withWork) ∧ o = o') then withRunner (skipRunner key) <$> h !! o'
  else h !! o'.
Proof.
  unfold mark, setHas. destruct (decide (o ∈ withWork)) as [Hin|Hnin].
  - rewrite bool_decide_eq_true_2 by done. rewrite decide_False; [done|tauto].
  - rewrite bool_decide_eq_false_2 by done. rewrite list_lookup_alter.
    destruct (decide (o = o')) as [->|Hne].
    + by rewrite decide_True.
    + rewrite decide_False; [done|tauto].
Qed.

Lemma finalize_length memo h : length (finalize withWork memo h) = length h.
Proof.
  apply (finalize_steps (λ h', length h' = length h)); [done|].
  intros key o h' <-. unfold mark. destruct (setHas o withWork); [done|].
  apply length_alter.
Qed.

Lemma finalize_lookup memo h o op' :
  finalize withWork memo h !! o = Some op' →
  ∃ op, h !! o = Some op ∧ finalized o op op'.
Proof.
  revert op'.
  apply (finalize_steps (λ h', ∀ op', h' !! o = Some op' →
                                 ∃ op, h !! o = Some op ∧ finalized o op op')).
  - intros op' Hop. exists op'. split; [done|]. unfold finalized.
    split_and!; try done. by left.
  - intros key o1 h' IH op'. rewrite mark_lookup. case_decide as Hc.
    + destruct (h' !! o) as [op1|] eqn:Hop1; [|done]. intros [= <-].
      destruct (IH op1 eq_refl) as (op & Hop & Hpr & Hph & Hsh & Hd & Hc' & _).
      exists op. split; [done|]. split_and!; try done. right.
      destruct Hc as [Hnin <-]. split; [done|by eexists].
    + apply IH.
Qed.

Lemma finalize_keeps memo h o :
  o ∈ withWork → finalize withWork memo h !! o = h !! o.
Proof.
  intros Hin.
  apply (finalize_steps (λ h', h' !! o = h !! o)); [done|].
  intros key o1 h' <-. rewrite mark_lookup. rewrite decide_False; [done|].
  intros [Hnin <-]. done.
Qed.

Lemma mark_skippedAt key h o o' :
  o' ∉ withWork → skippedAt o' h → skippedAt o' (mark key h o).
Proof.
  intros Hnin (op & k & Hop & Hr). unfold skippedAt. rewrite mark_lookup.
  case_decide.
  - exists (withRunner (skipRunner key) op), key. by rewrite Hop.
  - by exists op, k.
Qed.

Lemma finalizeEntry_skips key ops h o :
  o ∉ withWork → o ∈ ops → o < length h →
  skippedAt o (finalizeEntry withWork h (key, ops)).
Proof.
  intros Hnin Hin Hlt. unfold finalizeEntry. simpl. revert h Hlt.
  induction ops as [|o1 ops IH]; intros h Hlt; [by apply elem_of_nil in Hin|].
  simpl.
  apply elem_of_cons in Hin as [<-|Hin].
  - assert (skippedAt o (mark key h o)) as Hs.
    { destruct (lookup_lt_is_Some_2 _ _ Hlt) as [op Hop].
      exists (withRunner (skipRunner key) op), key. rewrite mark_lookup.
      rewrite decide_True by done. by rewrite Hop. }
    clear IH Hlt. revert Hs. generalize (mark key h o). clear h.
    induction ops as [|o2 ops IH]; intros h Hs; simpl; [done|].
    apply IH. by apply mark_skippedAt.
  - apply IH; [done|]. unfold mark. destruct (setHas o1 withWork); [done|].
    by rewrite length_alter.
Qed.

Lemma finalize_skips memo key ops h o :
  o ∉ withWork → (key, ops) ∈ memo → o ∈ ops → o < length h →
  skippedAt o (finalize withWork memo h).
Proof.
  intros Hnin Hmemo Hin. unfold finalize. revert h.
  induction memo as [|e memo IH]; intros h Hlt; [by apply elem_of_nil in Hmemo|].
  simpl. apply elem_of_cons in Hmemo as [<-|Hmemo].
  - apply (finalize_steps (skippedAt o)).
    + by apply finalizeEntry_skips.
    + intros k o1 h'. by apply mark_skippedAt.
  - apply IH; [done|].
    assert (finalizeEntry withWork h e = finalize withWork [e] h) as -> by done.
    by rewrite finalize_length.
Qed.

End Finalization.

(** ** The pass as a whole *)

Section WholePass.
Context `{W : Workspace}.
Variable context : ICreateOperationsContext.

Lemma createOperations_Some fuel existing h existing' h' :
  createOperations fuel existing context h = Some (existing', h') →
  ∃ st withWork,
    createSelected fuel context (initialState existing h) = Some (tt, st) ∧
    expandConsumers fuel (heap st) 0 (operationsWithWork st) = Some withWork ∧
    existing' = existingOperations st ∧
    h' = finalize withWork (allOperations st) (heap st).
Proof.
  unfold createOperations.
  destruct (createSelected _ _ _) as [[[] st]|] eqn:Hsel; [|done].
  destruct (expandConsumers _ _ _ _) as [withWork|] eqn:Hexp; [|done].
  intros [= <- <-]. by exists st, withWork.
Qed.

Lemma createOperations_of_parts fuel existing h st withWork :
  createSelected fuel context (initialState existing h) = Some (tt, st) →
  expandConsumers fuel (heap st) 0 (operationsWithWork st) = Some withWork →
  createOperations fuel existing context h =
    Some (existingOperations st, finalize withWork (allOperations st) (heap st)).
Proof. unfold createOperations. by intros -> ->. Qed.

Lemma expandConsumers_spec fuel (h : list Operation) s r :
  expandConsumers fuel h 0 s = Some r → ∀ x, x ∈ r ↔ reachesFrom h s x.
Proof.
  intros Hrun. eapply expandConsumers_closure; [exact Hrun|done| |lia].
  intros x Hx. by exists x.
Qed.

Lemma expandConsumers_extensive fuel (h : list Operation) s r x :
  expandConsumers fuel h 0 s = Some r → x ∈ s → x ∈ r.
Proof.
  intros Hrun Hx. apply (expandConsumers_spec _ _ _ _ Hrun). by exists x.
Qed.

(** An operation of the pass after finalization, and what construction left
    at its index. *)
Lemma finalize_classified h0 st withWork o op :
  Inv context h0 st → length h0 ≤ o →
  finalize withWork (allOperations st) (heap st) !! o = Some op →
  ∃ op0, heap st !! o = Some op0 ∧ finalized withWork o op0 op ∧
         classified context (operationsWithWork st) o op0.
Proof.
  intros HI Ho Hop. apply finalize_lookup in Hop as (op0 & Hop0 & Hfin).
  exists op0. split_and!; [done..|]. by eapply inv_class.
Qed.

End WholePass.

(** ** Scope and disposition *)

Section Disposition.
Context `{W : Workspace}.

(** C1, amended to the pairs without shards: scope comes before change
    state on the unsharded path.  For every pair with a shard count that is
    undefined or at most 1 and that lies outside the requested phase selection
    or project selection, the Operation created for it ends the pass with the
    skip strategy, a runner whose fixed result is Skipped, whether or not the
    project is in the possibly-changed set. *)
Theorem out_of_scope_unsharded_ends_skipped
    fuel existing context h existing' h' o op :
  createOperations fuel existing context h = Some (existing', h') →
  length h ≤ o →
  h' !! o = Some op →
  outOfScope context (phase op) (project op) = true →
  shardsAboveOne (getShards (phase op) (project op)) = None →
  ∃ key, runner op = Some (NullOperationRunner key Skipped true) ∧
         fixedResult (NullOperationRunner key Skipped true) = Some Skipped.
Proof.
  intros (st & withWork & Hsel & Hexp & -> & ->)%createOperations_Some Ho Hop Hscope Hun.
  apply createSelected_Inv in Hsel as [HI _].
  destruct (finalize_classified _ _ _ _ _ _ HI Ho Hop)
    as (op0 & Hop0 & (Hpr & Hph & _ & _ & _ & Hrun) & Hcl).
  unfold classified, shardedPair in Hcl. rewrite <-Hpr, <-Hph, Hun, Hscope in Hcl.
  destruct Hcl as [_ Hr0].
  destruct Hrun as [Hsame|[_ [key Hkey]]].
  - eexists. split; [|done]. by rewrite Hsame, Hr0.
  - by exists key.
Qed.

(** C10: an unsharded out-of-scope Operation that dirty propagation put
    into the work-tracking set still carries, when the pass returns, the skip
    runner it was given at its creation: finalization leaves the members of
    the final work-tracking set as they are, and the runner reports Skipped. *)
Theorem out_of_scope_with_work_keeps_skip
    fuel existing context h st withWork o op :
  createSelected fuel context (initialState existing h) = Some (tt, st) →
  expandConsumers fuel (heap st) 0 (operationsWithWork st) = Some withWork →
  length h ≤ o →
  heap st !! o = Some op →
  outOfScope context (phase op) (project op) = true →
  shardsAboveOne (getShards (phase op) (project op)) = None →
  o ∈ withWork →
  createOperations fuel existing context h =
    Some (existingOperations st, finalize withWork (allOperations st) (heap st)) ∧
  runner op = Some (skipRunner (getOperationKey (phase op) (project op))) ∧
  finalize withWork (allOperations st) (heap st) !! o = Some op ∧
  fixedResult (skipRunner (getOperationKey (phase op) (project op))) = Some Skipped.
Proof.
  intros Hsel Hexp Ho Hop Hscope Hun Hin.
  split; [by apply createOperations_of_parts|].
  apply createSelected_Inv in Hsel as [HI _].
  pose proof (inv_class _ _ _ HI o op Ho Hop) as Hcl.
  unfold classified, shardedPair in Hcl. rewrite Hun, Hscope in Hcl.
  destruct Hcl as [_ Hr]. split_and!; [done| |done].
  by rewrite finalize_keeps.
Qed.

(** C3 (amended): when construction returns, every Operation created
    during the pass is in the returned set, and it has a strategy attached
    unless it carries work: the restore and save nodes of a sharded pair have
    their cache-boundary strategy, an unsharded out-of-scope Operation has the
    skip strategy, and an unsharded in-scope Operation outside the final
    work-tracking set has the skip strategy; the shard Operations and the
    unsharded in-scope Operations inside the final work-tracking set are
    returned with the runner unset.  Package and phase names are taken to
    identify the pairs. *)
Theorem created_operations_strategy
    fuel existing context h st withWork o op :
  keysIdentifyPairs →
  createSelected fuel context (initialState existing h) = Some (tt, st) →
  expandConsumers fuel (heap st) 0 (operationsWithWork st) = Some withWork →
  length h ≤ o →
  finalize withWork (allOperations st) (heap st) !! o = Some op →
  createOperations fuel existing context h =
    Some (existingOperations st, finalize withWork (allOperations st) (heap st)) ∧
  o ∈ existingOperations st ∧
  match shardsAboveOne (getShards (phase op) (project op)) with
  | Some _ =>
      o ∈ withWork ∧
      match shard op with
      | None => boundaryRunner (runner op)
      | Some _ => runner op = None
      end
  | None =>
      if outOfScope context (phase op) (project op) then isSkip (runner op)
      else if decide (o ∈ withWork) then runner op = None
           else isSkip (runner op)
  end.
Proof.
  intros Hkeys Hsel Hexp Ho Hop.
  split; [by apply createOperations_of_parts|].
  apply createSelected_Inv in Hsel as [HI _].
  destruct (finalize_classified _ _ _ _ _ _ HI Ho Hop)
    as (op0 & Hop0 & (Hpr & Hph & Hsh & _ & _ & Hrun) & Hcl).
  split. { apply (inv_existing _ _ _ HI); [done|]. by eapply lookup_lt_Some. }
  pose proof (inv_cover _ _ _ HI Hkeys o op0 Ho Hop0) as Hcov.
  unfold classified, shardedPair in Hcl, Hcov. rewrite Hpr, Hph. rewrite Hsh.
  destruct (shardsAboveOne (getShards (phase op0) (project op0))) as [n|].
  - destruct Hcl as [Hin Hr0].
    assert (o ∈ withWork) as Hw by (by eapply expandConsumers_extensive).
    split; [done|].
    assert (runner op = runner op0) as ->; [|done].
    rewrite finalize_keeps in Hop by done. congruence.
  - destruct Hcl as [_ Hr0].
    destruct (outOfScope context (phase op0) (project op0)).
    + destruct Hrun as [->|[_ [key ->]]]; [rewrite Hr0|]; by eexists _, _.
    + destruct Hr0 as [Hr0 _]. case_decide as Hw.
      * rewrite finalize_keeps in Hop by done. congruence.
      * specialize (Hcov eq_refl). apply mapGet_elem in Hcov.
        destruct (finalize_skips withWork _ _ _ (heap st) o Hw Hcov) as (op' & key & Hop' & Hr').
        { apply list_elem_of_singleton. done. }
        { by eapply lookup_lt_Some. }
        rewrite Hop in Hop'. injection Hop' as <-. by exists key, true.
Qed.

(** C9: the set construction returns contains every member of the set
    passed in and every Operation created during the pass. *)
Theorem returned_set_is_superset fuel existing context h existing' h' :
  createOperations fuel existing context h = Some (existing', h') →
  (∀ o, o ∈ existing → o ∈ existing') ∧
  (∀ o, length h ≤ o → o < length h' → o ∈ existing').
Proof.
  intros (st & withWork & Hsel & Hexp & -> & ->)%createOperations_Some.
  apply createSelected_Inv in Hsel as [HI (_ & Hsub & _)]. split.
  - intros o Ho. by apply Hsub.
  - intros o Ho Hlt. rewrite finalize_length in Hlt. by apply (inv_existing _ _ _ HI).
Qed.

End Disposition.

Section PropagationAndEdges.
Context `{W : Workspace}.

(** C2: once the propagation loop has ended, an Operation is in the
    work-tracking set exactly when it was in the set at the start or is
    reached from a member of the starting set along consumer edges; the loop
    ends on a duplicate-free starting set, and neither the order of the
    starting set nor the order of the consumer sets changes the final set. *)
Theorem propagation_is_transitive_closure (h : list Operation) (s : list nat) :
  (NoDup s →
   ∃ r, expandConsumers (S (length (s ++ allConsumers h))) h 0 s = Some r) ∧
  (∀ fuel r, expandConsumers fuel h 0 s = Some r →
     (∀ x, x ∈ r ↔ x ∈ s ∨ ∃ y, y ∈ s ∧ tc (consumerEdge h) y x) ∧
     (∀ fuel' (h' : list Operation) s' r',
        (∀ x, x ∈ s' ↔ x ∈ s) →
        (∀ o x, x ∈ consumersOf h' o ↔ x ∈ consumersOf h o) →
        expandConsumers fuel' h' 0 s' = Some r' →
        ∀ x, x ∈ r' ↔ x ∈ r)).
Proof.
  split.
  - intros Hnd. apply (expandConsumers_returns h s); [done| |lia..].
    intros x Hx. apply elem_of_app. by left.
  - intros fuel r Hrun. pose proof (expandConsumers_spec _ _ _ _ Hrun) as Hr. split.
    + intros x. rewrite Hr. unfold reachesFrom. split.
      * intros (y & Hy & [->|Htc]%rtc_tc); [by left|right; by exists y].
      * intros [Hx|(y & Hy & Htc)]; [by exists x|].
        exists y. split; [done|]. by apply tc_rtc.
    + intros fuel' h' s' r' Hs Hc Hrun' x.
      rewrite Hr, (expandConsumers_spec _ _ _ _ Hrun'). unfold reachesFrom.
      assert (∀ a b, rtc (consumerEdge h') a b ↔ rtc (consumerEdge h) a b) as Hrtc.
      { intros a b. split; intros Hab; induction Hab as [|a b c Hab _ IH];
          try done; (eapply rtc_l; [|exact IH]); by apply Hc. }
      split; intros (y & Hy & Hyx); exists y; split;
        try (by apply Hs); by apply Hrtc.
Qed.

(** C7: a resolution that misses the memo takes the unsharded branch when
    the shard-count lookup gives undefined or a count of at most 1, and the
    sharded branch when it gives a count above 1; the lookup gives undefined,
    and the unsharded branch is taken, when no project configuration can be
    loaded and when the configuration has no settings entry under the name of
    the phase. *)
Theorem unsharded_branch_condition context fuel ph pr st :
  mapGet (getOperationKey ph pr) (allOperations st) = None →
  let unsharded :=
    getOrCreateOperations (S fuel) context ph pr st =
      unshardedBranch context (getOrCreateOperations fuel context)
        (getOperationKey ph pr) ph pr [] st in
  ((getShards ph pr = None ∨ ∃ n, getShards ph pr = Some n ∧ (n ≤ 1)%Z) →
   unsharded) ∧
  (∀ n, getShards ph pr = Some n → (1 < n)%Z →
   getOrCreateOperations (S fuel) context ph pr st =
     shardedBranch (getOrCreateOperations fuel context)
       (getOperationKey ph pr) ph pr n st) ∧
  (tryLoadForProjectAsync pr = None → getShards ph pr = None ∧ unsharded) ∧
  (∀ configuration,
     tryLoadForProjectAsync pr = Some configuration →
     operationSettingsByOperationName configuration !! name ph = None →
     getShards ph pr = None ∧ unsharded).
Proof.
  intros Hmiss unsharded.
  assert ((getShards ph pr = None ∨ ∃ n, getShards ph pr = Some n ∧ (n ≤ 1)%Z) →
          unsharded) as Hunsharded.
  { intros Hcond. unfold unsharded. simpl. unfold getOrCreateBody, bind, getMemo.
    rewrite Hmiss.
    destruct Hcond as [->|(n & -> & Hn)]; [done|]. simpl.
    destruct (negb (n =? 0)%Z); simpl; [|done].
    by destruct (Z.ltb_spec 1 n); [lia|]. }
  split_and!.
  - done.
  - intros n Hsh Hn. simpl. unfold getOrCreateBody, bind, getMemo.
    rewrite Hmiss, Hsh. simpl.
    destruct (Z.eqb_spec n 0); [lia|]. simpl.
    by destruct (Z.ltb_spec 1 n); [|lia].
  - intros Hload. assert (getShards ph pr = None) as Hnone.
    { unfold getShards. by rewrite Hload. }
    split; [done|]. apply Hunsharded. by left.
  - intros configuration Hload Hentry. assert (getShards ph pr = None) as Hnone.
    { unfold getShards. by rewrite Hload, Hentry. }
    split; [done|]. apply Hunsharded. by left.
Qed.

(** C8: [a.addDependency(b)] between two Operations of the heap puts [b]
    into the dependency set of [a] and [a] into the consumer set of [b], and
    doing it a second time changes nothing; after a pass, every member of a
    consumer set was a member before the pass or has the owner of the set in
    its dependency set, as only [addDependency] writes consumer sets. *)
Theorem addDependency_bookkeeping
    (g : list Operation) a b fuel existing context h existing' h' :
  a < length g → b < length g →
  createOperations fuel existing context h = Some (existing', h') →
  (∃ opa, addDependencyHeap a b g !! a = Some opa ∧ b ∈ dependencies opa) ∧
  (∃ opb, addDependencyHeap a b g !! b = Some opb ∧ a ∈ consumers opb) ∧
  addDependencyHeap a b (addDependencyHeap a b g) = addDependencyHeap a b g ∧
  (∀ o op c, h' !! o = Some op → c ∈ consumers op →
     (∃ op0, h !! o = Some op0 ∧ c ∈ consumers op0) ∨
     (∃ cop, h' !! c = Some cop ∧ o ∈ dependencies cop)).
Proof.
  intros Ha Hb (st & withWork & Hsel & Hexp & -> & ->)%createOperations_Some.
  destruct (lookup_lt_is_Some_2 _ _ Ha) as [opa Hopa].
  destruct (lookup_lt_is_Some_2 _ _ Hb) as [opb Hopb].
  split_and!.
  - exists (afterEdge a b a opa). rewrite addDependencyHeap_lookup, Hopa.
    split; [done|]. apply afterEdge_dependencies. by right.
  - exists (afterEdge a b b opb). rewrite addDependencyHeap_lookup, Hopb.
    split; [done|]. apply afterEdge_consumers. by right.
  - apply addDependencyHeap_idemp.
  - apply createSelected_Inv in Hsel as [HI _].
    intros o op c (op0 & Hop0 & _ & _ & _ & _ & Hc & _)%finalize_lookup Hin.
    rewrite Hc in Hin.
    destruct (inv_consumers _ _ _ HI o op0 c Hop0 Hin) as [?|(cop & Hcop & Hdep)];
      [by left|right].
    destruct (lookup_lt_is_Some_2 (finalize withWork (allOperations st) (heap st)) c)
      as [cop' Hcop'].
    { rewrite finalize_length. by eapply lookup_lt_Some. }
    exists cop'. split; [done|].
    apply finalize_lookup in Hcop' as (cop0 & Hcop0 & _ & _ & _ & Hd & _).
    rewrite Hd. congruence.
Qed.

End PropagationAndEdges.

(** ** Memo keys *)

Section Keys.
Context `{W : Workspace}.

Lemma key_split a a' b b' :
  hasSeparator a = false → hasSeparator a' = false →
  a +:+ ";" +:+ b = a' +:+ ";" +:+ b' → a = a' ∧ b = b'.
Proof.
  assert (∀ s, "" +:+ s = s) as Hnil by done.
  assert (∀ c s t, String c s +:+ t = String c (s +:+ t)) as Hcons by done.
  revert a'. induction a as [|c a IH]; intros [|c' a'];
    rewrite ?Hcons, ?Hnil; simpl hasSeparator.
  - intros _ _ Heq. by injection Heq as ->.
  - intros _ [Hc _]%orb_false_elim Heq. injection Heq as <- _.
    by rewrite Ascii.eqb_refl in Hc.
  - intros [Hc _]%orb_false_elim _ Heq. injection Heq as -> _.
    by rewrite Ascii.eqb_refl in Hc.
  - intros [_ Ha]%orb_false_elim [_ Ha']%orb_false_elim Heq.
    injection Heq as -> Heq.
    destruct (IH a' Ha Ha' Heq) as [-> ->]. done.
Qed.

(** Unique package names without the separator make the keys identify the
    pairs. *)
Lemma keysIdentifyPairs_of_names :
  (∀ pr pr', packageName pr = packageName pr' → pr = pr') →
  (∀ pr, hasSeparator (packageName pr) = false) →
  keysIdentifyPairs.
Proof.
  intros Hinj Hsep ph pr ph' pr' Hkey. unfold getOperationKey in Hkey.
  apply key_split in Hkey as [Hpr Hname]; [|apply Hsep..].
  split; [by apply Hinj|done].
Qed.
End Keys.

(** ** Construction returns on acyclic data *)

Section Termination.
Context `{W : Workspace}.
Variable context : ICreateOperationsContext.

Lemma total_ret {A} (a : A) : total (ret a).
Proof. intros st. by eexists. Qed.

Lemma total_modify f : total (modify f).
Proof. intros st. by eexists. Qed.

Lemma total_bind {A B} (m : M A) (k : A → M B) :
  total m → (∀ a, total (k a)) → total (bind m k).
Proof.
  intros Hm Hk st. unfold bind. destruct (Hm st) as [[a st1] ->]. apply Hk.
Qed.

Lemma total_forEach {A} (l : list A) body :
  (∀ x, x ∈ l → total (body x)) → total (forEach l body).
Proof.
  induction l as [|x l IH]; intros Hbody; simpl; [apply total_ret|].
  apply total_bind; [apply Hbody, list_elem_of_here|].
  intros _. apply IH. intros y Hy. by apply Hbody, list_elem_of_further.
Qed.

Lemma total_newOperation pr ph sh : total (newOperation pr ph sh).
Proof. intros st. by eexists. Qed.

Lemma total_getMemo key : total (getMemo key).
Proof. intros st. by eexists. Qed.

Lemma total_wire rec target depPhase depProject :
  total (rec depPhase depProject) → total (wire rec target depPhase depProject).
Proof.
  intros Hrec. apply total_bind; [done|]. intros ops.
  apply total_forEach. intros op _. apply total_modify.
Qed.

Lemma total_createShards pr ph n deps dependents indices operations :
  total (createShards pr ph n deps dependents indices operations).
Proof.
  revert operations. induction indices as [|i rest IH]; intros operations; simpl;
    [apply total_ret|].
  apply total_bind; [|intros ?; apply IH].
  unfold createShard. apply total_bind; [apply total_newOperation|]. intros o.
  repeat (apply total_bind; [|intros ?]);
    try apply total_modify; try apply total_ret;
    apply total_forEach; intros ? _; apply total_modify.
Qed.

Lemma total_dependencyLoops ph pr (selfBody : IPhase → M unit)
    (upstreamBody : IPhase → RushConfigurationProject → M unit) {A} (k : M A) :
  (∀ depPhase, depPhase ∈ self ph → total (selfBody depPhase)) →
  (∀ depPhase depProject,
     depPhase ∈ upstream ph → depProject ∈ dependencyProjects pr →
     total (upstreamBody depPhase depProject)) →
  total k →
  total (bind (forEach (self ph) selfBody) (λ _,
    bind (if bool_decide (upstream ph ≠ []) then
            if bool_decide (dependencyProjects pr ≠ []) then
              forEach (upstream ph) (λ depPhase,
                forEach (dependencyProjects pr) (λ dependencyProject,
                  upstreamBody depPhase dependencyProject))
            else ret tt
          else ret tt) (λ _, k))).
Proof.
  intros Hself Hup Hk. apply total_bind; [by apply total_forEach|]. intros _.
  apply total_bind; [|done].
  destruct (bool_decide _); [|apply total_ret].
  destruct (bool_decide _); [|apply total_ret].
  apply total_forEach. intros depPhase Hph.
  apply total_forEach. intros depProject Hpr. by apply Hup.
Qed.

Lemma total_getOrCreateBody rec ph pr :
  (∀ depPhase, depPhase ∈ self ph → total (rec depPhase pr)) →
  (∀ depPhase depProject,
     depPhase ∈ upstream ph → depProject ∈ dependencyProjects pr →
     total (rec depPhase depProject)) →
  total (getOrCreateBody context rec ph pr).
Proof.
  intros Hself Hup. unfold getOrCreateBody.
  apply total_bind; [apply total_getMemo|]. intros [cached|]; [apply total_ret|].
  destruct (shardsAboveOne (getShards ph pr)) as [n|].
  - unfold shardedBranch. apply total_bind.
    { unfold createBoundaries.
      repeat (apply total_bind; [|intros ?]);
        try apply total_newOperation; try apply total_modify; apply total_ret. }
    intros [restore save]. cbn [fst snd].
    apply (total_dependencyLoops ph pr
             (λ depPhase, forEach [restore] (λ dependency, wire rec dependency depPhase pr))
             (λ depPhase dependencyProject,
                forEach [save] (λ dependent, wire rec dependent depPhase dependencyProject))).
    + intros depPhase Hin. apply total_forEach. intros ? _. by apply total_wire, Hself.
    + intros depPhase depProject Hph Hpr. apply total_forEach. intros ? _.
      by apply total_wire, Hup.
    + apply total_bind; [apply total_createShards|]. intros operations.
      apply total_bind; [apply total_modify|]. intros _. apply total_ret.
  - unfold unshardedBranch. apply total_bind.
    { unfold createSingle. apply total_bind; [apply total_newOperation|]. intros o.
      apply total_bind.
      { destruct (outOfScope _ _ _); [apply total_modify|].
        destruct (setHas _ _); [apply total_modify|apply total_ret]. }
      intros _. repeat (apply total_bind; [apply total_modify|intros _]).
      apply total_ret. }
    intros operation.
    apply (total_dependencyLoops ph pr
             (λ depPhase, wire rec operation depPhase pr)
             (λ depPhase dependencyProject, wire rec operation depPhase dependencyProject)).
    + intros depPhase Hin. by apply total_wire, Hself.
    + intros depPhase depProject Hph Hpr. by apply total_wire, Hup.
    + apply total_ret.
Qed.

Lemma total_getOrCreateOperations rank :
  ranked rank →
  ∀ fuel ph pr, rank ph pr < fuel → total (getOrCreateOperations fuel context ph pr).
Proof.
  intros [Hself Hup]. induction fuel as [|fuel IH]; intros ph pr Hlt; [lia|].
  simpl. apply total_getOrCreateBody.
  - intros depPhase Hin. apply IH. specialize (Hself ph pr depPhase Hin). lia.
  - intros depPhase depProject Hph Hpr. apply IH.
    specialize (Hup ph pr depPhase depProject Hph Hpr). lia.
Qed.

(** More fuel returns the same. *)
Lemma refines_refl {A} (m : M A) : refines m m.
Proof. by intros st r. Qed.

Lemma refines_bind {A B} (m m' : M A) (k k' : A → M B) :
  refines m m' → (∀ a, refines (k a) (k' a)) → refines (bind m k) (bind m' k').
Proof.
  intros Hm Hk st [b st'] (a & st1 & H1 & H2)%bind_Some.
  unfold bind. rewrite (Hm _ _ H1). by apply Hk.
Qed.

Lemma refines_forEach {A} (l : list A) body body' :
  (∀ x, refines (body x) (body' x)) → refines (forEach l body) (forEach l body').
Proof.
  intros Hbody. induction l as [|x l IH]; simpl; [apply refines_refl|].
  apply refines_bind; [apply Hbody|by intros _].
Qed.

Lemma refines_wire rec rec' target depPhase depProject :
  (∀ ph pr, refines (rec ph pr) (rec' ph pr)) →
  refines (wire rec target depPhase depProject) (wire rec' target depPhase depProject).
Proof.
  intros Hrec. apply refines_bind; [apply Hrec|]. intros ?. apply refines_refl.
Qed.

Lemma refines_dependencyLoops ph pr (selfBody selfBody' : IPhase → M unit)
    (upstreamBody upstreamBody' : IPhase → RushConfigurationProject → M unit)
    {A} (k : M A) :
  (∀ depPhase, refines (selfBody depPhase) (selfBody' depPhase)) →
  (∀ depPhase depProject,
     refines (upstreamBody depPhase depProject) (upstreamBody' depPhase depProject)) →
  refines
    (bind (forEach (self ph) selfBody) (λ _,
       bind (if bool_decide (upstream ph ≠ []) then
               if bool_decide (dependencyProjects pr ≠ []) then
                 forEach (upstream ph) (λ depPhase,
                   forEach (dependencyProjects pr) (λ dependencyProject,
                     upstreamBody depPhase dependencyProject))
               else ret tt
             else ret tt) (λ _, k)))
    (bind (forEach (self ph) selfBody') (λ _,
       bind (if bool_decide (upstream ph ≠ []) then
               if bool_decide (dependencyProjects pr ≠ []) then
                 forEach (upstream ph) (λ depPhase,
                   forEach (dependencyProjects pr) (λ dependencyProject,
                     upstreamBody' depPhase dependencyProject))
               else ret tt
             else ret tt) (λ _, k))).
Proof.
  intros Hself Hup. apply refines_bind; [by apply refines_forEach|]. intros _.
  apply refines_bind; [|intros _; apply refines_refl].
  destruct (bool_decide _); [|apply refines_refl].
  destruct (bool_decide _); [|apply refines_refl].
  apply refines_forEach. intros depPhase.
  apply refines_forEach. intros depProject. apply Hup.
Qed.

Lemma refines_getOrCreateBody rec rec' ph pr :
  (∀ ph pr, refines (rec ph pr) (rec' ph pr)) →
  refines (getOrCreateBody context rec ph pr) (getOrCreateBody context rec' ph pr).
Proof.
  intros Hrec. unfold getOrCreateBody.
  apply refines_bind; [apply refines_refl|]. intros [cached|]; [apply refines_refl|].
  destruct (shardsAboveOne (getShards ph pr)) as [n|].
  - unfold shardedBranch. apply refines_bind; [apply refines_refl|].
    intros [restore save]. cbn [fst snd].
    apply (refines_dependencyLoops ph pr
             (λ depPhase, forEach [restore] (λ dependency, wire rec dependency depPhase pr))
             (λ depPhase, forEach [restore] (λ dependency, wire rec' dependency depPhase pr))
             (λ depPhase dependencyProject,
                forEach [save] (λ dependent, wire rec dependent depPhase dependencyProject))
             (λ depPhase dependencyProject,
                forEach [save] (λ dependent, wire rec' dependent depPhase dependencyProject))).
    + intros depPhase. apply refines_forEach. intros ?. by apply refines_wire.
    + intros depPhase depProject. apply refines_forEach. intros ?. by apply refines_wire.
  - unfold unshardedBranch. apply refines_bind; [apply refines_refl|].
    intros operation.
    apply (refines_dependencyLoops ph pr
             (λ depPhase, wire rec operation depPhase pr)
             (λ depPhase, wire rec' operation depPhase pr)
             (λ depPhase dependencyProject, wire rec operation depPhase dependencyProject)
             (λ depPhase dependencyProject, wire rec' operation depPhase dependencyProject)).
    + intros depPhase. by apply refines_wire.
    + intros depPhase depProject. by apply refines_wire.
Qed.

Lemma getOrCreateOperations_more_fuel fuel : ∀ fuel' ph pr,
  fuel ≤ fuel' →
  refines (getOrCreateOperations fuel context ph pr)
          (getOrCreateOperations fuel' context ph pr).
Proof.
  induction fuel as [|fuel IH]; intros fuel' ph pr Hle; [by intros st r|].
  destruct fuel' as [|fuel']; [lia|]. simpl.
  apply refines_getOrCreateBody. intros ph' pr'. apply IH. lia.
Qed.

Lemma createSelected_more_fuel fuel fuel' :
  fuel ≤ fuel' →
  refines (createSelected fuel context) (createSelected fuel' context).
Proof.
  intros Hle. unfold createSelected.
  apply refines_forEach. intros ph. apply refines_forEach. intros pr.
  apply refines_bind; [by apply getOrCreateOperations_more_fuel|].
  intros ?. apply refines_refl.
Qed.

Lemma total_createSelected rank fuel :
  ranked rank →
  (∀ ph pr, ph ∈ phaseOriginal context → pr ∈ projectSelection context →
            rank ph pr < fuel) →
  total (createSelected fuel context).
Proof.
  intros Hrank Hfuel. unfold createSelected.
  apply total_forEach. intros ph Hph. apply total_forEach. intros pr Hpr.
  apply total_bind; [|intros ?; apply total_ret].
  eapply total_getOrCreateOperations; [done|]. by apply Hfuel.
Qed.

Lemma expandConsumers_more_fuel (h : list Operation) fuel : ∀ fuel' i s r,
  fuel ≤ fuel' →
  expandConsumers fuel h i s = Some r → expandConsumers fuel' h i s = Some r.
Proof.
  induction fuel as [|fuel IH]; intros fuel' i s r Hle Hrun; [done|].
  destruct fuel' as [|fuel']; [lia|]. simpl in *.
  destruct (s !! i); [|done]. apply IH; [lia|done].
Qed.

Lemma bound_exists {X} (g : X → nat) (l : list X) :
  ∃ b, ∀ x, x ∈ l → g x < b.
Proof.
  induction l as [|x l [b Hb]].
  - exists 0. by intros x ?%elem_of_nil.
  - exists (S (g x `max` b)). intros y [->|Hy]%elem_of_cons; [lia|].
    specialize (Hb y Hy). lia.
Qed.

(** X1 (lines 31-75 and 77-216).  On acyclic phase and project data, that
    is when a measure decreases along the self dependencies and along the
    upstream dependencies, construction returns, and with the same result for
    any larger fuel. *)
Theorem createOperations_returns rank existing h :
  ranked rank →
  ∃ fuel0 result, ∀ fuel,
    fuel0 ≤ fuel → createOperations fuel existing context h = Some result.
Proof.
  intros Hrank.
  destruct (bound_exists (λ p, rank p.1 p.2)
              (ph ← phaseOriginal context; pr ← projectSelection context; [(ph, pr)]))
    as [f1 Hf1].
  assert (∀ ph pr, ph ∈ phaseOriginal context → pr ∈ projectSelection context →
                   rank ph pr < f1) as Hsel.
  { intros ph pr Hph Hpr. apply (Hf1 (ph, pr)).
    apply list_elem_of_bind. exists ph. split; [|done].
    apply list_elem_of_bind. exists pr. split; [|done]. apply list_elem_of_here. }
  destruct (total_createSelected rank f1 Hrank Hsel (initialState existing h))
    as [[[] st] Hst].
  destruct (createSelected_Inv context h f1 existing _ _ Hst) as [HI _].
  set (f2 := S (length (operationsWithWork st ++ allConsumers (heap st)))).
  destruct (expandConsumers_returns (heap st) (operationsWithWork st) f2 0
              (operationsWithWork st)) as [withWork Hww].
  { apply (inv_nodup _ _ _ HI). }
  { intros x Hx. apply elem_of_app. by left. }
  { lia. }
  { unfold f2. lia. }
  exists (f1 `max` f2), (existingOperations st, finalize withWork (allOperations st) (heap st)).
  intros fuel Hfuel. apply createOperations_of_parts.
  - eapply createSelected_more_fuel; [|exact Hst]. lia.
  - eapply expandConsumers_more_fuel; [|exact Hww]. lia.
Qed.

End Termination.

(** ** The list a resolution returns *)

Section Returned.
Context `{W : Workspace}.
Variable context : ICreateOperationsContext.

(** Lines 82-84 and 215: a memoised key is answered from the memo and
    nothing changes. *)
Lemma getOrCreateOperations_hit fuel ph pr st operations :
  mapGet (getOperationKey ph pr) (allOperations st) = Some operations →
  getOrCreateOperations (S fuel) context ph pr st = Some (operations, st).
Proof.
  intros Hhit. simpl. unfold getOrCreateBody, bind, getMemo. by rewrite Hhit.
Qed.

(** Lines 173-215: the unsharded branch hands back the array it was given. *)
Lemma unshardedBranch_returns_argument rec key ph pr operations st l st' :
  unshardedBranch context rec key ph pr operations st = Some (l, st') →
  l = operations.
Proof.
  intros Hrun. unfold unshardedBranch in Hrun. by do 4 run_step Hrun.
Qed.

(** Lines 85 and 215: the first resolution of an unsharded pair returns the
    empty list. *)
Lemma first_unsharded_resolution_is_empty fuel ph pr st l st' :
  mapGet (getOperationKey ph pr) (allOperations st) = None →
  shardsAboveOne (getShards ph pr) = None →
  getOrCreateOperations (S fuel) context ph pr st = Some (l, st') →
  l = [].
Proof.
  intros Hmiss Hun. simpl. unfold getOrCreateBody, bind at 1, getMemo.
  rewrite Hmiss, Hun. apply unshardedBranch_returns_argument.
Qed.

End Returned.

Section BlockEffects.
Context `{W : Workspace}.
Variable context : ICreateOperationsContext.

Lemma createSingle_effect key ph pr st :
  createSingle context key ph pr st
    = Some (length (heap st), afterSingle context key ph pr st).
Proof.
  unfold createSingle, afterSingle, singleOperation, bind, newOperation,
    setRunner, addWork, setMemo, addExisting, modify, ret.
  destruct (outOfScope context ph pr).
  - unfold stExisting, stMemo, stHeap, stAlloc.
    cbn [heap existingOperations operationsWithWork allOperations].
    by rewrite alter_last.
  - by destruct (setHas pr (projectsInUnknownState context)).
Qed.

Lemma createBoundaries_effect ph pr st :
  createBoundaries ph pr st
    = Some ((length (heap st), S (length (heap st))), afterBoundaries ph pr st).
Proof.
  unfold createBoundaries, afterBoundaries, restoreOperation, saveOperation,
    bind, newOperation, setRunner, addWork, addExisting, modify, ret.
  unfold stExisting, stWork, stHeap, stAlloc.
  cbn [heap existingOperations operationsWithWork allOperations].
  rewrite alter_last, alter_last.
  assert (length (heap st ++ [withRunner (LiteralRunner (sharedConfig "buildCacheRestore"))
                                (blankOperation pr ph None)]) = S (length (heap st))) as ->.
  { rewrite length_app. simpl. lia. }
  done.
Qed.

Lemma createShard_effect ph pr n restore save shardNo st :
  createShard pr ph n [restore] [save] shardNo st
    = Some (length (heap st), afterShard ph pr n restore save shardNo st).
Proof. reflexivity. Qed.

End BlockEffects.

(** ** A proof rule for resolutions *)

Section Rule.
Context `{W : Workspace}.
Variable context : ICreateOperationsContext.
Variable I : PassState → Prop.
(** [T] holds of the operations a resolution creates to wire, [U] of the
    operations it returns. *)
Variables T U : nat → Prop.
Local Abbreviation listed := (listed U).
Local Abbreviation kept := (kept I U).

Hypothesis single_step : ∀ ph pr st,
  I st → listed st →
  mapGet (getOperationKey ph pr) (allOperations st) = None →
  shardsAboveOne (getShards ph pr) = None →
  I (afterSingle context (getOperationKey ph pr) ph pr st) ∧
  T (length (heap st)) ∧ U (length (heap st)).

Hypothesis boundaries_step : ∀ ph pr n st,
  I st → listed st →
  mapGet (getOperationKey ph pr) (allOperations st) = None →
  shardsAboveOne (getShards ph pr) = Some n →
  I (afterBoundaries ph pr st) ∧
  T (length (heap st)) ∧ T (S (length (heap st))) ∧
  U (length (heap st)) ∧ U (S (length (heap st))).

Hypothesis shard_step : ∀ ph pr n restore save shardNo st,
  I st → listed st →
  restore < length (heap st) → save < length (heap st) →
  T restore → T save →
  I (afterShard ph pr n restore save shardNo st) ∧ U (length (heap st)).

Hypothesis edge_step : ∀ a b st,
  I st → listed st → a < length (heap st) → b < length (heap st) →
  T a → U b →
  I (stHeap (addDependencyHeap a b) st).

Hypothesis memo_step : ∀ ph pr n l st0 st,
  I st0 → mapGet (getOperationKey ph pr) (allOperations st0) = None →
  shardsAboveOne (getShards ph pr) = Some n →
  I st → listed st → length (heap st0) ≤ length (heap st) →
  (∀ o, o ∈ l → o < length (heap st) ∧ U o) →
  I (stMemo (getOperationKey ph pr) l st).

Lemma listed_longer st st' :
  allOperations st' = allOperations st →
  length (heap st) ≤ length (heap st') →
  listed st → listed st'.
Proof.
  intros Hmemo Hlen Hl k l o Hk Ho. rewrite Hmemo in Hk.
  destruct (Hl k l o Hk Ho). split; [lia|done].
Qed.

Lemma listed_memo key ops st :
  (∀ o, o ∈ ops → o < length (heap st) ∧ U o) →
  listed st → listed (stMemo key ops st).
Proof.
  intros Hops Hl k l o. simpl. destruct (decide (key = k)) as [->|Hne].
  - rewrite mapGet_mapSet_eq. intros [= <-]. apply Hops.
  - rewrite mapGet_mapSet_ne by done. apply Hl.
Qed.

Lemma length_afterShard ph pr n restore save shardNo st :
  length (heap (afterShard ph pr n restore save shardNo st)) = S (length (heap st)).
Proof. simpl. rewrite !length_addDependencyHeap, length_app. simpl. lia. Qed.

Lemma length_afterBoundaries ph pr st :
  length (heap (afterBoundaries ph pr st)) = S (S (length (heap st))).
Proof. simpl. rewrite !length_app. simpl. lia. Qed.

Lemma length_afterSingle key ph pr st :
  length (heap (afterSingle context key ph pr st)) = S (length (heap st)).
Proof. simpl. rewrite !length_app. simpl. lia. Qed.

Section Step.
Variable rec : IPhase → RushConfigurationProject → M (list nat).
Hypothesis Hrec : keeps I U rec.

Lemma wire_kept base target depPhase depProject st u st' :
  kept base st → target < length (heap base) → T target →
  wire rec target depPhase depProject st = Some (u, st') →
  kept base st'.
Proof.
  intros (HI & Hl & Hlen) Ht HT Hrun. unfold wire in Hrun. run_step Hrun.
  destruct (Hrec _ _ _ _ _ HI Hl Hrun0) as (HI1 & Hl1 & Hlen1 & Hvalid).
  cut (kept base st' ∧ length (heap st') = length (heap s)); [tauto|].
  apply (forEach_invariant
           (λ x, kept base x ∧ length (heap x) = length (heap s)) _ _ _ _ _ Hrun).
  - split; [|done]. split_and!; [done..|lia].
  - intros op s1 s2 Hop [(HI2 & Hl2 & Hlen2) Heq] Hstep. run_prim Hstep.
    destruct (Hvalid op Hop) as [Hlt HU].
    split; [split_and!|].
    + apply edge_step; [done..|lia|lia|done|done].
    + eapply listed_longer; [| |exact Hl2]; [done|].
      simpl. by rewrite length_addDependencyHeap.
    + simpl. rewrite length_addDependencyHeap. lia.
    + simpl. rewrite length_addDependencyHeap. lia.
Qed.

Lemma wireAll_kept base (targets : list nat) depPhase depProject st u st' :
  kept base st → (∀ t, t ∈ targets → t < length (heap base) ∧ T t) →
  forEach targets (λ t, wire rec t depPhase depProject) st = Some (u, st') →
  kept base st'.
Proof.
  intros Hs Ht Hrun. apply (forEach_invariant (kept base) _ _ _ _ _ Hrun Hs).
  intros t s1 s2 Hin Hs1 Hstep. destruct (Ht t Hin).
  eapply wire_kept; eauto.
Qed.

Lemma dependencyLoops_kept base ph pr (selfBody : IPhase → M unit)
    (upstreamBody : IPhase → RushConfigurationProject → M unit) st u u' s st' :
  (∀ depPhase s1 s2,
     kept base s1 → selfBody depPhase s1 = Some (tt, s2) → kept base s2) →
  (∀ depPhase depProject s1 s2,
     kept base s1 → upstreamBody depPhase depProject s1 = Some (tt, s2) →
     kept base s2) →
  kept base st →
  forEach (self ph) selfBody st = Some (u, s) →
  (if bool_decide (upstream ph ≠ []) then
     if bool_decide (dependencyProjects pr ≠ []) then
       forEach (upstream ph) (λ depPhase,
         forEach (dependencyProjects pr) (λ dependencyProject,
           upstreamBody depPhase dependencyProject))
     else ret tt
   else ret tt) s = Some (u', st') →
  kept base st'.
Proof.
  intros Hself Hup Hs Hrun1 Hrun2.
  assert (kept base s) as Hs1.
  { apply (forEach_invariant (kept base) _ _ _ _ _ Hrun1 Hs).
    intros depPhase s1 s2 _. apply Hself. }
  destruct (bool_decide (upstream ph ≠ [])); [|by run_prim Hrun2].
  destruct (bool_decide (dependencyProjects pr ≠ [])); [|by run_prim Hrun2].
  apply (forEach_invariant (kept base) _ _ _ _ _ Hrun2 Hs1).
  intros depPhase s1 s2 _ Hs2 Hrun3.
  apply (forEach_invariant (kept base) _ _ _ _ _ Hrun3 Hs2).
  intros depProject s3 s4 _. apply Hup.
Qed.

Lemma createShards_kept ph pr n restore save base : ∀ indices operations st l st',
  kept base st →
  restore < length (heap base) → save < length (heap base) →
  T restore → T save →
  (∀ o, o ∈ operations → o < length (heap st) ∧ U o) →
  createShards pr ph n [restore] [save] indices operations st = Some (l, st') →
  kept base st' ∧ ∀ o, o ∈ l → o < length (heap st') ∧ U o.
Proof.
  induction indices as [|shardNo rest IH];
    intros operations st l st' (HI & Hl & Hlen) Hr Hs HTr HTs Hops Hrun;
    simpl in Hrun.
  - run_prim Hrun. by split.
  - run_step Hrun. rewrite createShard_effect in Hrun0.
    injection Hrun0 as <- <-.
    destruct (shard_step ph pr n restore save shardNo st HI Hl) as [HI1 HU];
      [lia|lia|done|done|].
    eapply IH; [|done..| |exact Hrun].
    + split_and!; [done| |rewrite length_afterShard; lia].
      eapply listed_longer; [| |exact Hl]; [done|].
      rewrite length_afterShard. lia.
    + rewrite length_afterShard.
      intros o [Ho| ->%list_elem_of_singleton]%elem_of_app.
      * destruct (Hops o Ho). split; [lia|done].
      * split; [lia|done].
Qed.

Lemma getOrCreateBody_keeps : keeps I U (getOrCreateBody context rec).
Proof.
  intros ph pr st l st' HI Hl Hrun. unfold getOrCreateBody in Hrun.
  run_step Hrun.
  destruct (mapGet (getOperationKey ph pr) (allOperations st)) as [cached|] eqn:Hmemo.
  { run_prim Hrun. split_and!; [done..|]. intros o Ho. by eapply Hl. }
  destruct (shardsAboveOne (getShards ph pr)) as [n|] eqn:Hsh.
  - unfold shardedBranch in Hrun. run_step Hrun.
    rewrite createBoundaries_effect in Hrun0. injection Hrun0 as <- <-.
    cbn [fst snd] in Hrun. do 5 run_step Hrun.
    destruct (boundaries_step ph pr n st HI Hl Hmemo Hsh)
      as (HI1 & HTr & HTs & HUr & HUs).
    pose proof (length_afterBoundaries ph pr st) as Hlen.
    assert (kept (afterBoundaries ph pr st) (afterBoundaries ph pr st)) as Hk0.
    { split_and!; [done| |done].
      eapply listed_longer; [| |exact Hl]; [done|lia]. }
    assert (kept (afterBoundaries ph pr st) s0) as Hs1.
    { eapply (dependencyLoops_kept _ ph pr); [| |exact Hk0|exact Hrun0|exact Hrun1].
      - intros depPhase s3 s4 Hs3 Hrun. eapply wireAll_kept; [exact Hs3| |exact Hrun].
        intros t ->%list_elem_of_singleton. split; [lia|done].
      - intros depPhase depProject s3 s4 Hs3 Hrun.
        eapply wireAll_kept; [exact Hs3| |exact Hrun].
        intros t ->%list_elem_of_singleton. split; [lia|done]. }
    assert (∀ o, o ∈ [length (heap st)] ++ [S (length (heap st))] →
                 o < length (heap s0) ∧ U o) as Hops.
    { destruct Hs1 as (_ & _ & Hle).
      intros o [->%list_elem_of_singleton| ->%list_elem_of_singleton]%elem_of_app;
        (split; [lia|done]). }
    assert (length (heap st) < length (heap (afterBoundaries ph pr st))) as Hr by lia.
    assert (S (length (heap st)) < length (heap (afterBoundaries ph pr st))) as Hs by lia.
    destruct (createShards_kept ph pr n (length (heap st)) (S (length (heap st)))
                (afterBoundaries ph pr st) _ _ _ _ _ Hs1 Hr Hs HTr HTs Hops Hrun2)
      as [(HI2 & Hl2 & Hlen2) Hvalid].
    split_and!.
    + apply (memo_step ph pr n _ st _ HI Hmemo Hsh HI2 Hl2); [|done].
      rewrite Hlen in Hlen2. lia.
    + by apply listed_memo.
    + simpl. lia.
    + done.
  - unfold unshardedBranch in Hrun. do 4 run_step Hrun.
    rewrite createSingle_effect in Hrun0. injection Hrun0 as <- <-.
    destruct (single_step ph pr st HI Hl Hmemo Hsh) as (HI1 & HTo & HUo).
    pose proof (length_afterSingle (getOperationKey ph pr) ph pr st) as Hlen.
    set (s0' := afterSingle context (getOperationKey ph pr) ph pr st) in *.
    assert (kept s0' s0') as Hk0.
    { split_and!; [done| |done].
      intros k l o. unfold s0'. simpl.
      destruct (decide (getOperationKey ph pr = k)) as [<-|Hne].
      - rewrite mapGet_mapSet_eq. intros [= <-] ->%list_elem_of_singleton.
        rewrite length_app. simpl. split; [lia|done].
      - rewrite mapGet_mapSet_ne by done. intros Hk Ho.
        destruct (Hl k l o Hk Ho). rewrite length_app. split; [lia|done]. }
    assert (kept s0' s1) as (HI2 & Hl2 & Hlen2).
    { eapply (dependencyLoops_kept s0' ph pr); [| |exact Hk0|exact Hrun1|exact Hrun2].
      - intros depPhase s3 s4 Hs3 Hrun. eapply wire_kept; [exact Hs3| |done|exact Hrun].
        lia.
      - intros depPhase depProject s3 s4 Hs3 Hrun.
        eapply wire_kept; [exact Hs3| |done|exact Hrun]. lia. }
    split_and!; [done|done|lia|]. by intros o ?%elem_of_nil.
Qed.

End Step.

Theorem getOrCreateOperations_keeps fuel :
  keeps I U (getOrCreateOperations fuel context).
Proof.
  induction fuel as [|fuel IH]; [by intros ph pr st l st' _ _ ?|].
  simpl. by apply getOrCreateBody_keeps.
Qed.

End Rule.

Lemma createSelected_keeps `{W : Workspace} context (I : PassState → Prop)
    (U : nat → Prop) fuel st u st' :
  keeps I U (getOrCreateOperations fuel context) →
  I st → listed U st →
  createSelected fuel context st = Some (u, st') →
  I st' ∧ listed U st' ∧ length (heap st) ≤ length (heap st').
Proof.
  intros Hkeeps HI Hl Hrun. unfold createSelected in Hrun.
  apply (forEach_invariant (kept I U st) _ _ _ _ _ Hrun); [by split_and!|].
  intros ph s1 s2 _ Hs1 Hrun1.
  apply (forEach_invariant (kept I U st) _ _ _ _ _ Hrun1 Hs1).
  intros pr s3 s4 _ (HI3 & Hl3 & Hlen3) Hrun2. run_step Hrun2. run_prim Hrun2.
  destruct (Hkeeps _ _ _ _ _ HI3 Hl3 Hrun0) as (? & ? & ? & _).
  split_and!; [done..|lia].
Qed.

(** ** Resolutions only add *)

Section Stable.
Context `{W : Workspace}.
Variable context : ICreateOperationsContext.
Implicit Types (st base : PassState).

Lemma stableSince_refl st : stableSince st st.
Proof.
  split_and!; try done. intros o op Hop. exists op. by split_and!.
Qed.

Lemma stableSince_length base st :
  stableSince base st → length (heap base) ≤ length (heap st).
Proof.
  intros [Hops _]. destruct (decide (length (heap base) = 0)) as [|Hne]; [lia|].
  destruct (lookup_lt_is_Some_2 (heap base) (pred (length (heap base))))
    as [op Hop]; [lia|].
  destruct (Hops _ _ Hop) as (op' & Hop' & _). apply lookup_lt_Some in Hop'. lia.
Qed.

Lemma stableSince_trans st1 st2 st3 :
  stableSince st1 st2 → stableSince st2 st3 → stableSince st1 st3.
Proof.
  intros (Ho1 & He1 & Hw1 & Hm1) (Ho2 & He2 & Hw2 & Hm2). split_and!.
  - intros o op Hop.
    destruct (Ho1 o op Hop) as (op1 & Hop1 & ? & ? & ? & ? & ? & ?).
    destruct (Ho2 o op1 Hop1) as (op2 & Hop2 & ? & ? & ? & ? & ? & ?).
    exists op2. split_and!; try congruence. by etrans.
  - by etrans.
  - by etrans.
  - auto.
Qed.

(** A state that extends the heap at its end and the sets. *)
Lemma stableSince_extend base st st' news :
  stableSince base st →
  heap st' = heap st ++ news →
  existingOperations st ⊆ existingOperations st' →
  operationsWithWork st ⊆ operationsWithWork st' →
  (∀ k v, mapGet k (allOperations base) = Some v →
          mapGet k (allOperations st') = Some v) →
  stableSince base st'.
Proof.
  intros (Ho & He & Hw & Hm) Hheap He' Hw' Hm'. split_and!; [|by etrans..|done].
  intros o op Hop. destruct (Ho o op Hop) as (op' & Hop' & Hrest).
  exists op'. split; [|done]. rewrite Hheap. by apply lookup_app_l_Some.
Qed.

Lemma stableSince_edge base a b st :
  stableSince base st → length (heap base) ≤ a →
  stableSince base (stHeap (addDependencyHeap a b) st).
Proof.
  intros (Ho & He & Hw & Hm) Ha. split_and!; try done.
  intros o op Hop. destruct (Ho o op Hop) as (op' & Hop' & ? & ? & ? & ? & Hd & Hc).
  exists (afterEdge a b o op'). simpl. rewrite addDependencyHeap_lookup, Hop'.
  destruct (afterEdge_core a b o op') as (-> & -> & -> & ->).
  split_and!; try done.
  - apply lookup_lt_Some in Hop. unfold afterEdge.
    rewrite (decide_False (P := a = o)) by lia. simpl.
    by destruct (decide (b = o)).
  - intros x Hx. apply afterEdge_consumers. left. by apply Hc.
Qed.

Lemma resolution_stable fuel :
  ∀ base, keeps (stableSince base) (λ _, True) (getOrCreateOperations fuel context).
Proof.
  intros base.
  apply (getOrCreateOperations_keeps context (stableSince base)
           (λ o, length (heap base) ≤ o) (λ _, True)).
  - intros ph pr st HI _ Hmiss _. split_and!; [|by apply stableSince_length|done].
    eapply (stableSince_extend base st); [done|done|apply setAdd_incl| |].
    + simpl. destruct (outOfScope context ph pr); [done|].
      destruct (setHas pr _); [apply setAdd_incl|done].
    + intros k v Hk. simpl. rewrite mapGet_mapSet_ne; [by apply HI|].
      intros <-. apply HI in Hk. congruence.
  - intros ph pr n st HI _ Hmiss _.
    pose proof (stableSince_length _ _ HI). split_and!; [|lia|lia|done|done].
    eapply (stableSince_extend base st _ [restoreOperation ph pr; saveOperation ph pr]);
      [done|simpl; by rewrite <-app_assoc| | |apply HI].
    + simpl. intros x. rewrite !elem_of_setAdd. tauto.
    + simpl. intros x. rewrite !elem_of_setAdd. tauto.
  - intros ph pr n restore save shardNo st HI _ _ _ _ HTs. split; [|done].
    pose proof (stableSince_length _ _ HI).
    apply (stableSince_edge base save (length (heap st))
             (stHeap (addDependencyHeap (length (heap st)) restore)
                {| heap := heap st ++ [blankOperation pr ph (Some (shardNo, n))];
                   existingOperations := setAdd (length (heap st)) (existingOperations st);
                   operationsWithWork := setAdd (length (heap st)) (operationsWithWork st);
                   allOperations := allOperations st |})); [|done].
    apply stableSince_edge; [|done].
    eapply (stableSince_extend base st); [done|done|apply setAdd_incl..|apply HI].
  - intros a b st HI _ _ _ HT _. by apply stableSince_edge.
  - intros ph pr n l st0 st HI0 Hmiss _ (Ho & He & Hw & Hm) _ _ _.
    split_and!; try done. intros k v Hk. simpl.
    rewrite mapGet_mapSet_ne; [by apply Hm|].
    intros <-. apply HI0 in Hk. congruence.
Qed.

End Stable.

Section MapKeys.
Context {V : Type}.
Implicit Types (m : list (string * V)).

Lemma mapSet_keys k v m :
  (mapSet k v m).*1 = if decide (k ∈ m.*1) then m.*1 else m.*1 ++ [k].
Proof.
  induction m as [|[k' v'] m IH]; [done|]. cbn [mapSet].
  destruct (decide (k = k')) as [->|Hne]; rewrite !fmap_cons; cbn [fst].
  - rewrite decide_True; [done|]. apply elem_of_cons. by left.
  - rewrite IH. destruct (decide (k ∈ m.*1)) as [Hin|Hnin].
    + rewrite decide_True; [done|]. apply elem_of_cons. by right.
    + rewrite decide_False; [done|]. rewrite elem_of_cons. tauto.
Qed.

Lemma mapSet_keys_NoDup k v m : NoDup m.*1 → NoDup (mapSet k v m).*1.
Proof.
  intros Hnd. rewrite mapSet_keys. case_decide; [done|].
  apply NoDup_app. split_and!; [done| |apply NoDup_singleton].
  intros x Hx ->%list_elem_of_singleton. done.
Qed.

Lemma mapGet_of_elem k v m : NoDup m.*1 → (k, v) ∈ m → mapGet k m = Some v.
Proof.
  induction m as [|[k' v'] m IH]; simpl; intros Hnd Hin.
  - by apply elem_of_nil in Hin.
  - apply NoDup_cons in Hnd as [Hk Hnd].
    apply elem_of_cons in Hin as [[= <- <-]|Hin].
    + by rewrite decide_True.
    + rewrite decide_False; [by apply IH|].
      intros <-. apply Hk. apply list_elem_of_fmap. by exists (k, v).
Qed.
End MapKeys.

Section FinalizeMore.
Context `{W : Workspace}.
Variable withWork : list nat.
Implicit Types (h : list Operation) (memo : list (string * list nat)).

(** Finalization as a sequence of marks, each of an operation of an entry. *)
Lemma finalize_steps_in (P : list Operation → Prop) memo h :
  P h →
  (∀ key ops o h', (key, ops) ∈ memo → o ∈ ops → P h' → P (mark withWork key h' o)) →
  P (finalize withWork memo h).
Proof.
  unfold finalize. revert h.
  induction memo as [|[key ops] memo IH]; intros h Hh Hstep; simpl; [done|].
  apply IH.
  - unfold finalizeEntry. simpl.
    assert (∀ o, o ∈ ops → ∀ h', P h' → P (mark withWork key h' o)) as Hops.
    { intros o Ho h'. apply (Hstep key ops); [|done]. apply elem_of_cons. by left. }
    clear IH Hstep. revert h Hh.
    induction ops as [|o ops IH]; intros h Hh; simpl; [done|].
    apply IH.
    + intros o' Ho'. apply Hops. apply elem_of_cons. by right.
    + apply Hops; [|done]. apply elem_of_cons. by left.
  - intros key' ops' o h' Hin. apply Hstep. apply elem_of_cons. by right.
Qed.

Lemma finalize_untouched memo h o :
  (∀ key ops, (key, ops) ∈ memo → o ∉ ops) →
  finalize withWork memo h !! o = h !! o.
Proof.
  intros Hnot. apply (finalize_steps_in (λ h', h' !! o = h !! o)); [done|].
  intros key ops o' h' Hin Ho' <-. rewrite mark_lookup.
  rewrite decide_False; [done|]. intros [_ ->]. by apply (Hnot key ops).
Qed.

Lemma finalize_lookup_total memo h o op :
  h !! o = Some op →
  ∃ op', finalize withWork memo h !! o = Some op' ∧ finalized withWork o op op'.
Proof.
  intros Hop.
  destruct (lookup_lt_is_Some_2 (finalize withWork memo h) o) as [op' Hop'].
  { rewrite finalize_length. by eapply lookup_lt_Some. }
  exists op'. split; [done|].
  apply finalize_lookup in Hop' as (op1 & Hop1 & Hfin). congruence.
Qed.

End FinalizeMore.

Section Frame.
Context `{W : Workspace}.
Variable context : ICreateOperationsContext.

Lemma prefix_of_lookups {A} (h h' : list A) :
  (∀ o op, h !! o = Some op → h' !! o = Some op) → h' = h ++ drop (length h) h'.
Proof.
  intros Hl. rewrite <-(take_drop (length h) h') at 1. f_equal.
  apply list_eq. intros i. destruct (decide (i < length h)) as [Hlt|Hge].
  - rewrite lookup_take_lt by done.
    destruct (lookup_lt_is_Some_2 h i Hlt) as [op Hop]. rewrite Hop. by apply Hl.
  - rewrite lookup_take_ge by lia. symmetry. apply lookup_ge_None. lia.
Qed.

Lemma framed_length h0 st : framed h0 st → length h0 ≤ length (heap st).
Proof.
  intros [Hops _]. destruct (decide (length h0 = 0)) as [|Hne]; [lia|].
  destruct (lookup_lt_is_Some_2 h0 (pred (length h0))) as [op Hop]; [lia|].
  apply Hops, lookup_lt_Some in Hop. lia.
Qed.

Lemma framed_edge h0 a b st :
  framed h0 st → length h0 ≤ a → length h0 ≤ b →
  framed h0 (stHeap (addDependencyHeap a b) st).
Proof.
  intros [Hops Hnd] Ha Hb. split; [|done]. intros o op Hop. simpl.
  rewrite addDependencyHeap_lookup, (Hops _ _ Hop). simpl.
  apply lookup_lt_Some in Hop. unfold afterEdge.
  rewrite (decide_False (P := a = o)), (decide_False (P := b = o)) by lia. done.
Qed.

Lemma resolution_framed h0 fuel :
  keeps (framed h0) (λ o, length h0 ≤ o) (getOrCreateOperations fuel context).
Proof.
  apply (getOrCreateOperations_keeps context (framed h0)
           (λ o, length h0 ≤ o) (λ o, length h0 ≤ o)).
  - intros ph pr st HI _ _ _. pose proof (framed_length _ _ HI).
    split_and!; [|done..]. destruct HI as [Hops Hnd]. split.
    + intros o op Hop. simpl. apply lookup_app_l_Some. by apply Hops.
    + simpl. by apply mapSet_keys_NoDup.
  - intros ph pr n st HI _ _ _. pose proof (framed_length _ _ HI).
    split_and!; [|lia..]. destruct HI as [Hops Hnd]. split; [|done].
    intros o op Hop. simpl. do 2 apply lookup_app_l_Some. by apply Hops.
  - intros ph pr n restore save shardNo st HI _ _ _ HTr HTs.
    pose proof (framed_length _ _ HI). split; [|done].
    apply (framed_edge h0 save (length (heap st))
             (stHeap (addDependencyHeap (length (heap st)) restore)
                {| heap := heap st ++ [blankOperation pr ph (Some (shardNo, n))];
                   existingOperations := setAdd (length (heap st)) (existingOperations st);
                   operationsWithWork := setAdd (length (heap st)) (operationsWithWork st);
                   allOperations := allOperations st |})); [|done..].
    apply framed_edge; [|done..]. destruct HI as [Hops Hnd]. split; [|done].
    intros o op Hop. simpl. apply lookup_app_l_Some. by apply Hops.
  - intros a b st HI _ _ _ HTa HUb. by apply framed_edge.
  - intros ph pr n l st0 st _ _ _ [Hops Hnd] _ _ _. split; [done|].
    simpl. by apply mapSet_keys_NoDup.
Qed.

Lemma pass_framed fuel existing h existing' h' :
  createOperations fuel existing context h = Some (existing', h') →
  ∀ o op, h !! o = Some op → h' !! o = Some op.
Proof.
  intros Hrun o op Hop.
  apply createOperations_Some in Hrun as (st & withWork & Hsel & _ & _ & ->).
  assert (framed h (initialState existing h)) as HI0.
  { split; [done|]. simpl. constructor. }
  assert (listed (λ o, length h ≤ o) (initialState existing h)) as Hl0.
  { by intros k l o' ?. }
  destruct (createSelected_keeps context (framed h) (λ o, length h ≤ o)
              fuel _ _ _ (resolution_framed h fuel) HI0 Hl0 Hsel)
    as ([Hops Hnd] & Hlisted & _).
  rewrite finalize_untouched; [by apply Hops|].
  intros key ops Hin Ho. apply (mapGet_of_elem _ _ _ Hnd) in Hin.
  destruct (Hlisted _ _ _ Hin Ho) as [_ Hge]. apply lookup_lt_Some in Hop. lia.
Qed.

End Frame.

Section Linked.
Context `{W : Workspace}.
Variable context : ICreateOperationsContext.
Implicit Types (h : list Operation).

Lemma linked_alloc h op :
  linked h → dependencies op = [] → consumers op = [] → linked (h ++ [op]).
Proof.
  intros Hl Hd Hc a b. unfold dependsOn, consumedBy. split.
  - intros (opa & Hopa & Hin). apply lookup_snoc_Some in Hopa as [Hopa|[_ ->]].
    + destruct (proj1 (Hl a b)) as (opb & Hopb & Hin'); [by exists opa|].
      exists opb. split; [by apply lookup_app_l_Some|done].
    + rewrite Hd in Hin. by apply elem_of_nil in Hin.
  - intros (opb & Hopb & Hin). apply lookup_snoc_Some in Hopb as [Hopb|[_ ->]].
    + destruct (proj2 (Hl a b)) as (opa & Hopa & Hin'); [by exists opb|].
      exists opa. split; [by apply lookup_app_l_Some|done].
    + rewrite Hc in Hin. by apply elem_of_nil in Hin.
Qed.

Lemma dependsOn_edge a b h x y :
  a < length h →
  dependsOn (addDependencyHeap a b h) x y ↔ dependsOn h x y ∨ (x = a ∧ y = b).
Proof.
  intros Ha. unfold dependsOn. split.
  - intros (op & Hop & Hin). rewrite addDependencyHeap_lookup in Hop.
    destruct (h !! x) as [op0|] eqn:Hop0; [|done]. injection Hop as <-.
    apply afterEdge_dependencies in Hin as [Hin|[-> ->]]; [|by right].
    left. by exists op0.
  - intros [(op & Hop & Hin)|[-> ->]].
    + exists (afterEdge a b x op). rewrite addDependencyHeap_lookup, Hop.
      split; [done|]. apply afterEdge_dependencies. by left.
    + destruct (lookup_lt_is_Some_2 h a Ha) as [op Hop].
      exists (afterEdge a b a op). rewrite addDependencyHeap_lookup, Hop.
      split; [done|]. apply afterEdge_dependencies. by right.
Qed.

Lemma consumedBy_edge a b h y x :
  b < length h →
  consumedBy (addDependencyHeap a b h) y x ↔ consumedBy h y x ∨ (x = a ∧ y = b).
Proof.
  intros Hb. unfold consumedBy. split.
  - intros (op & Hop & Hin). rewrite addDependencyHeap_lookup in Hop.
    destruct (h !! y) as [op0|] eqn:Hop0; [|done]. injection Hop as <-.
    apply afterEdge_consumers in Hin as [Hin|[-> ->]]; [|by right].
    left. by exists op0.
  - intros [(op & Hop & Hin)|[-> ->]].
    + exists (afterEdge a b y op). rewrite addDependencyHeap_lookup, Hop.
      split; [done|]. apply afterEdge_consumers. by left.
    + destruct (lookup_lt_is_Some_2 h b Hb) as [op Hop].
      exists (afterEdge a b b op). rewrite addDependencyHeap_lookup, Hop.
      split; [done|]. apply afterEdge_consumers. by right.
Qed.

Lemma linked_edge a b h :
  linked h → a < length h → b < length h → linked (addDependencyHeap a b h).
Proof.
  intros Hl Ha Hb x y. rewrite dependsOn_edge, consumedBy_edge by done.
  by rewrite (Hl x y).
Qed.

Lemma linked_finalize withWork memo h :
  linked h → linked (finalize withWork memo h).
Proof.
  intros Hl.
  assert (∀ x y, dependsOn (finalize withWork memo h) x y ↔ dependsOn h x y) as Hd.
  { intros x y. unfold dependsOn. split.
    - intros (op' & Hop' & Hin).
      apply finalize_lookup in Hop' as (op & Hop & _ & _ & _ & Hdep & _).
      exists op. by rewrite <-Hdep.
    - intros (op & Hop & Hin).
      destruct (finalize_lookup_total withWork memo h x op Hop)
        as (op' & Hop' & _ & _ & _ & Hdep & _).
      exists op'. by rewrite Hdep. }
  assert (∀ x y, consumedBy (finalize withWork memo h) x y ↔ consumedBy h x y) as Hc.
  { intros x y. unfold consumedBy. split.
    - intros (op' & Hop' & Hin).
      apply finalize_lookup in Hop' as (op & Hop & _ & _ & _ & _ & Hcon & _).
      exists op. by rewrite <-Hcon.
    - intros (op & Hop & Hin).
      destruct (finalize_lookup_total withWork memo h x op Hop)
        as (op' & Hop' & _ & _ & _ & _ & Hcon & _).
      exists op'. by rewrite Hcon. }
  intros a b. by rewrite Hd, Hc.
Qed.

Lemma resolution_linked fuel :
  keeps (λ st, linked (heap st)) (λ _, True) (getOrCreateOperations fuel context).
Proof.
  apply (getOrCreateOperations_keeps context (λ st, linked (heap st))
           (λ _, True) (λ _, True)).
  - intros ph pr st HI _ _ _. split_and!; [|done..]. simpl.
    apply linked_alloc; [done|unfold singleOperation; by destruct (outOfScope _ _ _)..].
  - intros ph pr n st HI _ _ _. split_and!; [|done..]. simpl.
    by do 2 (apply linked_alloc; [|done..]).
  - intros ph pr n restore save shardNo st HI _ Hr Hs _ _. split; [|done]. simpl.
    apply linked_edge.
    + apply linked_edge; [by apply linked_alloc|rewrite length_app; simpl; lia..].
    + rewrite length_addDependencyHeap, length_app. simpl. lia.
    + rewrite length_addDependencyHeap, length_app. simpl. lia.
  - intros a b st HI _ Ha Hb _ _. simpl. by apply linked_edge.
  - intros ph pr n l st0 st _ _ _ HI _ _ _. done.
Qed.

Lemma pass_linked fuel existing h existing' h' :
  linked h →
  createOperations fuel existing context h = Some (existing', h') →
  linked h'.
Proof.
  intros Hl Hrun.
  apply createOperations_Some in Hrun as (st & withWork & Hsel & _ & _ & ->).
  assert (listed (λ _, True) (initialState existing h)) as Hl0.
  { by intros k l o' ?. }
  destruct (createSelected_keeps context (λ st, linked (heap st)) (λ _, True)
              fuel (initialState existing h) _ _ (resolution_linked fuel) Hl Hl0 Hsel)
    as (HI & _ & _).
  by apply linked_finalize.
Qed.

End Linked.

(** ** Loops keep what resolutions and edges keep *)

Section LoopsU.
Context `{W : Workspace}.
Variable P : PassState → Prop.
Variable U : nat → Prop.
Variable rec : IPhase → RushConfigurationProject → M (list nat).
Hypothesis rec_keeps : ∀ ph pr st l st',
  P st → rec ph pr st = Some (l, st') → P st' ∧ ∀ o, o ∈ l → U o.
Hypothesis edge_keeps : ∀ a b st,
  P st → U b → P (stHeap (addDependencyHeap a b) st).

Lemma wire_preserves target depPhase depProject st u st' :
  P st → wire rec target depPhase depProject st = Some (u, st') → P st'.
Proof.
  intros HP Hrun. unfold wire in Hrun. run_step Hrun.
  destruct (rec_keeps _ _ _ _ _ HP Hrun0) as [HP1 HU].
  apply (forEach_invariant P _ _ _ _ _ Hrun HP1).
  intros op s1 s2 Hin HP2 Hstep. run_prim Hstep. apply edge_keeps; auto.
Qed.

Lemma wireAll_preserves (targets : list nat) depPhase depProject st u st' :
  P st → forEach targets (λ t, wire rec t depPhase depProject) st = Some (u, st') →
  P st'.
Proof.
  intros HP Hrun. apply (forEach_invariant P _ _ _ _ _ Hrun HP).
  intros t s1 s2 _ HP1 Hstep. by eapply wire_preserves.
Qed.

Lemma dependencyLoops_preserve ph pr (selfBody : IPhase → M unit)
    (upstreamBody : IPhase → RushConfigurationProject → M unit) st u u' s st' :
  (∀ depPhase s1 s2, P s1 → selfBody depPhase s1 = Some (tt, s2) → P s2) →
  (∀ depPhase depProject s1 s2,
     P s1 → upstreamBody depPhase depProject s1 = Some (tt, s2) → P s2) →
  P st →
  forEach (self ph) selfBody st = Some (u, s) →
  (if bool_decide (upstream ph ≠ []) then
     if bool_decide (dependencyProjects pr ≠ []) then
       forEach (upstream ph) (λ depPhase,
         forEach (dependencyProjects pr) (λ dependencyProject,
           upstreamBody depPhase dependencyProject))
     else ret tt
   else ret tt) s = Some (u', st') →
  P st'.
Proof.
  intros Hself Hup HP Hrun1 Hrun2.
  assert (P s) as HP1.
  { apply (forEach_invariant P _ _ _ _ _ Hrun1 HP).
    intros depPhase s1 s2 _. apply Hself. }
  destruct (bool_decide (upstream ph ≠ [])); [|by run_prim Hrun2].
  destruct (bool_decide (dependencyProjects pr ≠ [])); [|by run_prim Hrun2].
  apply (forEach_invariant P _ _ _ _ _ Hrun2 HP1).
  intros depPhase s1 s2 _ HP2 Hrun3.
  apply (forEach_invariant P _ _ _ _ _ Hrun3 HP2).
  intros depProject s3 s4 _. apply Hup.
Qed.

End LoopsU.

Section Untouched.
Context `{W : Workspace}.
Variable context : ICreateOperationsContext.

Lemma afterEdge_ne a b o op : a ≠ o → b ≠ o → afterEdge a b o op = op.
Proof.
  intros Ha Hb. unfold afterEdge.
  by rewrite (decide_False (P := a = o)), (decide_False (P := b = o)).
Qed.

Lemma afterEdge_consumers_ne a b o op :
  b ≠ o → consumers (afterEdge a b o op) = consumers op.
Proof.
  intros Hb. unfold afterEdge. rewrite (decide_False (P := b = o)) by done.
  simpl. by destruct (decide (a = o)).
Qed.

Lemma afterEdge_dependencies_ne a b o op :
  a ≠ o → dependencies (afterEdge a b o op) = dependencies op.
Proof.
  intros Ha. unfold afterEdge. rewrite (decide_False (P := a = o)) by done.
  simpl. by destruct (decide (b = o)).
Qed.

Lemma sameCore_afterEdge a b o op0 op :
  sameCore op0 op → sameCore op0 (afterEdge a b o op).
Proof.
  intros (? & ? & ? & ?). destruct (afterEdge_core a b o op) as (? & ? & ? & ?).
  unfold sameCore. split_and!; congruence.
Qed.

Lemma untouched_edge C h bound a b st :
  untouched C h bound st → ¬ C a → ¬ C b →
  untouched C h bound (stHeap (addDependencyHeap a b) st).
Proof.
  intros [Hlen Hops] Ha Hb. split; [simpl; by rewrite length_addDependencyHeap|].
  intros o Ho. simpl. rewrite addDependencyHeap_lookup, (Hops o Ho).
  rewrite <-(option_fmap_id (h !! o)) at 2. apply option_fmap_ext.
  intros op. apply afterEdge_ne; intros ->; tauto.
Qed.

Lemma untouched_extend C h bound st st' news :
  (∀ o, C o → o < bound) →
  untouched C h bound st → heap st' = heap st ++ news → untouched C h bound st'.
Proof.
  intros HC [Hlen Hops] Hheap. split.
  - rewrite Hheap, length_app. lia.
  - intros o Ho. rewrite Hheap, lookup_app_l; [by apply Hops|].
    apply HC in Ho. lia.
Qed.

Lemma resolution_untouched C h bound fuel :
  (∀ o, C o → o < bound) →
  keeps (untouched C h bound) (λ o, ¬ C o) (getOrCreateOperations fuel context).
Proof.
  intros HC.
  assert (∀ st, untouched C h bound st → ∀ o, length (heap st) ≤ o → ¬ C o) as Hfresh.
  { intros st [Hlen _] o Ho Hc. apply HC in Hc. lia. }
  apply (getOrCreateOperations_keeps context (untouched C h bound)
           (λ o, ¬ C o) (λ o, ¬ C o)).
  - intros ph pr st HI _ _ _. split_and!; [|by eapply Hfresh..].
    by eapply (untouched_extend C h bound st).
  - intros ph pr n st HI _ _ _.
    split_and!; [|eapply Hfresh; [done|lia]..].
    eapply (untouched_extend C h bound st _
              [restoreOperation ph pr; saveOperation ph pr]); [done..|].
    simpl. by rewrite <-app_assoc.
  - intros ph pr n restore save shardNo st HI _ _ _ HTr HTs.
    assert (¬ C (length (heap st))) as Hnew by (by eapply Hfresh).
    split; [|done].
    apply (untouched_edge C h bound save (length (heap st))
             (stHeap (addDependencyHeap (length (heap st)) restore)
                {| heap := heap st ++ [blankOperation pr ph (Some (shardNo, n))];
                   existingOperations := setAdd (length (heap st)) (existingOperations st);
                   operationsWithWork := setAdd (length (heap st)) (operationsWithWork st);
                   allOperations := allOperations st |})); [|done..].
    apply untouched_edge; [|done..].
    by eapply (untouched_extend C h bound st).
  - intros a b st HI _ _ _ HTa HUb. by apply untouched_edge.
  - intros ph pr n l st0 st _ _ _ HI _ _ _. done.
Qed.

End Untouched.

(** ** The shards of one pair (lines 156-170) *)

Section Shards.
Context `{W : Workspace}.
Variables (pr : RushConfigurationProject) (ph : IPhase) (n : Z).
Variables (restore save : nat).
Hypothesis distinct : restore ≠ save.

Lemma afterShard_lookup shardNo st o :
  restore < length (heap st) → save < length (heap st) →
  heap (afterShard ph pr n restore save shardNo st) !! o =
  if decide (o = length (heap st))
  then Some (shardOperation ph pr n restore save shardNo)
  else if decide (o = restore)
       then withConsumer (length (heap st)) <$> heap st !! o
       else if decide (o = save)
            then withDependency (length (heap st)) <$> heap st !! o
            else heap st !! o.
Proof.
  intros Hr Hs. simpl. rewrite !addDependencyHeap_lookup.
  destruct (decide (o = length (heap st))) as [->|Hne].
  - rewrite list_lookup_middle by done. simpl. unfold afterEdge, shardOperation.
    rewrite (decide_True (P := length (heap st) = length (heap st))) by done.
    rewrite (decide_False (P := restore = length (heap st))) by lia.
    rewrite (decide_False (P := save = length (heap st))) by lia.
    by rewrite decide_True.
  - destruct (decide (o < length (heap st))) as [Hlt|Hge].
    + rewrite lookup_app_l by done.
      destruct (heap st !! o) as [op|] eqn:Hop; simpl;
        [|by repeat case_decide].
      unfold afterEdge.
      rewrite (decide_False (P := length (heap st) = o)) by lia.
      destruct (decide (o = restore)) as [->|Hner].
      * rewrite (decide_True (P := restore = restore)) by done.
        rewrite (decide_False (P := save = restore)) by done.
        by rewrite (decide_False (P := length (heap st) = restore)) by lia.
      * rewrite (decide_False (P := restore = o)) by done.
        rewrite (decide_False (P := length (heap st) = o)) by lia.
        destruct (decide (o = save)) as [->|Hnes].
        -- by rewrite (decide_True (P := save = save)).
        -- by rewrite (decide_False (P := save = o)).
    + rewrite (lookup_ge_None_2 (heap st ++ _)) by (rewrite length_app; simpl; lia).
      rewrite (lookup_ge_None_2 (heap st)) by lia. simpl. by repeat case_decide.
Qed.

Lemma createShards_effect : ∀ indices operations st l st',
  restore < length (heap st) → save < length (heap st) →
  createShards pr ph n [restore] [save] indices operations st = Some (l, st') →
  l = operations ++ seq (length (heap st)) (length indices) ∧
  length (heap st') = length (heap st) + length indices ∧
  allOperations st' = allOperations st ∧
  (∀ x, x ∈ operationsWithWork st' ↔
        x ∈ operationsWithWork st ∨ length (heap st) ≤ x < length (heap st')) ∧
  (∀ x, x ∈ existingOperations st' ↔
        x ∈ existingOperations st ∨ length (heap st) ≤ x < length (heap st')) ∧
  (∀ o, o < length (heap st) → o ≠ restore → o ≠ save →
        heap st' !! o = heap st !! o) ∧
  heap st' !! restore =
    (λ op, foldl (λ op' c, withConsumer c op') op
             (seq (length (heap st)) (length indices))) <$> heap st !! restore ∧
  heap st' !! save =
    (λ op, foldl (λ op' d, withDependency d op') op
             (seq (length (heap st)) (length indices))) <$> heap st !! save ∧
  (∀ j shardNo, indices !! j = Some shardNo →
     heap st' !! (length (heap st) + j) =
     Some (shardOperation ph pr n restore save shardNo)).
Proof.
  induction indices as [|shardNo rest IH]; intros operations st l st' Hr Hs Hrun.
  - simpl in Hrun. run_prim Hrun. simpl. rewrite app_nil_r, Nat.add_0_r.
    split_and!; try done.
    + intros x. split; [tauto|]. intros [?|?]; [done|lia].
    + intros x. split; [tauto|]. intros [?|?]; [done|lia].
    + by destruct (heap st !! restore).
    + by destruct (heap st !! save).
  - cbn [createShards] in Hrun. run_step Hrun.
    rewrite createShard_effect in Hrun0. injection Hrun0 as <- <-.
    pose proof (length_afterShard ph pr n restore save shardNo st) as Hlen.
    apply IH in Hrun as (-> & Hlen' & Hmemo & Hww & Hex & Hother & Hres & Hsav & Hsh);
      [|rewrite Hlen; lia..].
    rewrite Hlen in *. cbn [length seq].
    split_and!.
    + by rewrite <-app_assoc.
    + lia.
    + done.
    + intros x. rewrite Hww. simpl. rewrite elem_of_setAdd. intuition lia.
    + intros x. rewrite Hex. simpl. rewrite elem_of_setAdd. intuition lia.
    + intros o Ho Hnr Hns. rewrite Hother by lia.
      rewrite afterShard_lookup by done.
      rewrite decide_False by lia. by rewrite !decide_False.
    + rewrite Hres, afterShard_lookup by done.
      rewrite decide_False by lia. rewrite decide_True by done.
      by destruct (heap st !! restore).
    + rewrite Hsav, afterShard_lookup by done.
      rewrite decide_False by lia. rewrite decide_False by done.
      rewrite decide_True by done. by destruct (heap st !! save).
    + intros [|j] shardNo' Hj.
      * injection Hj as <-. rewrite Nat.add_0_r, Hother by lia.
        rewrite afterShard_lookup by done. by rewrite decide_True.
      * replace (length (heap st) + S j) with (S (length (heap st)) + j) by lia.
        by apply Hsh.
Qed.

End Shards.

Section Folds.
Context `{W : Workspace}.

Lemma foldl_withConsumer_core op0 l : ∀ op,
  sameCore op0 op → sameCore op0 (foldl (λ op' c, withConsumer c op') op l).
Proof. induction l as [|x l IH]; intros op Hc; simpl; [done|]. by apply IH. Qed.

Lemma foldl_withDependency_core op0 l : ∀ op,
  sameCore op0 op → sameCore op0 (foldl (λ op' d, withDependency d op') op l).
Proof. induction l as [|x l IH]; intros op Hc; simpl; [done|]. by apply IH. Qed.

Lemma foldl_withConsumer_consumers l : ∀ op,
  NoDup (consumers op ++ l) →
  consumers (foldl (λ op' c, withConsumer c op') op l) = consumers op ++ l.
Proof.
  induction l as [|x l IH]; intros op Hnd; simpl; [by rewrite app_nil_r|].
  rewrite IH; simpl; unfold setAdd.
  - rewrite decide_False; [by rewrite <-app_assoc|].
    apply NoDup_app in Hnd as (_ & Hdis & _). intros Hin.
    apply (Hdis x Hin). apply elem_of_cons. by left.
  - rewrite decide_False; [by rewrite <-app_assoc|].
    apply NoDup_app in Hnd as (_ & Hdis & _). intros Hin.
    apply (Hdis x Hin). apply elem_of_cons. by left.
Qed.

Lemma foldl_withConsumer_dependencies l : ∀ op,
  dependencies (foldl (λ op' c, withConsumer c op') op l) = dependencies op.
Proof. induction l as [|x l IH]; intros op; simpl; [done|]. by rewrite IH. Qed.

Lemma foldl_withDependency_consumers l : ∀ op,
  consumers (foldl (λ op' d, withDependency d op') op l) = consumers op.
Proof. induction l as [|x l IH]; intros op; simpl; [done|]. by rewrite IH. Qed.

Lemma foldl_withDependency_dependencies l : ∀ op x,
  x ∈ dependencies (foldl (λ op' d, withDependency d op') op l) ↔
  x ∈ dependencies op ∨ x ∈ l.
Proof.
  induction l as [|y l IH]; intros op x; simpl.
  - rewrite elem_of_nil. tauto.
  - rewrite IH. simpl. rewrite elem_of_setAdd, elem_of_cons. tauto.
Qed.

Lemma shardIndices_length n : length (shardIndices n) = Z.to_nat n.
Proof. unfold shardIndices. by rewrite length_map, length_seq. Qed.

Lemma shardIndices_lookup n j :
  j < Z.to_nat n → shardIndices n !! j = Some (Z.of_nat j + 1)%Z.
Proof.
  intros Hj. unfold shardIndices.
  change (map ?f ?l) with (f <$> l).
  by rewrite list_lookup_fmap, lookup_seq_lt.
Qed.

Lemma listed_impl (U U' : nat → Prop) st :
  (∀ o, o < length (heap st) → U o → U' o) → listed U st → listed U' st.
Proof.
  intros HU Hl k l o Hk Ho. destruct (Hl k l o Hk Ho) as [Hlt Huo]. auto.
Qed.

Lemma listed_edge (U : nat → Prop) a b st :
  listed U st → listed U (stHeap (addDependencyHeap a b) st).
Proof.
  intros Hl k l o Hk Ho. simpl. rewrite length_addDependencyHeap.
  by apply (Hl k l o).
Qed.

End Folds.

Section Branches.
Context `{W : Workspace}.
Variable context : ICreateOperationsContext.
Variable fuel : nat.
Local Abbreviation rec := (getOrCreateOperations fuel context).

Lemma rec_boundariesHeld ph pr r s ph' pr' st l st' :
  r < s →
  boundariesHeld ph pr r s st → rec ph' pr' st = Some (l, st') →
  boundariesHeld ph pr r s st' ∧ ∀ o, o ∈ l → ¬ (o = r ∨ o = s).
Proof.
  intros Hrs (Hl & Hlen & Hr & Hs & Hwr & Hws & Her & Hes) Hrun.
  assert (∀ o, o = r ∨ o = s → o < S s) as HC by lia.
  destruct (resolution_untouched context _ (heap st) (S s) fuel HC
              ph' pr' st l st') as ([Hlen' Hsame] & Hl' & _ & Hret);
    [by split; [lia|]|done|done|].
  destruct (resolution_stable context fuel st ph' pr' st l st')
    as ((_ & Hex & Hww & _) & _);
    [apply stableSince_refl|by eapply listed_impl|done|].
  split; [|intros o Ho; by apply Hret].
  split_and!; [done|lia| | |auto..].
  - rewrite Hsame by (by left). done.
  - rewrite Hsame by (by right). done.
Qed.

Lemma edge_boundariesHeld ph pr r s a b st :
  boundariesHeld ph pr r s st → ¬ (b = r ∨ b = s) →
  boundariesHeld ph pr r s (stHeap (addDependencyHeap a b) st).
Proof.
  intros (Hl & Hlen & (opr & Hopr & Hcr & Hconr) & (ops & Hops & Hcs & Hcons) &
          Hwr & Hws & Her & Hes) Hb.
  split_and!; try done.
  - by apply listed_edge.
  - simpl. by rewrite length_addDependencyHeap.
  - exists (afterEdge a b r opr). simpl. rewrite addDependencyHeap_lookup, Hopr.
    split_and!; [done|by apply sameCore_afterEdge|].
    rewrite afterEdge_consumers_ne; [done|]. intros ->. tauto.
  - exists (afterEdge a b s ops). simpl. rewrite addDependencyHeap_lookup, Hops.
    split_and!; [done|by apply sameCore_afterEdge|].
    rewrite afterEdge_consumers_ne; [done|]. intros ->. tauto.
Qed.

(** Lines 88-171. *)
Lemma shardedBranch_effect key ph pr n st l st' :
  memoInHeap st →
  shardedBranch rec key ph pr n st = Some (l, st') →
  ∃ m,
    S (length (heap st)) < m ∧
    length (heap st') = m + Z.to_nat n ∧
    l = [length (heap st); S (length (heap st))] ++ seq m (Z.to_nat n) ∧
    mapGet key (allOperations st') = Some l ∧
    (∀ o, o ∈ l → o ∈ operationsWithWork st' ∧ o ∈ existingOperations st') ∧
    (∃ op, heap st' !! length (heap st) = Some op ∧
           sameCore (restoreOperation ph pr) op ∧
           consumers op = seq m (Z.to_nat n)) ∧
    (∃ op, heap st' !! S (length (heap st)) = Some op ∧
           sameCore (saveOperation ph pr) op ∧
           consumers op = [] ∧
           ∀ x, x ∈ seq m (Z.to_nat n) → x ∈ dependencies op) ∧
    (∀ j, j < Z.to_nat n →
       heap st' !! (m + j) =
       Some (shardOperation ph pr n (length (heap st)) (S (length (heap st)))
               (Z.of_nat j + 1))).
Proof.
  intros Hmemo Hrun. unfold shardedBranch in Hrun. run_step Hrun.
  rewrite createBoundaries_effect in Hrun0. injection Hrun0 as <- <-.
  do 5 run_step Hrun. cbn [fst snd] in *.
  set (restore := length (heap st)) in *. set (save := S restore) in *.
  assert (boundariesHeld ph pr restore save (afterBoundaries ph pr st)) as Hheld.
  { split_and!.
    - intros k l' o Hk Ho. destruct (Hmemo k l' o Hk Ho) as [Hlt _].
      simpl. rewrite !length_app. simpl. fold restore in Hlt. unfold save. lia.
    - simpl. rewrite !length_app. simpl. fold restore. unfold save. lia.
    - exists (restoreOperation ph pr). split_and!; [|done..]. simpl.
      rewrite lookup_app_l by (rewrite length_app; simpl; fold restore; lia).
      by apply list_lookup_middle.
    - exists (saveOperation ph pr). split_and!; [|done..]. simpl.
      apply list_lookup_middle. rewrite length_app. simpl. fold restore. unfold save. lia.
    - simpl. rewrite !elem_of_setAdd. tauto.
    - simpl. rewrite !elem_of_setAdd. tauto.
    - simpl. rewrite !elem_of_setAdd. tauto.
    - simpl. rewrite !elem_of_setAdd. tauto. }
  assert (boundariesHeld ph pr restore save s0) as Hheld1.
  { eapply (dependencyLoops_preserve (boundariesHeld ph pr restore save));
      [| |exact Hheld|exact Hrun0|exact Hrun1].
    - intros depPhase s3 s4 HP Hloop.
      eapply (wireAll_preserves (boundariesHeld ph pr restore save) _ rec);
        [| |exact HP|exact Hloop].
      + intros ph' pr' st0 l' st0'. apply rec_boundariesHeld. unfold save. lia.
      + intros x y st0. apply edge_boundariesHeld.
    - intros depPhase depProject s3 s4 HP Hloop.
      eapply (wireAll_preserves (boundariesHeld ph pr restore save) _ rec);
        [| |exact HP|exact Hloop].
      + intros ph' pr' st0 l' st0'. apply rec_boundariesHeld. unfold save. lia.
      + intros x y st0. apply edge_boundariesHeld. }
  destruct Hheld1 as (_ & Hlen1 & (opr & Hopr & Hcr & Hconr) &
                      (ops & Hops & Hcs & Hcons) & Hwr & Hws & Her & Hes).
  apply createShards_effect in Hrun2
    as (-> & Hlen2 & Hmemo2 & Hww2 & Hex2 & Hother & Hres & Hsav & Hsh);
    [|unfold save; lia..].
  rewrite shardIndices_length in *. simpl in Hlen2.
  exists (length (heap s0)). split_and!.
  - exact Hlen1.
  - simpl. exact Hlen2.
  - done.
  - simpl. apply mapGet_mapSet_eq.
  - intros o. simpl. rewrite !elem_of_cons, elem_of_seq, Hww2, Hex2.
    intros [->|[->|Ho]]; [tauto..|]. split; right; lia.
  - exists (foldl (λ op' c, withConsumer c op') opr
              (seq (length (heap s0)) (Z.to_nat n))).
    simpl. rewrite Hres, Hopr. split_and!; [done|by apply foldl_withConsumer_core|].
    rewrite foldl_withConsumer_consumers; rewrite Hconr; [done|apply NoDup_seq].
  - exists (foldl (λ op' d, withDependency d op') ops
              (seq (length (heap s0)) (Z.to_nat n))).
    simpl. rewrite Hsav, Hops.
    split_and!; [done|by apply foldl_withDependency_core| |].
    + by rewrite foldl_withDependency_consumers.
    + intros x Hx. apply foldl_withDependency_dependencies. by right.
  - intros j Hj. simpl. apply Hsh. by apply shardIndices_lookup.
Qed.

End Branches.

Section Single.
Context `{W : Workspace}.
Variable context : ICreateOperationsContext.
Variable fuel : nat.
Local Abbreviation rec := (getOrCreateOperations fuel context).

Lemma resolution_memoInHeap ph pr st l st' :
  memoInHeap st → rec ph pr st = Some (l, st') →
  memoInHeap st' ∧ stableSince st st' ∧ ∀ o, o ∈ l → o < length (heap st').
Proof.
  intros Hmemo Hrun.
  destruct (resolution_stable context fuel st ph pr st l st'
              (stableSince_refl st) Hmemo Hrun) as (Hst & Hl & _ & Hret).
  split_and!; [done..|]. intros o Ho. by apply Hret.
Qed.

Lemma rec_singleHeld key ph pr o ph' pr' st l st' :
  singleHeld context key ph pr o st → rec ph' pr' st = Some (l, st') →
  singleHeld context key ph pr o st' ∧ ∀ x, x ∈ l → True.
Proof.
  intros (Hmemo & (op & Hop & Hcore) & Hkey & Hex & Hww) Hrun.
  destruct (resolution_memoInHeap _ _ _ _ _ Hmemo Hrun)
    as (Hmemo' & (Hops & Hex' & Hww' & Hkeys) & _).
  split; [|done]. split_and!; [done| |auto..].
  destruct (Hops o op Hop) as (op' & Hop' & ? & ? & ? & ? & _).
  exists op'. split; [done|]. destruct Hcore as (? & ? & ? & ?).
  unfold sameCore. split_and!; congruence.
Qed.

Lemma edge_singleHeld key ph pr o a b st :
  singleHeld context key ph pr o st →
  singleHeld context key ph pr o (stHeap (addDependencyHeap a b) st).
Proof.
  intros (Hmemo & (op & Hop & Hcore) & Hkey & Hex & Hww).
  split_and!; try done.
  - by apply listed_edge.
  - exists (afterEdge a b o op). simpl. rewrite addDependencyHeap_lookup, Hop.
    split; [done|]. by apply sameCore_afterEdge.
Qed.

(** Lines 173-190 establish it. *)
Lemma singleHeld_afterSingle key ph pr st :
  memoInHeap st →
  singleHeld context key ph pr (length (heap st)) (afterSingle context key ph pr st).
Proof.
  intros Hmemo. split_and!.
  - intros k l' o. simpl. rewrite length_app. simpl.
    destruct (decide (key = k)) as [->|Hne].
    + rewrite mapGet_mapSet_eq. intros [= <-] ->%list_elem_of_singleton.
      split; [lia|done].
    + rewrite mapGet_mapSet_ne by done. intros Hk Ho.
      destruct (Hmemo k l' o Hk Ho). split; [lia|done].
  - exists (singleOperation context key ph pr). split; [|done].
    simpl. by apply list_lookup_middle.
  - simpl. apply mapGet_mapSet_eq.
  - simpl. apply setAdd_self.
  - simpl. intros -> ->. apply setAdd_self.
Qed.

(** Lines 173-215. *)
Lemma unshardedBranch_effect key ph pr operations st l st' :
  memoInHeap st →
  unshardedBranch context rec key ph pr operations st = Some (l, st') →
  l = operations ∧ singleHeld context key ph pr (length (heap st)) st'.
Proof.
  intros Hmemo Hrun. unfold unshardedBranch in Hrun. run_step Hrun.
  rewrite createSingle_effect in Hrun0. injection Hrun0 as <- <-.
  do 3 run_step Hrun. split; [done|].
  pose proof (singleHeld_afterSingle key ph pr st Hmemo) as Hheld.
  eapply (dependencyLoops_preserve (singleHeld context key ph pr (length (heap st))));
    [| |exact Hheld|exact Hrun0|exact Hrun1].
  - intros depPhase s3 s4 HP Hloop.
    eapply (wire_preserves (singleHeld context key ph pr (length (heap st)))
              (λ _, True) rec); [| |exact HP|exact Hloop].
    + intros ph' pr' st0 l' st0'. apply rec_singleHeld.
    + intros x y st0 HP0 _. by apply edge_singleHeld.
  - intros depPhase depProject s3 s4 HP Hloop.
    eapply (wire_preserves (singleHeld context key ph pr (length (heap st)))
              (λ _, True) rec); [| |exact HP|exact Hloop].
    + intros ph' pr' st0 l' st0'. apply rec_singleHeld.
    + intros x y st0 HP0 _. by apply edge_singleHeld.
Qed.

End Single.

Section Resolutions.
Context `{W : Workspace}.
Variable context : ICreateOperationsContext.

(** Lines 81-84, 171 and 189: a resolution that returns leaves its key in
    the memo. *)
Lemma resolution_memoises fuel ph pr st l st' :
  memoInHeap st →
  getOrCreateOperations fuel context ph pr st = Some (l, st') →
  mapGet (getOperationKey ph pr) (allOperations st') =
  Some (match mapGet (getOperationKey ph pr) (allOperations st) with
        | Some cached => cached
        | None =>
            match shardsAboveOne (getShards ph pr) with
            | Some _ => l
            | None => [length (heap st)]
            end
        end).
Proof.
  intros Hmemo Hrun. destruct fuel as [|fuel]; [done|].
  simpl in Hrun. unfold getOrCreateBody in Hrun. run_step Hrun.
  destruct (mapGet _ _) as [cached|] eqn:Hkey.
  - run_prim Hrun. done.
  - destruct (shardsAboveOne _) as [n|].
    + apply shardedBranch_effect in Hrun as (m & _ & _ & _ & Hk & _); done.
    + apply unshardedBranch_effect in Hrun as (_ & _ & _ & Hk & _); done.
Qed.

Lemma later_memo st st' :
  rtc (resolutionStep context) st st' →
  memoInHeap st → memoInHeap st' ∧ stableSince st st'.
Proof.
  induction 1 as [st|st st1 st2 (fuel & ph & pr & l & Hrun) _ IH]; intros Hmemo.
  - split; [done|apply stableSince_refl].
  - destruct (resolution_memoInHeap _ _ _ _ _ _ _ Hmemo Hrun) as (Hmemo1 & Hst & _).
    destruct (IH Hmemo1) as [Hmemo2 Hst2]. split; [done|].
    by eapply stableSince_trans.
Qed.

End Resolutions.

Section FinalizeExact.
Context `{W : Workspace}.
Variable withWork : list nat.
Implicit Types (h : list Operation) (memo : list (string * list nat)).

Lemma finalizeEntry_lookup key ops : ∀ h o,
  finalizeEntry withWork h (key, ops) !! o =
  if decide ((o ∉ withWork) ∧ o ∈ ops)
  then withRunner (skipRunner key) <$> h !! o
  else h !! o.
Proof.
  unfold finalizeEntry. simpl.
  induction ops as [|x ops IH]; intros h o; simpl.
  - rewrite decide_False; [done|]. intros [_ Hin]. by apply elem_of_nil in Hin.
  - rewrite IH, mark_lookup.
    repeat case_decide; destruct (h !! o) as [op|]; try done; exfalso;
      rewrite elem_of_cons in *; intuition congruence.
Qed.

Lemma finalize_snoc memo entry h :
  finalize withWork (memo ++ [entry]) h =
  finalizeEntry withWork (finalize withWork memo h) entry.
Proof. unfold finalize. by rewrite foldl_app. Qed.

(** The runner of a memoised operation without work names a key that lists
    it. *)
Lemma finalize_skip_key memo : ∀ h o op',
  o ∉ withWork →
  (∃ key ops, (key, ops) ∈ memo ∧ o ∈ ops) →
  finalize withWork memo h !! o = Some op' →
  ∃ key ops, (key, ops) ∈ memo ∧ o ∈ ops ∧ runner op' = Some (skipRunner key).
Proof.
  induction memo as [|[key ops] memo IH] using rev_ind; intros h o op' Hw Hin Hop.
  - destruct Hin as (? & ? & Hin & _). by apply elem_of_nil in Hin.
  - rewrite finalize_snoc, finalizeEntry_lookup in Hop.
    destruct (decide (o ∈ ops)) as [Ho|Ho].
    + rewrite decide_True in Hop by done.
      destruct (finalize withWork memo h !! o) as [op1|]; [|done].
      injection Hop as <-. exists key, ops. split_and!; [|done..].
      apply elem_of_app. right. apply list_elem_of_singleton. done.
    + rewrite decide_False in Hop by tauto.
      destruct (IH h o op' Hw) as (key' & ops' & Hin' & Ho' & Hr); [|done|].
      * destruct Hin as (key' & ops' & Hin & Ho').
        apply elem_of_app in Hin as [Hin|Hin]; [by exists key', ops'|].
        apply list_elem_of_singleton in Hin. by injection Hin as -> ->.
      * exists key', ops'. split_and!; [|done..]. apply elem_of_app. by left.
Qed.

End FinalizeExact.

Section PropagationClosed.
Context `{W : Workspace}.
Implicit Types (h : list Operation) (s r : list nat).

Lemma addAll_subset s cs : (∀ x, x ∈ cs → x ∈ s) → addAll s cs = s.
Proof.
  unfold addAll. revert s. induction cs as [|c cs IH]; intros s Hsub; simpl; [done|].
  unfold setAdd at 2. rewrite decide_True.
  - apply IH. intros x Hx. apply Hsub. apply elem_of_cons. by right.
  - apply Hsub. apply elem_of_cons. by left.
Qed.

Lemma expandConsumers_closed h r :
  (∀ x y, x ∈ r → y ∈ consumersOf h x → y ∈ r) →
  ∀ fuel i, length r - i < fuel → expandConsumers fuel h i r = Some r.
Proof.
  intros Hclosed fuel. induction fuel as [|fuel IH]; intros i Hlt; simpl; [lia|].
  destruct (r !! i) as [x|] eqn:Hi; [|done].
  pose proof (lookup_lt_Some _ _ _ Hi).
  rewrite addAll_subset; [apply IH; lia|].
  intros y. apply Hclosed. by eapply list_elem_of_lookup_2.
Qed.

End PropagationClosed.

Section Added.
Context `{W : Workspace}.
Variable context : ICreateOperationsContext.

Lemma addsCreated_add existing h0 st st' o :
  addsCreated existing h0 st →
  existingOperations st' = setAdd o (existingOperations st) →
  length (heap st) ≤ length (heap st') →
  length h0 ≤ o < length (heap st') →
  addsCreated existing h0 st'.
Proof.
  intros (Hlen & added & Hex & Hadded) Hset Hgrow Ho. split; [lia|].
  rewrite Hset, Hex. unfold setAdd. case_decide.
  - exists added. split; [done|]. intros x Hx. specialize (Hadded x Hx). lia.
  - exists (added ++ [o]). split; [by rewrite app_assoc|].
    intros x [Hx| ->%list_elem_of_singleton]%elem_of_app; [|done].
    specialize (Hadded x Hx). lia.
Qed.

Lemma addsCreated_same existing h0 st st' :
  addsCreated existing h0 st →
  existingOperations st' = existingOperations st →
  length (heap st') = length (heap st) →
  addsCreated existing h0 st'.
Proof.
  intros (Hlen & added & Hex & Hadded) Hset Hsame. split; [lia|].
  exists added. rewrite Hset, Hsame. done.
Qed.

Lemma resolution_addsCreated existing h0 fuel :
  keeps (addsCreated existing h0) (λ _, True) (getOrCreateOperations fuel context).
Proof.
  apply (getOrCreateOperations_keeps context (addsCreated existing h0)
           (λ _, True) (λ _, True)).
  - intros ph pr st HI _ _ _. split_and!; [|done..].
    pose proof HI as [Hlen _].
    eapply (addsCreated_add existing h0 st _ (length (heap st))); [done|done|..];
      simpl; rewrite length_app; simpl; lia.
  - intros ph pr n st HI _ _ _. split_and!; [|done..].
    pose proof HI as [Hlen _].
    eapply (addsCreated_add existing h0
              {| heap := heap (afterBoundaries ph pr st);
                 existingOperations := setAdd (S (length (heap st))) (existingOperations st);
                 operationsWithWork := operationsWithWork st;
                 allOperations := allOperations st |} _ (length (heap st)));
      [|done|done|simpl; rewrite !length_app; simpl; lia].
    eapply (addsCreated_add existing h0 st _ (S (length (heap st)))); [done|done|..];
      simpl; rewrite !length_app; simpl; lia.
  - intros ph pr n restore save shardNo st HI _ _ _ _ _. split; [|done].
    pose proof HI as [Hlen _].
    eapply (addsCreated_add existing h0 st _ (length (heap st))); [done|done|..];
      simpl; rewrite !length_addDependencyHeap, length_app; simpl; lia.
  - intros a b st HI _ _ _ _ _.
    eapply addsCreated_same; [done|done|]. simpl. apply length_addDependencyHeap.
  - intros ph pr n l st0 st _ _ _ HI _ _ _. by eapply addsCreated_same.
Qed.

End Added.

Section ResolutionFacts.
Context `{W : Workspace}.
Variable context : ICreateOperationsContext.

Lemma shardsAboveOne_above n : (1 < n)%Z → shardsAboveOne (Some n) = Some n.
Proof.
  intros Hn. simpl.
  destruct (Z.eqb_spec n 0) as [->|_]; [lia|].
  destruct (Z.ltb_spec 1 n); [done|lia].
Qed.

Lemma sharded_miss_runs_branch fuel ph pr n st l st' :
  mapGet (getOperationKey ph pr) (allOperations st) = None →
  getShards ph pr = Some n → (1 < n)%Z →
  getOrCreateOperations fuel context ph pr st = Some (l, st') →
  ∃ fuel', shardedBranch (getOrCreateOperations fuel' context)
             (getOperationKey ph pr) ph pr n st = Some (l, st').
Proof.
  intros Hmiss Hshards Hn Hrun. destruct fuel as [|fuel]; [done|]. exists fuel.
  simpl in Hrun. unfold getOrCreateBody in Hrun. run_step Hrun.
  by rewrite Hmiss, Hshards, shardsAboveOne_above in Hrun.
Qed.

(** X3 (lines 77-216).  A resolution only adds.  Whatever pair is resolved
    and in whatever state of a pass, the Operations that were on the heap
    keep their project, phase, shard, runner and dependency set and can only
    gain consumers; the returned set, the work set and the memo keep their
    members and entries; and the operations returned and memoised are
    Operations of the heap. *)
Theorem resolution_only_adds fuel ph pr st l st' :
  memoInHeap st →
  getOrCreateOperations fuel context ph pr st = Some (l, st') →
  stableSince st st' ∧ memoInHeap st' ∧ ∀ o, o ∈ l → o < length (heap st').
Proof.
  intros Hmemo Hrun.
  destruct (resolution_memoInHeap context fuel _ _ _ _ _ Hmemo Hrun)
    as (? & ? & ?).
  done.
Qed.

(** X4 (lines 77-216).  A resolution leaves alone every Operation that no
    entry of the memo lists: an Operation that was on the heap before the
    call and occurs in no memoised array is returned exactly as it was,
    consumers included. *)
Theorem resolution_changes_only_memoised fuel ph pr st l st' o :
  memoInHeap st →
  getOrCreateOperations fuel context ph pr st = Some (l, st') →
  o < length (heap st) →
  (∀ key ops, mapGet key (allOperations st) = Some ops → o ∉ ops) →
  heap st' !! o = heap st !! o.
Proof.
  intros Hmemo Hrun Ho Hfree.
  destruct (resolution_untouched context (λ x, x = o) (heap st)
              (length (heap st)) fuel ltac:(by intros x ->) ph pr st l st')
    as ([_ Hsame] & _); [by split| |done|by apply Hsame].
  intros k ops x Hk Hx. destruct (Hmemo k ops x Hk Hx) as [Hlt _].
  split; [done|]. intros ->. by apply (Hfree k ops).
Qed.

(** X5 (lines 87-171).  The first resolution of a pair with more than one
    shard returns, in this order, the restore Operation, the save Operation
    and one Operation per shard, numbered from 1: shards + 2 Operations.  The
    same array is memoised under the key of the pair; every Operation of it
    is in the work set and in the returned set; restore and save carry their
    cache-boundary runners and no shard descriptor, the shard Operations
    carry the descriptor (index, shards) and no runner. *)
Theorem sharded_resolution_shape fuel ph pr n st l st' :
  memoInHeap st →
  mapGet (getOperationKey ph pr) (allOperations st) = None →
  getShards ph pr = Some n → (1 < n)%Z →
  getOrCreateOperations fuel context ph pr st = Some (l, st') →
  ∃ m,
    S (length (heap st)) < m ∧
    l = length (heap st) :: S (length (heap st)) :: seq m (Z.to_nat n) ∧
    mapGet (getOperationKey ph pr) (allOperations st') = Some l ∧
    (∀ o, o ∈ l → o ∈ operationsWithWork st' ∧ o ∈ existingOperations st') ∧
    (∃ op, heap st' !! length (heap st) = Some op ∧
           project op = pr ∧ phase op = ph ∧ shard op = None ∧
           runner op = Some (LiteralRunner (sharedConfig "buildCacheRestore"))) ∧
    (∃ op, heap st' !! S (length (heap st)) = Some op ∧
           project op = pr ∧ phase op = ph ∧ shard op = None ∧
           runner op = Some (LiteralRunner (sharedConfig "buildCacheSave"))) ∧
    (∀ j, j < Z.to_nat n →
       ∃ op, heap st' !! (m + j) = Some op ∧
             project op = pr ∧ phase op = ph ∧
             shard op = Some ((Z.of_nat j + 1)%Z, n) ∧ runner op = None).
Proof.
  intros Hmemo Hmiss Hshards Hn Hrun.
  destruct (sharded_miss_runs_branch _ _ _ _ _ _ _ Hmiss Hshards Hn Hrun) as [fuel' Hb].
  apply shardedBranch_effect in Hb
    as (m & Hm & _ & -> & Hk & Hsets & (opr & Hopr & Hcr & _) &
        (ops & Hops & Hcs & _) & Hsh); [|done].
  exists m. split_and!; [done..| | |].
  - exists opr. destruct Hcr as (? & ? & ? & ?). by split_and!.
  - exists ops. destruct Hcs as (? & ? & ? & ?). by split_and!.
  - intros j Hj. eexists. split; [by apply Hsh|]. by split_and!.
Qed.

(** X6 (lines 133-170).  The wiring of a sharded pair when its first
    resolution returns: every shard Operation depends on the restore
    Operation and on nothing else, and is consumed by the save Operation and
    by nothing else; the consumers of the restore Operation are exactly the
    shard Operations, in order; the save Operation depends on every shard
    Operation and has no consumer.  The Operations of the dependency phases
    are therefore never dependencies of a shard itself. *)
Theorem sharded_resolution_wiring fuel ph pr n st l st' :
  memoInHeap st →
  mapGet (getOperationKey ph pr) (allOperations st) = None →
  getShards ph pr = Some n → (1 < n)%Z →
  getOrCreateOperations fuel context ph pr st = Some (l, st') →
  ∃ restoreOp saveOp,
    heap st' !! length (heap st) = Some restoreOp ∧
    heap st' !! S (length (heap st)) = Some saveOp ∧
    consumers restoreOp = drop 2 l ∧
    consumers saveOp = [] ∧
    (∀ o, o ∈ drop 2 l → o ∈ dependencies saveOp) ∧
    (∀ o, o ∈ drop 2 l →
       ∃ op, heap st' !! o = Some op ∧
             dependencies op = [length (heap st)] ∧
             consumers op = [S (length (heap st))]).
Proof.
  intros Hmemo Hmiss Hshards Hn Hrun.
  destruct (sharded_miss_runs_branch _ _ _ _ _ _ _ Hmiss Hshards Hn Hrun) as [fuel' Hb].
  apply shardedBranch_effect in Hb
    as (m & Hm & _ & -> & _ & _ & (opr & Hopr & _ & Hconr) &
        (ops & Hops & _ & Hcons & Hdeps) & Hsh); [|done].
  exists opr, ops.
  change (drop 2 ([length (heap st); S (length (heap st))] ++ seq m (Z.to_nat n)))
    with (seq m (Z.to_nat n)).
  split_and!; [done..|].
  intros o [Hge Hlt]%elem_of_seq.
  exists (shardOperation ph pr n (length (heap st)) (S (length (heap st)))
            (Z.of_nat (o - m) + 1)).
  split; [|done].
  replace o with (m + (o - m)) at 1 by lia. apply Hsh. lia.
Qed.

(** X7 (lines 173-215).  The first resolution of a pair without a shard
    count above 1 creates exactly one Operation for it, without shard
    descriptor, memoises the one-element array holding it under the key of
    the pair and puts it into the returned set, and returns the empty array
    to its caller.  The Operation has the skip runner named after the key when
    the pair is out of scope and no runner otherwise; in scope and with a
    possibly-changed project it is in the work set. *)
Theorem unsharded_resolution_effect fuel ph pr st l st' :
  memoInHeap st →
  mapGet (getOperationKey ph pr) (allOperations st) = None →
  shardsAboveOne (getShards ph pr) = None →
  getOrCreateOperations fuel context ph pr st = Some (l, st') →
  l = [] ∧
  mapGet (getOperationKey ph pr) (allOperations st') = Some [length (heap st)] ∧
  length (heap st) ∈ existingOperations st' ∧
  (∃ op, heap st' !! length (heap st) = Some op ∧
         project op = pr ∧ phase op = ph ∧ shard op = None ∧
         runner op = if outOfScope context ph pr
                     then Some (skipRunner (getOperationKey ph pr))
                     else None) ∧
  (outOfScope context ph pr = false →
   pr ∈ projectsInUnknownState context →
   length (heap st) ∈ operationsWithWork st').
Proof.
  intros Hmemo Hmiss Hun Hrun. destruct fuel as [|fuel]; [done|].
  simpl in Hrun. unfold getOrCreateBody in Hrun. run_step Hrun.
  rewrite Hmiss, Hun in Hrun.
  apply unshardedBranch_effect in Hrun
    as (-> & _ & (op & Hop & Hp & Hph & Hsh & Hr) & Hk & Hex & Hww); [|done].
  split_and!; [done..| |].
  - exists op. unfold singleOperation in *.
    destruct (outOfScope context ph pr); by split_and!.
  - intros Hscope Hchanged. apply Hww; [done|]. by apply setHas_true.
Qed.

(** X8 (lines 81-84, 171, 189).  Once a resolution of a pair has returned,
    the pair stays resolved for the rest of the pass: its key is in the
    memo, and after any number of further resolutions, of any pairs, resolving
    the pair again returns the memoised array and changes nothing.  For a pair
    with more than one shard the array is the one the first resolution
    returned. *)
Theorem resolved_pair_stays_resolved fuel ph pr st l st1 st2 :
  memoInHeap st →
  getOrCreateOperations fuel context ph pr st = Some (l, st1) →
  rtc (resolutionStep context) st1 st2 →
  ∃ operations,
    mapGet (getOperationKey ph pr) (allOperations st1) = Some operations ∧
    (∀ n, shardsAboveOne (getShards ph pr) = Some n → operations = l) ∧
    ∀ fuel', getOrCreateOperations (S fuel') context ph pr st2
             = Some (operations, st2).
Proof.
  intros Hmemo Hrun Hlater.
  pose proof (resolution_memoises context _ _ _ _ _ _ Hmemo Hrun) as Hk.
  destruct (resolution_memoInHeap context fuel _ _ _ _ _ Hmemo Hrun)
    as (Hmemo1 & _ & _).
  destruct (later_memo context _ _ Hlater Hmemo1) as [_ (_ & _ & _ & Hkeys)].
  eexists. split_and!; [exact Hk| |].
  - intros n Hn. rewrite Hn.
    destruct (mapGet _ (allOperations st)) as [cached|] eqn:Hc; [|done].
    destruct fuel as [|fuel]; [done|].
    rewrite (getOrCreateOperations_hit context fuel ph pr st cached Hc) in Hrun.
    by injection Hrun as <- _.
  - intros fuel'. apply getOrCreateOperations_hit. by apply Hkeys.
Qed.

End ResolutionFacts.

Section PassFacts.
Context `{W : Workspace}.
Variable context : ICreateOperationsContext.

(** X2 (lines 31-75).  A pass changes no Operation that existed before it:
    the Operations the caller hands in come back with the same project,
    phase, shard, runner, dependencies and consumers, and the Operations the
    pass creates follow them. *)
Theorem existing_operations_untouched fuel existing h existing' h' :
  createOperations fuel existing context h = Some (existing', h') →
  ∃ created, h' = h ++ created.
Proof.
  intros Hrun. exists (drop (length h) h'). apply prefix_of_lookups.
  by eapply pass_framed.
Qed.

(** X9 (lines 31-75, with Operation.addDependency as the specification
    gives it).  The pass keeps the consumer sets the inverse of the
    dependency sets: if, before the pass, b is a dependency of a exactly when
    a is a consumer of b, the same holds of the heap the pass returns, and in
    particular no dependency or consumer names an Operation that does not
    exist. *)
Theorem dependencies_and_consumers_stay_inverse fuel existing h existing' h' :
  linked h →
  createOperations fuel existing context h = Some (existing', h') →
  linked h'.
Proof. apply pass_linked. Qed.

(** X10 (lines 31-75).  The returned set is the given set, in its order,
    followed by Operations that the pass created: nothing is removed or
    reordered and no Operation of an earlier pass is added. *)
Theorem returned_set_adds_only_created fuel existing h existing' h' :
  createOperations fuel existing context h = Some (existing', h') →
  ∃ added, existing' = existing ++ added ∧
           ∀ o, o ∈ added → length h ≤ o < length h'.
Proof.
  intros Hrun.
  apply createOperations_Some in Hrun as (st & withWork & Hsel & _ & -> & ->).
  assert (addsCreated existing h (initialState existing h)) as HI0.
  { split; [done|]. exists []. split; [by rewrite app_nil_r|].
    by intros o ?%elem_of_nil. }
  assert (listed (λ _, True) (initialState existing h)) as Hl0.
  { by intros k l o' ?. }
  destruct (createSelected_keeps context (addsCreated existing h) (λ _, True)
              fuel _ _ _ (resolution_addsCreated context existing h fuel)
              HI0 Hl0 Hsel) as ((_ & added & Hex & Hadded) & _ & _).
  exists added. by rewrite finalize_length.
Qed.

(** X11 (lines 47-51).  With no phase to create or no project selected the
    pass creates nothing: it returns the given set and leaves every
    Operation as it was. *)
Theorem empty_selection_creates_nothing fuel existing h :
  phaseOriginal context = [] ∨ projectSelection context = [] →
  createOperations (S fuel) existing context h = Some (existing, h).
Proof.
  intros Hempty.
  assert (createSelected (S fuel) context (initialState existing h)
          = Some (tt, initialState existing h)) as Hsel.
  { unfold createSelected. destruct Hempty as [-> | ->]; [done|].
    generalize (initialState existing h).
    induction (phaseOriginal context) as [|ph phs IH]; intros st; [done|].
    cbn [forEach]. unfold bind at 1. cbn [forEach]. unfold ret at 1. apply IH. }
  unfold createOperations. by rewrite Hsel.
Qed.

End PassFacts.

Section LoopFacts.
Context `{W : Workspace}.

(** X12 (lines 60-72).  Finalization changes runners only.  Every Operation
    keeps its project, phase, shard, dependencies and consumers; its runner
    is kept when the Operation is in the work set or occurs in no entry of
    the memo; and when it occurs in an entry and is not in the work set, its
    runner becomes a skip runner named after a key whose entry lists it. *)
Theorem finalization_effect withWork memo (h : list Operation) o op :
  h !! o = Some op →
  ∃ op', finalize withWork memo h !! o = Some op' ∧
    project op' = project op ∧ phase op' = phase op ∧ shard op' = shard op ∧
    dependencies op' = dependencies op ∧ consumers op' = consumers op ∧
    (o ∈ withWork → runner op' = runner op) ∧
    ((∀ key ops, (key, ops) ∈ memo → o ∉ ops) → runner op' = runner op) ∧
    (o ∉ withWork → (∃ key ops, (key, ops) ∈ memo ∧ o ∈ ops) →
     ∃ key ops, (key, ops) ∈ memo ∧ o ∈ ops ∧
                runner op' = Some (skipRunner key)).
Proof.
  intros Hop.
  destruct (finalize_lookup_total withWork memo h o op Hop)
    as (op' & Hop' & ? & ? & ? & ? & ? & _).
  exists op'. split_and!; try done.
  - intros Hw. rewrite finalize_keeps in Hop' by done. congruence.
  - intros Hfree. rewrite finalize_untouched in Hop' by done. congruence.
  - intros Hw Hin. by eapply finalize_skip_key.
Qed.

(** X13 (lines 54-58).  Propagation is idempotent: the set it produces
    contains the consumers of all its members, so running the loop again on
    its result adds nothing and returns the same set in the same order. *)
Theorem propagation_is_idempotent fuel (h : list Operation) s r :
  expandConsumers fuel h 0 s = Some r →
  (∀ x y, x ∈ r → y ∈ consumersOf h x → y ∈ r) ∧
  ∀ fuel', length r < fuel' → expandConsumers fuel' h 0 r = Some r.
Proof.
  intros Hrun.
  assert (∀ x y, x ∈ r → y ∈ consumersOf h x → y ∈ r) as Hclosed.
  { intros x y Hx Hy. apply (expandConsumers_spec _ _ _ _ Hrun).
    apply (expandConsumers_spec _ _ _ _ Hrun) in Hx.
    by eapply reachesFrom_step. }
  split; [done|]. intros fuel' Hfuel. apply expandConsumers_closed; [done|lia].
Qed.

(** X14 (lines 231-233).  The memo key separates the package name from the
    phase name: two pairs whose package names contain no semicolon have the
    same key only if they have the same package name and the same phase
    name. *)
Theorem getOperationKey_injective ph pr ph' pr' :
  hasSeparator (packageName pr) = false →
  hasSeparator (packageName pr') = false →
  getOperationKey ph pr = getOperationKey ph' pr' →
  packageName pr = packageName pr' ∧ name ph = name ph'.
Proof. intros Hpr Hpr' Hkey. by apply key_split. Qed.

End LoopFacts.

Section Cycle.
Context `{W : Workspace}.
Variable context : ICreateOperationsContext.

Lemma forEach_None {A} (P : PassState → Prop) (l : list A) (body : A → M unit) x :
  x ∈ l →
  (∀ st, P st → body x st = None) →
  (∀ y st st', P st → body y st = Some (tt, st') → P st') →
  ∀ st, P st → forEach l body st = None.
Proof.
  intros Hin Hnone Hkeep. induction l as [|y l IH]; intros st HP.
  - by apply elem_of_nil in Hin.
  - cbn [forEach]. unfold bind.
    destruct (body y st) as [[[] st1]|] eqn:Hy; [|done].
    apply elem_of_cons in Hin as [<-|Hin].
    + by rewrite Hnone in Hy.
    + apply IH; [done|]. by eapply Hkeep.
Qed.

Lemma createShards_memo pr ph n restore save : ∀ indices operations st l st',
  createShards pr ph n [restore] [save] indices operations st = Some (l, st') →
  allOperations st' = allOperations st.
Proof.
  induction indices as [|shardNo rest IH]; intros operations st l st' Hrun.
  - simpl in Hrun. by run_prim Hrun.
  - cbn [createShards] in Hrun. run_step Hrun.
    rewrite createShard_effect in Hrun0. injection Hrun0 as <- <-.
    by apply IH in Hrun.
Qed.

Section Pair.
Variables (ph : IPhase) (pr : RushConfigurationProject) (n : Z).
Hypothesis names : ∀ ph' pr',
  getOperationKey ph' pr' = getOperationKey ph pr → ph' = ph ∧ pr' = pr.
Hypothesis cyclic : ph ∈ self ph.
Hypothesis sharded : shardsAboveOne (getShards ph pr) = Some n.

Local Abbreviation missing :=
  (λ st, mapGet (getOperationKey ph pr) (allOperations st) = None).

Lemma self_dependent_sharded_steps fuel :
  (∀ st, missing st → getOrCreateOperations fuel context ph pr st = None) ∧
  (∀ ph' pr' st l st',
     missing st →
     getOrCreateOperations fuel context ph' pr' st = Some (l, st') → missing st').
Proof.
  induction fuel as [|fuel [IHnone IHkeep]]; [by split|].
  assert (∀ st, missing st →
            getOrCreateOperations (S fuel) context ph pr st = None) as Hnone.
  { intros st Hmiss. simpl. unfold getOrCreateBody, bind at 1, getMemo.
    rewrite Hmiss, sharded. unfold shardedBranch, bind at 1.
    rewrite createBoundaries_effect. unfold bind at 1.
    rewrite (forEach_None missing (self ph) _ ph); [done|done| | |done].
    - intros st1 Hmiss1. cbn [forEach fst]. unfold bind at 1, wire, bind at 1.
      by rewrite IHnone.
    - intros depPhase st1 st2 Hmiss1 Hloop.
      eapply (wireAll_preserves missing (λ _, True)
                (getOrCreateOperations fuel context)); [| |exact Hmiss1|exact Hloop].
      + intros ph' pr' s l s' Hs Hrun. split; [|done]. by eapply IHkeep.
      + by intros a b s Hs _. }
  split; [done|].
  intros ph' pr' st l st' Hmiss Hrun.
  destruct (decide (getOperationKey ph' pr' = getOperationKey ph pr)) as [Heq|Hne].
  { destruct (names _ _ Heq) as [-> ->]. by rewrite Hnone in Hrun. }
  assert (∀ ph1 pr1 s l1 s', missing s →
            getOrCreateOperations fuel context ph1 pr1 s = Some (l1, s') →
            missing s' ∧ ∀ o, o ∈ l1 → True) as Hrec.
  { intros ph1 pr1 s l1 s' Hs Hr. split; [|done]. by eapply IHkeep. }
  assert (∀ a b s, missing s → True →
            missing (stHeap (addDependencyHeap a b) s)) as Hedge by done.
  simpl in Hrun. unfold getOrCreateBody in Hrun. run_step Hrun.
  destruct (mapGet (getOperationKey ph' pr') (allOperations st)) as [cached|];
    [by run_prim Hrun|].
  destruct (shardsAboveOne (getShards ph' pr')) as [n'|].
  - unfold shardedBranch in Hrun. run_step Hrun.
    rewrite createBoundaries_effect in Hrun0. injection Hrun0 as <- <-.
    do 5 run_step Hrun. cbn [fst snd] in *.
    assert (missing s0) as Hs0.
    { eapply (dependencyLoops_preserve missing); [| | |exact Hrun0|exact Hrun1].
      - intros depPhase s3 s4 HP Hloop.
        eapply (wireAll_preserves missing (λ _, True) _ Hrec Hedge);
          [exact HP|exact Hloop].
      - intros depPhase depProject s3 s4 HP Hloop.
        eapply (wireAll_preserves missing (λ _, True) _ Hrec Hedge);
          [exact HP|exact Hloop].
      - done. }
    apply createShards_memo in Hrun2 as Hmemo.
    simpl. rewrite mapGet_mapSet_ne by done. by rewrite Hmemo.
  - unfold unshardedBranch in Hrun. run_step Hrun.
    rewrite createSingle_effect in Hrun0. injection Hrun0 as <- <-.
    do 3 run_step Hrun.
    eapply (dependencyLoops_preserve missing); [| | |exact Hrun0|exact Hrun1].
    + intros depPhase s3 s4 HP Hloop.
      eapply (wire_preserves missing (λ _, True) _ Hrec Hedge);
        [exact HP|exact Hloop].
    + intros depPhase depProject s3 s4 HP Hloop.
      eapply (wire_preserves missing (λ _, True) _ Hrec Hedge);
        [exact HP|exact Hloop].
    + simpl. by rewrite mapGet_mapSet_ne.
Qed.

End Pair.
End Cycle.

Section CycleFacts.
Context `{W : Workspace}.
Variable context : ICreateOperationsContext.

(** X15 (lines 133-139 and 171).  A pair with more than one shard whose
    phase lists itself among its self dependencies never resolves.  The
    sharded branch writes the memo only after the dependency loops, so the
    resolution of the pair calls itself on a state in which the key is still
    missing; no amount of fuel gives a result.  (The unsharded branch writes
    the memo before its loops, line 189.) *)
Theorem self_dependent_sharded_pair_never_resolves ph pr n st :
  (∀ ph' pr', getOperationKey ph' pr' = getOperationKey ph pr →
              ph' = ph ∧ pr' = pr) →
  ph ∈ self ph →
  getShards ph pr = Some n → (1 < n)%Z →
  mapGet (getOperationKey ph pr) (allOperations st) = None →
  ∀ fuel, getOrCreateOperations fuel context ph pr st = None.
Proof.
  intros Hnames Hcyc Hshards Hn Hmiss fuel.
  apply (self_dependent_sharded_steps context ph pr n Hnames Hcyc); [|done].
  rewrite Hshards. by apply shardsAboveOne_above.
Qed.

End CycleFacts.

Section Owned.
Context `{W : Workspace}.
Variable context : ICreateOperationsContext.

Lemma owned_grow st st' news :
  owned st →
  heap st' = heap st ++ news →
  existingOperations st ⊆ existingOperations st' →
  allOperations st' = allOperations st →
  owned st'.
Proof.
  intros Hown Hheap Hex Hmemo k l Hk. rewrite Hmemo in Hk.
  destruct (Hown k l Hk) as [Hne Hops]. split; [done|].
  intros o Ho. destruct (Hops o Ho) as (op & Hop & Hkey & Hin).
  exists op. split_and!; [|done|by apply Hex].
  rewrite Hheap. by apply lookup_app_l_Some.
Qed.

Lemma owned_edge a b st :
  owned st → owned (stHeap (addDependencyHeap a b) st).
Proof.
  intros Hown k l Hk. destruct (Hown k l Hk) as [Hne Hops]. split; [done|].
  intros o Ho. destruct (Hops o Ho) as (op & Hop & Hkey & Hin).
  exists (afterEdge a b o op). simpl. rewrite addDependencyHeap_lookup, Hop.
  destruct (afterEdge_core a b o op) as (-> & -> & _). done.
Qed.

Lemma owned_memo key l st :
  owned st → l ≠ [] →
  (∀ o, o ∈ l → ∃ op, heap st !! o = Some op ∧
                      getOperationKey (phase op) (project op) = key ∧
                      o ∈ existingOperations st) →
  owned (stMemo key l st).
Proof.
  intros Hown Hne Hl k l'. simpl. destruct (decide (key = k)) as [->|Hk].
  - rewrite mapGet_mapSet_eq. by intros [= <-].
  - rewrite mapGet_mapSet_ne by done. apply Hown.
Qed.

Lemma owned_afterShard ph pr n restore save shardNo st :
  owned st → owned (afterShard ph pr n restore save shardNo st).
Proof.
  intros Hown.
  apply (owned_edge save (length (heap st))
           (stHeap (addDependencyHeap (length (heap st)) restore)
              {| heap := heap st ++ [blankOperation pr ph (Some (shardNo, n))];
                 existingOperations := setAdd (length (heap st)) (existingOperations st);
                 operationsWithWork := setAdd (length (heap st)) (operationsWithWork st);
                 allOperations := allOperations st |})).
  apply owned_edge. eapply (owned_grow st); [done|done|apply setAdd_incl|done].
Qed.

Lemma createShards_owned pr ph n restore save : ∀ indices operations st l st',
  owned st →
  createShards pr ph n [restore] [save] indices operations st = Some (l, st') →
  owned st'.
Proof.
  induction indices as [|shardNo rest IH]; intros operations st l st' Hown Hrun.
  - simpl in Hrun. by run_prim Hrun.
  - cbn [createShards] in Hrun. run_step Hrun.
    rewrite createShard_effect in Hrun0. injection Hrun0 as <- <-.
    eapply IH; [|exact Hrun]. by apply owned_afterShard.
Qed.

Lemma resolution_owned fuel : ∀ ph pr st l st',
  memoInHeap st → owned st →
  getOrCreateOperations fuel context ph pr st = Some (l, st') →
  owned st'.
Proof.
  induction fuel as [|fuel IH]; intros ph pr st l st' Hmemo Hown Hrun; [done|].
  set (P := λ s, memoInHeap s ∧ owned s).
  assert (∀ ph1 pr1 s l1 s', P s →
            getOrCreateOperations fuel context ph1 pr1 s = Some (l1, s') →
            P s' ∧ ∀ o, o ∈ l1 → True) as Hrec.
  { intros ph1 pr1 s l1 s' [Hm Ho] Hr. split; [|done]. split.
    - by destruct (resolution_memoInHeap context fuel _ _ _ _ _ Hm Hr).
    - by eapply IH. }
  assert (∀ a b s, P s → True → P (stHeap (addDependencyHeap a b) s)) as Hedge.
  { intros a b s [Hm Ho] _. split; [by apply listed_edge|by apply owned_edge]. }
  pose proof Hrun as Hall.
  simpl in Hrun. unfold getOrCreateBody in Hrun. run_step Hrun.
  destruct (mapGet (getOperationKey ph pr) (allOperations st)) as [cached|] eqn:Hmiss;
    [by run_prim Hrun|].
  destruct (shardsAboveOne (getShards ph pr)) as [n|] eqn:Hsh.
  - pose proof Hrun as Hbranch.
    apply shardedBranch_effect in Hbranch
      as (m & Hm & _ & Hl & _ & Hsets & (opr & Hopr & Hcr & _) &
          (ops & Hops & Hcs & _) & Hshards); [|done].
    unfold shardedBranch in Hrun. run_step Hrun.
    rewrite createBoundaries_effect in Hrun0. injection Hrun0 as <- <-.
    do 5 run_step Hrun. cbn [fst snd] in *.
    assert (P (afterBoundaries ph pr st)) as HP0.
    { split.
      - eapply listed_longer; [| |exact Hmemo]; [done|].
        rewrite length_afterBoundaries. lia.
      - eapply (owned_grow st _ [restoreOperation ph pr; saveOperation ph pr]);
          [done|simpl; by rewrite <-app_assoc| |done].
        simpl. intros x. rewrite !elem_of_setAdd. tauto. }
    assert (P s0) as [Hm0 Ho0].
    { eapply (dependencyLoops_preserve P); [| |exact HP0|exact Hrun0|exact Hrun1].
      - intros depPhase s3 s4 HP Hloop.
        eapply (wireAll_preserves P (λ _, True) _ Hrec Hedge); [exact HP|exact Hloop].
      - intros depPhase depProject s3 s4 HP Hloop.
        eapply (wireAll_preserves P (λ _, True) _ Hrec Hedge); [exact HP|exact Hloop]. }
    apply createShards_owned in Hrun2; [|done].
    intros k l' Hk'. simpl in Hk'.
    destruct (decide (getOperationKey ph pr = k)) as [<-|Hne];
      [|rewrite mapGet_mapSet_ne in Hk' by done; by apply Hrun2].
    rewrite mapGet_mapSet_eq in Hk'. injection Hk' as <-. rewrite Hl.
    split; [done|]. intros o Ho.
    destruct (Hsets o) as [_ Hex]; [by rewrite Hl|].
    apply elem_of_app in Ho as [Ho|Ho].
    + apply elem_of_cons in Ho as [->|Ho].
      * exists opr. destruct Hcr as (-> & -> & _). done.
      * apply list_elem_of_singleton in Ho as ->.
        exists ops. destruct Hcs as (-> & -> & _). done.
    + apply elem_of_seq in Ho as [Hge Hlt].
      exists (shardOperation ph pr n (length (heap st)) (S (length (heap st)))
                (Z.of_nat (o - m) + 1)).
      split; [|done].
      replace o with (m + (o - m)) at 1 by lia. apply Hshards. lia.
  - unfold unshardedBranch in Hrun. run_step Hrun.
    rewrite createSingle_effect in Hrun0. injection Hrun0 as <- <-.
    do 3 run_step Hrun.
    assert (P (afterSingle context (getOperationKey ph pr) ph pr st)) as HP0.
    { split; [by apply singleHeld_afterSingle|].
      intros k l'. simpl. destruct (decide (getOperationKey ph pr = k)) as [<-|Hne].
      - rewrite mapGet_mapSet_eq. intros [= <-]. split; [done|].
        intros o ->%list_elem_of_singleton.
        exists (singleOperation context (getOperationKey ph pr) ph pr).
        split_and!; [by apply list_lookup_middle| |apply setAdd_self].
        unfold singleOperation. by destruct (outOfScope context ph pr).
      - rewrite mapGet_mapSet_ne by done. intros Hk.
        destruct (Hown k l' Hk) as [Hnil Hops]. split; [done|].
        intros o Ho. destruct (Hops o Ho) as (op & Hop & Hkey & Hex).
        exists op. split_and!; [by apply lookup_app_l_Some|done|].
        by apply setAdd_incl. }
    assert (P s0) as [_ Hown0]; [|done].
    eapply (dependencyLoops_preserve P); [| |exact HP0|exact Hrun0|exact Hrun1].
    + intros depPhase s3 s4 HP Hloop.
      eapply (wire_preserves P (λ _, True) _ Hrec Hedge); [exact HP|exact Hloop].
    + intros depPhase depProject s3 s4 HP Hloop.
      eapply (wire_preserves P (λ _, True) _ Hrec Hedge); [exact HP|exact Hloop].
Qed.

End Owned.

Section Establish.
Context `{W : Workspace}.

Lemma forEach_establishes {A} (P Q : PassState → Prop) (l : list A)
    (body : A → M unit) x :
  (∀ y s s', P s → body y s = Some (tt, s') → P s') →
  (∀ s s', P s → body x s = Some (tt, s') → Q s') →
  (∀ y s s', P s → Q s → body y s = Some (tt, s') → Q s') →
  ∀ st u st', x ∈ l ∨ Q st → P st → forEach l body st = Some (u, st') →
  P st' ∧ Q st'.
Proof.
  intros HP Hx HQ. induction l as [|y l IH]; intros st u st' Hor HPst Hrun.
  - simpl in Hrun. run_prim Hrun. destruct Hor as [Hin|Hq]; [|done].
    by apply elem_of_nil in Hin.
  - cbn [forEach] in Hrun. run_step Hrun. destruct a.
    eapply IH; [|by eapply HP|exact Hrun].
    destruct Hor as [[->|Hin]%elem_of_cons|Hq].
    + right. by eapply Hx.
    + by left.
    + right. by eapply HQ.
Qed.

End Establish.

Section Complete.
Context `{W : Workspace}.
Variable context : ICreateOperationsContext.

Local Abbreviation ready := (λ s : PassState, memoInHeap s ∧ owned s).

Lemma resolution_ready fuel ph pr st l st' :
  ready st → getOrCreateOperations fuel context ph pr st = Some (l, st') →
  ready st' ∧ stableSince st st' ∧
  is_Some (mapGet (getOperationKey ph pr) (allOperations st')).
Proof.
  intros [Hm Ho] Hrun.
  destruct (resolution_memoInHeap context fuel _ _ _ _ _ Hm Hrun) as (Hm' & Hst & _).
  split; [split; [done|]|split; [done|]].
  { eapply resolution_owned; [exact Hm|exact Ho|exact Hrun]. }
  rewrite (resolution_memoises context _ _ _ _ _ _ Hm Hrun). by eexists.
Qed.

Lemma createSelected_covers fuel st u st' ph pr :
  ready st → createSelected fuel context st = Some (u, st') →
  ph ∈ phaseOriginal context → pr ∈ projectSelection context →
  ready st' ∧ is_Some (mapGet (getOperationKey ph pr) (allOperations st')).
Proof.
  intros Hready Hrun Hph Hpr. unfold createSelected in Hrun.
  set (Q := λ s, is_Some (mapGet (getOperationKey ph pr) (allOperations s))).
  set (inner := λ ph', λ pr', bind (getOrCreateOperations fuel context ph' pr') (λ _, ret tt)).
  assert (∀ ph' pr' s s', ready s → inner ph' pr' s = Some (tt, s') → ready s') as Hkeep.
  { intros ph' pr' s s' Hs Hr. unfold inner in Hr. run_step Hr. run_prim Hr.
    by destruct (resolution_ready _ _ _ _ _ _ Hs Hrun0). }
  assert (∀ ph' pr' s s', ready s → Q s → inner ph' pr' s = Some (tt, s') → Q s')
    as HkeepQ.
  { intros ph' pr' s s' Hs [l Hl] Hr. unfold inner in Hr. run_step Hr. run_prim Hr.
    destruct (resolution_ready _ _ _ _ _ _ Hs Hrun0) as (_ & (_ & _ & _ & Hkeys) & _).
    exists l. by apply Hkeys. }
  assert (∀ s s', ready s → inner ph pr s = Some (tt, s') → Q s') as Hset.
  { intros s s' Hs Hr. unfold inner in Hr. run_step Hr. run_prim Hr.
    by destruct (resolution_ready _ _ _ _ _ _ Hs Hrun0) as (_ & _ & ?). }
  eapply (forEach_establishes ready Q (phaseOriginal context) _ ph);
    [| | | |exact Hready|exact Hrun]; [| | |by left].
  - intros ph' s s' Hs Hr.
    apply (forEach_invariant ready _ _ _ _ _ Hr Hs).
    intros pr' s1 s2 _. apply Hkeep.
  - intros s s' Hs Hr.
    by eapply (forEach_establishes ready Q (projectSelection context) _ pr);
      [apply Hkeep|apply Hset|apply HkeepQ|left|exact Hs|exact Hr].
  - intros ph' s s' Hs Hq Hr.
    apply (forEach_invariant (λ s0, ready s0 ∧ Q s0) _ _ _ _ _ Hr); [done|].
    intros pr' s1 s2 _ [Hs1 Hq1] Hstep. split; [by eapply Hkeep|by eapply HkeepQ].
Qed.

End Complete.

Section CompleteFacts.
Context `{W : Workspace}.
Variable context : ICreateOperationsContext.

Lemma createSelected_ready fuel existing h st :
  createSelected fuel context (initialState existing h) = Some (tt, st) →
  memoInHeap st ∧ owned st ∧ framed h st ∧ listed (λ o, length h ≤ o) st ∧
  ∀ ph pr, ph ∈ phaseOriginal context → pr ∈ projectSelection context →
           is_Some (mapGet (getOperationKey ph pr) (allOperations st)).
Proof.
  intros Hsel.
  assert (memoInHeap (initialState existing h) ∧ owned (initialState existing h))
    as Hready by (by split; intros k l ?).
  assert (framed h (initialState existing h)) as HI0.
  { split; [done|]. simpl. constructor. }
  assert (listed (λ o, length h ≤ o) (initialState existing h)) as Hl0.
  { by intros k l o' ?. }
  destruct (createSelected_keeps context (framed h) (λ o, length h ≤ o)
              fuel _ _ _ (resolution_framed context h fuel) HI0 Hl0 Hsel)
    as (Hframed & Hlisted & _).
  assert (memoInHeap st ∧ owned st) as [Hm Ho].
  { apply (forEach_invariant (λ s, memoInHeap s ∧ owned s) _ _ _ _ _ Hsel Hready).
    intros ph s1 s2 _ Hs1 Hrun1.
    apply (forEach_invariant (λ s, memoInHeap s ∧ owned s) _ _ _ _ _ Hrun1 Hs1).
    intros pr s3 s4 _ Hs3 Hrun2. run_step Hrun2. run_prim Hrun2.
    by destruct (resolution_ready context _ _ _ _ _ _ Hs3 Hrun). }
  split_and!; [done..|]. intros ph pr Hph Hpr.
  by destruct (createSelected_covers context fuel _ _ _ ph pr Hready Hsel Hph Hpr).
Qed.

(** X16 (lines 47-51 and 77-216).  Every selected pair is represented in
    the result: for each phase of phaseOriginal and each project of
    projectSelection the returned set contains an Operation created in this
    pass whose project and phase give the key of the pair. *)
Theorem selected_pairs_are_created fuel existing h existing' h' ph pr :
  createOperations fuel existing context h = Some (existing', h') →
  ph ∈ phaseOriginal context → pr ∈ projectSelection context →
  ∃ o op, length h ≤ o ∧ o ∈ existing' ∧ h' !! o = Some op ∧
          getOperationKey (phase op) (project op) = getOperationKey ph pr.
Proof.
  intros Hrun Hph Hpr.
  apply createOperations_Some in Hrun as (st & withWork & Hsel & _ & -> & ->).
  destruct (createSelected_ready _ _ _ _ Hsel) as (_ & Hown & _ & Hlisted & Hcov).
  destruct (Hcov ph pr Hph Hpr) as [l Hl].
  destruct (Hown _ _ Hl) as [Hne Hops].
  destruct l as [|o l]; [done|].
  destruct (Hops o) as (op & Hop & Hkey & Hex); [apply list_elem_of_here|].
  destruct (Hlisted _ _ o Hl) as [_ Hge]; [apply list_elem_of_here|].
  destruct (finalize_lookup_total withWork (allOperations st) _ _ _ Hop)
    as (op' & Hop' & Hp & Hph' & _).
  exists o, op'. split_and!; [done..|]. by rewrite Hp, Hph'.
Qed.

(** X17 (lines 60-72 and 178-184).  A skip runner is named after the pair
    of its own Operation: whenever an Operation created in the pass is
    returned with a skip runner, the name of that runner is the key of the
    project and phase of the Operation. *)
Theorem skip_runner_named_after_own_key fuel existing h existing' h' o op key :
  createOperations fuel existing context h = Some (existing', h') →
  length h ≤ o → h' !! o = Some op →
  runner op = Some (skipRunner key) →
  key = getOperationKey (phase op) (project op).
Proof.
  intros Hrun Ho Hop Hskip.
  apply createOperations_Some in Hrun as (st & withWork & Hsel & _ & -> & ->).
  destruct (createSelected_ready _ _ _ _ Hsel) as (_ & Hown & [_ Hnd] & _ & _).
  destruct (createSelected_Inv context h fuel existing _ _ Hsel) as [HI _].
  destruct (finalize_lookup _ _ _ _ _ Hop) as (op0 & Hop0 & Hp & Hph & _).
  rewrite Hp, Hph.
  assert (runner op0 = Some (skipRunner key) →
          key = getOperationKey (phase op0) (project op0)) as Hbuilt.
  { intros Hr. pose proof (inv_class _ _ _ HI o op0 Ho Hop0) as Hclass.
    unfold classified in Hclass. destruct (shardedPair op0).
    - destruct Hclass as [_ Hclass]. destruct (shard op0).
      + congruence.
      + destruct Hclass as [name Hname]. by rewrite Hr in Hname.
    - destruct Hclass as [_ Hclass].
      destruct (outOfScope context (phase op0) (project op0)).
      + rewrite Hr in Hclass. by injection Hclass as ->.
      + destruct Hclass as [Hnone _]. congruence. }
  destruct (decide (o ∈ withWork)) as [Hw|Hw].
  { rewrite finalize_keeps in Hop by done. apply Hbuilt. congruence. }
  destruct (decide (Exists (λ entry, o ∈ entry.2) (allOperations st))) as [Hin|Hout].
  - apply Exists_exists in Hin as ([key' ops] & Hin & Hops). simpl in Hops.
    destruct (finalize_skip_key withWork (allOperations st) (heap st) o op Hw)
      as (key1 & ops1 & Hin1 & Hops1 & Hr1); [by exists key', ops|done|].
    rewrite Hskip in Hr1. injection Hr1 as ->.
    apply (mapGet_of_elem _ _ _ Hnd) in Hin1.
    destruct (Hown _ _ Hin1) as [_ Hall].
    destruct (Hall o Hops1) as (op1 & Hop1 & Hkey & _). congruence.
  - rewrite finalize_untouched in Hop.
    + apply Hbuilt. congruence.
    + intros key' ops Hin Hops. apply Hout. apply Exists_exists.
      by exists (key', ops).
Qed.

End CompleteFacts.

Section SelfEdge.
Context `{W : Workspace}.
Variable context : ICreateOperationsContext.

Lemma selfEdge_edge a b o st :
  selfEdge o st → selfEdge o (stHeap (addDependencyHeap a b) st).
Proof.
  intros (op & Hop & Hd & Hc). exists (afterEdge a b o op). simpl.
  rewrite addDependencyHeap_lookup, Hop. split_and!; [done| |].
  - apply afterEdge_dependencies. by left.
  - apply afterEdge_consumers. by left.
Qed.

Lemma selfEdge_stable o st st' :
  stableSince st st' → selfEdge o st → selfEdge o st'.
Proof.
  intros [Hops _] (op & Hop & Hd & Hc).
  destruct (Hops o op Hop) as (op' & Hop' & _ & _ & _ & _ & Hd' & Hc').
  exists op'. split_and!; [done| |by apply Hc']. by rewrite Hd'.
Qed.

(** X18 (lines 189 and 196-198).  An unsharded pair whose phase lists
    itself among its self dependencies becomes its own dependency: the memo
    is written before the dependency loops, so the nested resolution of the
    pair is answered from the memo with the Operation itself, and the
    Operation is added to its own dependency set and consumer set. *)
Theorem self_dependent_unsharded_pair_depends_on_itself fuel ph pr st l st' :
  memoInHeap st →
  mapGet (getOperationKey ph pr) (allOperations st) = None →
  shardsAboveOne (getShards ph pr) = None →
  ph ∈ self ph →
  getOrCreateOperations fuel context ph pr st = Some (l, st') →
  ∃ op, heap st' !! length (heap st) = Some op ∧
        length (heap st) ∈ dependencies op ∧
        length (heap st) ∈ consumers op.
Proof.
  intros Hmemo Hmiss Hun Hcyc Hrun. destruct fuel as [|fuel]; [done|].
  simpl in Hrun. unfold getOrCreateBody in Hrun. run_step Hrun.
  rewrite Hmiss, Hun in Hrun.
  unfold unshardedBranch in Hrun. run_step Hrun.
  rewrite createSingle_effect in Hrun0. injection Hrun0 as <- <-.
  do 3 run_step Hrun.
  set (key := getOperationKey ph pr) in *. set (o := length (heap st)) in *.
  set (P := singleHeld context key ph pr o).
  set (Q := selfEdge o).
  pose proof (singleHeld_afterSingle context key ph pr st Hmemo) as HP0. fold o P in HP0.
  assert (∀ ph1 pr1 t0 l1 s', P t0 ∧ Q t0 →
            getOrCreateOperations fuel context ph1 pr1 t0 = Some (l1, s') →
            (P s' ∧ Q s') ∧ ∀ x, x ∈ l1 → True) as Hrec.
  { intros ph1 pr1 t0 l1 s' [Hp Hq] Hr. split; [|done]. split.
    - by destruct (rec_singleHeld context fuel key ph pr o _ _ _ _ _ Hp Hr).
    - destruct Hp as [Hm _].
      destruct (resolution_memoInHeap context fuel _ _ _ _ _ Hm Hr) as (_ & Hst & _).
      by eapply selfEdge_stable. }
  assert (∀ x y t0, P t0 ∧ Q t0 → True →
            P (stHeap (addDependencyHeap x y) t0) ∧
            Q (stHeap (addDependencyHeap x y) t0)) as Hedge.
  { intros x y t0 [Hp Hq] _. split; [by apply edge_singleHeld|by apply selfEdge_edge]. }
  assert (P s ∧ Q s) as Hs.
  { eapply (forEach_establishes P Q (self ph) _ ph);
      [| | | |exact HP0|exact Hrun0]; [| | |by left].
    - intros depPhase s1 s2 Hp Hw.
      eapply (wire_preserves P (λ _, True)); [| |exact Hp|exact Hw].
      + intros ph1 pr1 s3 l1 s4. apply rec_singleHeld.
      + intros x y s3 Hp3 _. by apply edge_singleHeld.
    - intros s1 s2 Hp Hw. unfold wire in Hw. run_step Hw.
      destruct Hp as (_ & (op & Hop & _) & Hkey & _).
      destruct fuel as [|fuel']; [done|].
      match goal with
      | H : getOrCreateOperations _ _ _ _ s1 = Some _ |- _ => rename H into Hnested
      end.
      rewrite (getOrCreateOperations_hit context fuel' ph pr s1 [o] Hkey) in Hnested.
      injection Hnested as <- <-. cbn [forEach] in Hw. do 2 run_step Hw.
      exists (afterEdge o o o op). simpl. rewrite addDependencyHeap_lookup, Hop.
      split_and!; [done| |].
      + apply afterEdge_dependencies. by right.
      + apply afterEdge_consumers. by right.
    - intros depPhase s1 s2 Hp Hq Hw.
      eapply (wire_preserves (λ t0, P t0 ∧ Q t0) (λ _, True) _ Hrec Hedge);
        [|exact Hw]. done. }
  assert (P s0 ∧ Q s0) as [_ Hq]; [|exact Hq].
  destruct (bool_decide (upstream ph ≠ [])); [|by run_prim Hrun1].
  destruct (bool_decide (dependencyProjects pr ≠ [])); [|by run_prim Hrun1].
  apply (forEach_invariant (λ s1, P s1 ∧ Q s1) _ _ _ _ _ Hrun1 Hs).
  intros depPhase s1 s2 _ Hs1 Hloop.
  apply (forEach_invariant (λ s1, P s1 ∧ Q s1) _ _ _ _ _ Hloop Hs1).
  intros depProject s3 s4 _ Hs3 Hw.
  eapply (wire_preserves (λ t0, P t0 ∧ Q t0) (λ _, True) _ Hrec Hedge);
    [exact Hs3|exact Hw].
Qed.

End SelfEdge.

Section UniqueFacts.
Context `{W : Workspace}.
Variable context : ICreateOperationsContext.

(** X19 (lines 81-84 and 189).  A pass creates at most one Operation for
    an unsharded pair: when package names and phase names identify the
    pairs, two Operations created in the pass with the same project and
    phase, for which no shard count above 1 is configured, are the same
    Operation, however often and along whatever dependencies the pair was
    resolved. *)
Theorem unsharded_pair_has_one_operation
    fuel existing h existing' h' o1 o2 op1 op2 :
  keysIdentifyPairs →
  createOperations fuel existing context h = Some (existing', h') →
  length h ≤ o1 → length h ≤ o2 →
  h' !! o1 = Some op1 → h' !! o2 = Some op2 →
  project op1 = project op2 → phase op1 = phase op2 →
  shardsAboveOne (getShards (phase op1) (project op1)) = None →
  o1 = o2.
Proof.
  intros Hkeys Hrun Ho1 Ho2 Hop1 Hop2 Hp Hph Hun.
  apply createOperations_Some in Hrun as (st & withWork & Hsel & _ & -> & ->).
  destruct (createSelected_Inv context h fuel existing _ _ Hsel) as [HI _].
  destruct (finalize_lookup _ _ _ _ _ Hop1) as (a & Ha & Hpa & Hpha & _).
  destruct (finalize_lookup _ _ _ _ _ Hop2) as (b & Hb & Hpb & Hphb & _).
  pose proof (inv_cover _ _ _ HI Hkeys o1 a Ho1 Ha) as H1.
  pose proof (inv_cover _ _ _ HI Hkeys o2 b Ho2 Hb) as H2.
  unfold shardedPair in H1, H2.
  rewrite <-Hpa, <-Hpha in H1. rewrite <-Hpb, <-Hphb, <-Hp, <-Hph in H2.
  specialize (H1 Hun). specialize (H2 Hun). congruence.
Qed.

End UniqueFacts.

(** ** The claims on the concrete workspace *)

Module DemoFacts.
Import Demo.

Lemma keys_identify_pairs : keysIdentifyPairs.
Proof.
  apply keysIdentifyPairs_of_names.
  - by intros [] [] Hname; try discriminate Hname.
  - by intros [].
Qed.

Lemma workspace_ranked : ranked rank.
Proof.
  split.
  - intros ph pr depPhase Hdep%list_elem_of_In.
    destruct ph, pr; simpl in Hdep; try tauto;
      destruct Hdep as [<-|[]]; vm_compute; lia.
  - intros ph pr depPhase depProject Hph%list_elem_of_In Hpr%list_elem_of_In.
    destruct ph, pr; simpl in Hph, Hpr; try tauto;
      destruct Hph as [<-|[]], Hpr as [<-|[]]; vm_compute; lia.
Qed.

Lemma bundleC_pass :
  createOperations 10 [] bundleC [] = Some (bundleCSet, bundleCHeap).
Proof. vm_compute. reflexivity. Qed.

Lemma buildTestA_selected :
  createSelected 3 buildTestA (initialState [] []) = Some (tt, buildTestASelected).
Proof. vm_compute. reflexivity. Qed.

Lemma buildTestA_work :
  expandConsumers 3 (heap buildTestASelected) 0 (operationsWithWork buildTestASelected)
    = Some buildTestAWork.
Proof. vm_compute. reflexivity. Qed.

Lemma buildBA_selected :
  createSelected 3 buildBA (initialState [] []) = Some (tt, buildBASelected).
Proof. vm_compute. reflexivity. Qed.

Lemma buildBA_work :
  expandConsumers 3 (heap buildBASelected) 0 (operationsWithWork buildBASelected)
    = Some buildBAWork.
Proof. vm_compute. reflexivity. Qed.

Lemma out_of_scope_unsharded_ends_skipped_witness :
  createOperations 10 [] bundleC [] = Some (bundleCSet, bundleCHeap) ∧
  bundleCHeap !! 2 = Some buildOfB ∧
  outOfScope bundleC (phase buildOfB) (project buildOfB) = true ∧
  shardsAboveOne (getShards (phase buildOfB) (project buildOfB)) = None ∧
  ∃ key, runner buildOfB = Some (NullOperationRunner key Skipped true) ∧
         fixedResult (NullOperationRunner key Skipped true) = Some Skipped.
Proof.
  assert (bundleCHeap !! 2 = Some buildOfB) as Hop by reflexivity.
  assert (outOfScope bundleC (phase buildOfB) (project buildOfB) = true)
    as Hscope by reflexivity.
  assert (shardsAboveOne (getShards (phase buildOfB) (project buildOfB)) = None)
    as Hun by (vm_compute; reflexivity).
  do 4 (split; [first [apply bundleC_pass|done]|]).
  apply (out_of_scope_unsharded_ends_skipped 10 [] bundleC [] bundleCSet bundleCHeap 2
           buildOfB bundleC_pass (Nat.le_0_l 2) Hop Hscope Hun).
Defined.

(** C1 as first stated, at a sharded pair: in the pass that bundles c,
    project b is outside the project selection and its bundle phase has three
    shards.  The Operations of a sharded pair are registered as having work
    whatever the scope (lines 124-125 and 167), so finalization leaves them
    alone: the restore node created for the pair ends with its cache-boundary
    runner, which reports Success, and the first shard ends without a runner;
    neither ends with the skip strategy. *)
Lemma out_of_scope_sharded_not_skipped :
  createOperations 10 [] bundleC [] = Some (bundleCSet, bundleCHeap) ∧
  bundleCHeap !! 4 = Some restoreOfB ∧
  bundleCHeap !! 7 = Some firstShardOfB ∧
  getShards Bundle ProjB = Some 3%Z ∧
  outOfScope bundleC Bundle ProjB = true ∧
  fixedResult <$> runner restoreOfB = Some (Some Success) ∧
  ¬ isSkip (runner restoreOfB) ∧
  ¬ isSkip (runner firstShardOfB).
Proof.
  split_and!; try (vm_compute; reflexivity).
  - by intros (key & s & Hr).
  - by intros (key & s & Hr).
Qed.

Lemma out_of_scope_with_work_keeps_skip_witness :
  createSelected 3 buildTestA (initialState [] []) = Some (tt, buildTestASelected) ∧
  expandConsumers 3 (heap buildTestASelected) 0 (operationsWithWork buildTestASelected)
    = Some buildTestAWork ∧
  heap buildTestASelected !! 1 = Some testOfA ∧
  outOfScope buildTestA (phase testOfA) (project testOfA) = true ∧
  shardsAboveOne (getShards (phase testOfA) (project testOfA)) = None ∧
  operationsWithWork buildTestASelected = [0] ∧
  buildTestAWork = [0; 1] ∧
  createOperations 3 [] buildTestA [] =
    Some (existingOperations buildTestASelected,
          finalize buildTestAWork (allOperations buildTestASelected)
            (heap buildTestASelected)) ∧
  runner testOfA = Some (skipRunner (getOperationKey (phase testOfA) (project testOfA))) ∧
  finalize buildTestAWork (allOperations buildTestASelected) (heap buildTestASelected) !! 1
    = Some testOfA ∧
  fixedResult (skipRunner (getOperationKey (phase testOfA) (project testOfA)))
    = Some Skipped.
Proof.
  assert (heap buildTestASelected !! 1 = Some testOfA) as Hop by reflexivity.
  assert (outOfScope buildTestA (phase testOfA) (project testOfA) = true)
    as Hscope by reflexivity.
  assert (shardsAboveOne (getShards (phase testOfA) (project testOfA)) = None)
    as Hun by (vm_compute; reflexivity).
  assert (1 ∈ buildTestAWork) as Hin by (repeat constructor).
  do 7 (split; [first [apply buildTestA_selected|apply buildTestA_work|done]|]).
  apply (out_of_scope_with_work_keeps_skip 3 [] buildTestA [] buildTestASelected
           buildTestAWork 1 testOfA buildTestA_selected buildTestA_work
           (Nat.le_0_l 1) Hop Hscope Hun Hin).
Defined.

(** C3 as stated fails: the build of the changed project a is registered
    as having work and is returned without a runner. *)
Lemma operation_with_work_has_no_runner :
  createOperations 2 [] buildA [] = Some ([0], [buildOfA]) ∧
  runner buildOfA = None.
Proof. split; [vm_compute; reflexivity|reflexivity]. Qed.

Lemma created_operations_strategy_witness :
  createSelected 3 buildBA (initialState [] []) = Some (tt, buildBASelected) ∧
  expandConsumers 3 (heap buildBASelected) 0 (operationsWithWork buildBASelected)
    = Some buildBAWork ∧
  finalize buildBAWork (allOperations buildBASelected) (heap buildBASelected) !! 0
    = Some skippedBuildOfB ∧
  createOperations 3 [] buildBA [] =
    Some (existingOperations buildBASelected,
          finalize buildBAWork (allOperations buildBASelected) (heap buildBASelected)) ∧
  0 ∈ existingOperations buildBASelected ∧
  match shardsAboveOne (getShards (phase skippedBuildOfB) (project skippedBuildOfB)) with
  | Some _ =>
      0 ∈ buildBAWork ∧
      match shard skippedBuildOfB with
      | None => boundaryRunner (runner skippedBuildOfB)
      | Some _ => runner skippedBuildOfB = None
      end
  | None =>
      if outOfScope buildBA (phase skippedBuildOfB) (project skippedBuildOfB)
      then isSkip (runner skippedBuildOfB)
      else if decide (0 ∈ buildBAWork) then runner skippedBuildOfB = None
           else isSkip (runner skippedBuildOfB)
  end.
Proof.
  assert (finalize buildBAWork (allOperations buildBASelected) (heap buildBASelected) !! 0
          = Some skippedBuildOfB) as Hop by reflexivity.
  do 3 (split; [first [apply buildBA_selected|apply buildBA_work|done]|]).
  apply (created_operations_strategy 3 [] buildBA [] buildBASelected buildBAWork 0
           skippedBuildOfB keys_identify_pairs buildBA_selected buildBA_work
           (Nat.le_0_l 0) Hop).
Defined.

Lemma returned_set_is_superset_witness :
  createOperations 5 [0; 1; 2] buildA chainHeap = Some ([0; 1; 2; 3], chainPassHeap) ∧
  (∀ o, o ∈ [0; 1; 2] → o ∈ [0; 1; 2; 3]) ∧
  (∀ o, length chainHeap ≤ o → o < length chainPassHeap → o ∈ [0; 1; 2; 3]).
Proof.
  assert (createOperations 5 [0; 1; 2] buildA chainHeap
          = Some ([0; 1; 2; 3], chainPassHeap)) as Hpass by (vm_compute; reflexivity).
  split; [done|].
  apply (returned_set_is_superset 5 [0; 1; 2] buildA chainHeap _ _ Hpass).
Defined.

Lemma propagation_is_transitive_closure_witness :
  NoDup [0] ∧
  expandConsumers 4 chainHeap 0 [0] = Some [0; 1; 2] ∧
  (∃ r, expandConsumers (S (length ([0] ++ allConsumers chainHeap))) chainHeap 0 [0]
        = Some r) ∧
  (∀ x, x ∈ [0; 1; 2] ↔ x ∈ [0] ∨ ∃ y, y ∈ [0] ∧ tc (consumerEdge chainHeap) y x).
Proof.
  assert (NoDup [0]) as Hnd by (repeat constructor; by intros ?%elem_of_nil).
  assert (expandConsumers 4 chainHeap 0 [0] = Some [0; 1; 2]) as Hrun
    by (vm_compute; reflexivity).
  destruct (propagation_is_transitive_closure chainHeap [0]) as [Hends Hclosure].
  split_and!; [done|done|by apply Hends|by apply (Hclosure 4 [0; 1; 2] Hrun)].
Defined.

Lemma unsharded_branch_condition_witness :
  mapGet (getOperationKey Build ProjA) (allOperations emptyState) = None ∧
  tryLoadForProjectAsync ProjA = None ∧
  getShards Build ProjA = None ∧
  getOrCreateOperations 1 buildA Build ProjA emptyState =
    unshardedBranch buildA (getOrCreateOperations 0 buildA)
      (getOperationKey Build ProjA) Build ProjA [] emptyState.
Proof.
  assert (mapGet (getOperationKey Build ProjA) (allOperations emptyState) = None)
    as Hmiss by reflexivity.
  assert (tryLoadForProjectAsync ProjA = None) as Hload by reflexivity.
  destruct (unsharded_branch_condition buildA 0 Build ProjA emptyState Hmiss)
    as (_ & _ & Hnone & _).
  split_and!; [done|done|by apply Hnone..].
Defined.

Lemma addDependency_bookkeeping_witness :
  createOperations 3 [] buildTestA [] = Some ([0; 1], buildTestAHeap) ∧
  (∃ opa, addDependencyHeap 2 0 chainHeap !! 2 = Some opa ∧ 0 ∈ dependencies opa) ∧
  (∃ opb, addDependencyHeap 2 0 chainHeap !! 0 = Some opb ∧ 2 ∈ consumers opb) ∧
  addDependencyHeap 2 0 (addDependencyHeap 2 0 chainHeap)
    = addDependencyHeap 2 0 chainHeap ∧
  (∀ o op c, buildTestAHeap !! o = Some op → c ∈ consumers op →
     (∃ op0, ([] : list Operation) !! o = Some op0 ∧ c ∈ consumers op0) ∨
     (∃ cop, buildTestAHeap !! c = Some cop ∧ o ∈ dependencies cop)).
Proof.
  assert (createOperations 3 [] buildTestA [] = Some ([0; 1], buildTestAHeap))
    as Hpass by (vm_compute; reflexivity).
  assert (2 < length chainHeap) as Ha by (simpl; lia).
  assert (0 < length chainHeap) as Hb by (simpl; lia).
  split; [done|].
  apply (addDependency_bookkeeping chainHeap 2 0 3 [] buildTestA [] _ _ Ha Hb Hpass).
Defined.

(** The same defect seen from the caller: b depends on a, build is
    requested for b and a in this order and only a changed.  The build of a
    is resolved first as the upstream dependency of the build of b and
    returns the empty list, so no edge is added, propagation never reaches
    the build of b, and finalization skips it. *)
Lemma consumer_of_changed_project_skipped :
  createOperations 3 [] buildBA [] = Some ([0; 1], [skippedBuildOfB; buildOfA]) ∧
  dependencyProjects ProjB = [ProjA] ∧ upstream Build = [Build] ∧
  dependencies skippedBuildOfB = [] ∧ consumers buildOfA = [] ∧
  isSkip (runner skippedBuildOfB) ∧ runner buildOfA = None.
Proof.
  split_and!; try (vm_compute; reflexivity). by eexists _, _.
Qed.

(** C4, at the build of project a with an empty memo: the first resolution
    returns the empty list, the second one the memoised list. *)
Lemma second_resolution_returns_another_list :
  getOrCreateOperations 1 buildA Build ProjA emptyState = Some ([], afterBuildA) ∧
  getOrCreateOperations 1 buildA Build ProjA afterBuildA = Some ([0], afterBuildA).
Proof. split; vm_compute; reflexivity. Qed.

(** C5, at the build of project a, which has no shard count: the
    resolution creates one Operation, memoises it and returns none. *)
Lemma unsharded_resolution_returns_no_operation :
  getShards Build ProjA = None ∧
  getOrCreateOperations 1 buildA Build ProjA emptyState = Some ([], afterBuildA) ∧
  heap afterBuildA = [buildOfA] ∧
  mapGet (getOperationKey Build ProjA) (allOperations afterBuildA) = Some [0].
Proof. split_and!; vm_compute; reflexivity. Qed.

(** C6, at the bundle of project b (three shards) with an empty memo: the
    build of b, resolved as the self dependency, and the bundle of a, resolved
    as the upstream dependency, are created but become dependencies of neither
    the restore node nor the save node; the shards do depend on the restore
    node and the save node on the shards. *)
Lemma boundaries_miss_resolved_dependencies :
  getOrCreateOperations 3 bundleB Bundle ProjB emptyState
    = Some ([0; 1; 5; 6; 7], afterBundleB) ∧
  self Bundle = [Build] ∧ upstream Bundle = [Bundle] ∧
  dependencyProjects ProjB = [ProjA] ∧
  mapGet (getOperationKey Build ProjB) (allOperations afterBundleB) = Some [2] ∧
  mapGet (getOperationKey Bundle ProjA) (allOperations afterBundleB) = Some [4] ∧
  dependencies <$> heap afterBundleB !! 0 = Some [] ∧
  dependencies <$> heap afterBundleB !! 1 = Some [5; 6; 7] ∧
  dependencies <$> heap afterBundleB !! 5 = Some [0] ∧
  dependencies <$> heap afterBundleB !! 6 = Some [0] ∧
  dependencies <$> heap afterBundleB !! 7 = Some [0].
Proof. split_and!; vm_compute; reflexivity. Qed.

End DemoFacts.

(** ** The further properties on the concrete workspaces *)

Module ExtraFacts.
Import Demo Scenarios.

Lemma memoInHeap_emptyState : memoInHeap emptyState.
Proof. by intros k l o ?. Qed.

Lemma memoInHeap_chainState : memoInHeap chainState.
Proof. by intros k l o ?. Qed.

Lemma memoInHeap_afterBuildA : memoInHeap afterBuildA.
Proof.
  intros k l o Hk Ho. simpl in Hk. case_decide; [|done].
  injection Hk as <-. apply list_elem_of_singleton in Ho as ->. simpl. split; [lia|done].
Qed.

Lemma createOperations_returns_witness :
  ranked rank ∧
  ∃ fuel0 result, ∀ fuel,
    fuel0 ≤ fuel → createOperations fuel [] bundleC [] = Some result.
Proof.
  split; [exact DemoFacts.workspace_ranked|].
  exact (createOperations_returns bundleC rank [] [] DemoFacts.workspace_ranked).
Defined.

Lemma existing_operations_untouched_witness :
  createOperations 5 [0; 1; 2] buildA chainHeap = Some ([0; 1; 2; 3], chainPassHeap) ∧
  ∃ created, chainPassHeap = chainHeap ++ created.
Proof.
  assert (createOperations 5 [0; 1; 2] buildA chainHeap
          = Some ([0; 1; 2; 3], chainPassHeap)) as Hpass by (vm_compute; reflexivity).
  split; [done|].
  exact (existing_operations_untouched buildA 5 [0; 1; 2] chainHeap _ _ Hpass).
Defined.

Lemma resolution_only_adds_witness :
  getOrCreateOperations 2 buildBA Build ProjB afterBuildA = Some ([], afterBuildAB) ∧
  stableSince afterBuildA afterBuildAB ∧ memoInHeap afterBuildAB ∧
  ∀ o, o ∈ [] → o < length (heap afterBuildAB).
Proof.
  assert (getOrCreateOperations 2 buildBA Build ProjB afterBuildA
          = Some ([], afterBuildAB)) as Hrun by (vm_compute; reflexivity).
  split; [done|].
  exact (resolution_only_adds buildBA 2 Build ProjB afterBuildA _ _
           memoInHeap_afterBuildA Hrun).
Defined.


Lemma resolution_changes_only_memoised_witness :
  getOrCreateOperations 1 buildA Build ProjA chainState
    = Some ([], afterChainBuildA) ∧
  heap afterChainBuildA !! 1 = heap chainState !! 1.
Proof.
  assert (getOrCreateOperations 1 buildA Build ProjA chainState
          = Some ([], afterChainBuildA)) as Hrun by (vm_compute; reflexivity).
  split; [done|].
  apply (resolution_changes_only_memoised buildA 1 Build ProjA chainState _ _ 1
           memoInHeap_chainState Hrun); [simpl; lia|].
  by intros key ops ?.
Defined.

Lemma sharded_resolution_shape_witness :
  getOrCreateOperations 3 bundleB Bundle ProjB emptyState
    = Some ([0; 1; 5; 6; 7], afterBundleB) ∧
  ∃ m,
    1 < m ∧
    [0; 1; 5; 6; 7] = 0 :: 1 :: seq m 3 ∧
    mapGet (getOperationKey Bundle ProjB) (allOperations afterBundleB)
      = Some [0; 1; 5; 6; 7] ∧
    (∀ o, o ∈ [0; 1; 5; 6; 7] →
          o ∈ operationsWithWork afterBundleB ∧ o ∈ existingOperations afterBundleB) ∧
    (∃ op, heap afterBundleB !! 0 = Some op ∧
           project op = ProjB ∧ phase op = Bundle ∧ shard op = None ∧
           runner op = Some (LiteralRunner (sharedConfig "buildCacheRestore"))) ∧
    (∃ op, heap afterBundleB !! 1 = Some op ∧
           project op = ProjB ∧ phase op = Bundle ∧ shard op = None ∧
           runner op = Some (LiteralRunner (sharedConfig "buildCacheSave"))) ∧
    (∀ j, j < 3 →
       ∃ op, heap afterBundleB !! (m + j) = Some op ∧
             project op = ProjB ∧ phase op = Bundle ∧
             shard op = Some ((Z.of_nat j + 1)%Z, 3%Z) ∧ runner op = None).
Proof.
  assert (getOrCreateOperations 3 bundleB Bundle ProjB emptyState
          = Some ([0; 1; 5; 6; 7], afterBundleB)) as Hrun by (vm_compute; reflexivity).
  split; [done|].
  apply (sharded_resolution_shape bundleB 3 Bundle ProjB 3 emptyState _ _
           memoInHeap_emptyState eq_refl eq_refl eq_refl Hrun).
Defined.

Lemma sharded_resolution_wiring_witness :
  getOrCreateOperations 3 bundleB Bundle ProjB emptyState
    = Some ([0; 1; 5; 6; 7], afterBundleB) ∧
  ∃ restoreOp saveOp,
    heap afterBundleB !! 0 = Some restoreOp ∧
    heap afterBundleB !! 1 = Some saveOp ∧
    consumers restoreOp = [5; 6; 7] ∧
    consumers saveOp = [] ∧
    (∀ o, o ∈ [5; 6; 7] → o ∈ dependencies saveOp) ∧
    (∀ o, o ∈ [5; 6; 7] →
       ∃ op, heap afterBundleB !! o = Some op ∧
             dependencies op = [0] ∧ consumers op = [1]).
Proof.
  assert (getOrCreateOperations 3 bundleB Bundle ProjB emptyState
          = Some ([0; 1; 5; 6; 7], afterBundleB)) as Hrun by (vm_compute; reflexivity).
  split; [done|].
  apply (sharded_resolution_wiring bundleB 3 Bundle ProjB 3 emptyState _ _
           memoInHeap_emptyState eq_refl eq_refl eq_refl Hrun).
Defined.

Lemma unsharded_resolution_effect_witness :
  getOrCreateOperations 1 buildA Build ProjA emptyState = Some ([], afterBuildA) ∧
  @nil nat = [] ∧
  mapGet (getOperationKey Build ProjA) (allOperations afterBuildA) = Some [0] ∧
  0 ∈ existingOperations afterBuildA ∧
  (∃ op, heap afterBuildA !! 0 = Some op ∧
         project op = ProjA ∧ phase op = Build ∧ shard op = None ∧
         runner op = if outOfScope buildA Build ProjA
                     then Some (skipRunner (getOperationKey Build ProjA))
                     else None) ∧
  (outOfScope buildA Build ProjA = false →
   ProjA ∈ projectsInUnknownState buildA →
   0 ∈ operationsWithWork afterBuildA).
Proof.
  assert (getOrCreateOperations 1 buildA Build ProjA emptyState
          = Some ([], afterBuildA)) as Hrun by (vm_compute; reflexivity).
  split; [done|].
  apply (unsharded_resolution_effect buildA 1 Build ProjA emptyState _ _
           memoInHeap_emptyState eq_refl eq_refl Hrun).
Defined.

Lemma resolved_pair_stays_resolved_witness :
  getOrCreateOperations 3 bundleB Bundle ProjB emptyState
    = Some ([0; 1; 5; 6; 7], afterBundleB) ∧
  resolutionStep bundleB afterBundleB afterBundleBC ∧
  ∃ operations,
    mapGet (getOperationKey Bundle ProjB) (allOperations afterBundleB)
      = Some operations ∧
    (∀ n, shardsAboveOne (getShards Bundle ProjB) = Some n →
          operations = [0; 1; 5; 6; 7]) ∧
    ∀ fuel', getOrCreateOperations (S fuel') bundleB Bundle ProjB afterBundleBC
             = Some (operations, afterBundleBC).
Proof.
  assert (getOrCreateOperations 3 bundleB Bundle ProjB emptyState
          = Some ([0; 1; 5; 6; 7], afterBundleB)) as Hrun by (vm_compute; reflexivity).
  assert (resolutionStep bundleB afterBundleB afterBundleBC) as Hstep.
  { exists 4, Bundle, ProjC, []. vm_compute. reflexivity. }
  split; [done|]. split; [done|].
  apply (resolved_pair_stays_resolved bundleB 3 Bundle ProjB emptyState _ _ _
           memoInHeap_emptyState Hrun (rtc_once _ _ Hstep)).
Defined.


Lemma linked_chainHeap : linked chainHeap.
Proof.
  intros a b. unfold dependsOn, consumedBy. split.
  - intros (op & Hop & Hin).
    destruct a as [|[|[|a]]]; simpl in Hop; [injection Hop as <-..|done];
      simpl in Hin; [by apply elem_of_nil in Hin| |];
      apply list_elem_of_singleton in Hin as ->; eexists; (split; [reflexivity|]);
      simpl; apply list_elem_of_singleton; reflexivity.
  - intros (op & Hop & Hin).
    destruct b as [|[|[|b]]]; simpl in Hop; [injection Hop as <-..|done];
      simpl in Hin; [| |by apply elem_of_nil in Hin];
      apply list_elem_of_singleton in Hin as ->; eexists; (split; [reflexivity|]);
      simpl; apply list_elem_of_singleton; reflexivity.
Qed.

Lemma dependencies_and_consumers_stay_inverse_witness :
  linked chainHeap ∧
  createOperations 5 [0; 1; 2] buildA chainHeap = Some ([0; 1; 2; 3], chainPassHeap) ∧
  linked chainPassHeap.
Proof.
  assert (createOperations 5 [0; 1; 2] buildA chainHeap
          = Some ([0; 1; 2; 3], chainPassHeap)) as Hpass by (vm_compute; reflexivity).
  split; [exact linked_chainHeap|]. split; [done|].
  exact (dependencies_and_consumers_stay_inverse buildA 5 [0; 1; 2] chainHeap _ _
           linked_chainHeap Hpass).
Defined.

Lemma returned_set_adds_only_created_witness :
  createOperations 5 [0; 1; 2] buildA chainHeap = Some ([0; 1; 2; 3], chainPassHeap) ∧
  ∃ added, [0; 1; 2; 3] = [0; 1; 2] ++ added ∧
           ∀ o, o ∈ added → length chainHeap ≤ o < length chainPassHeap.
Proof.
  assert (createOperations 5 [0; 1; 2] buildA chainHeap
          = Some ([0; 1; 2; 3], chainPassHeap)) as Hpass by (vm_compute; reflexivity).
  split; [done|].
  exact (returned_set_adds_only_created buildA 5 [0; 1; 2] chainHeap _ _ Hpass).
Defined.

Lemma empty_selection_creates_nothing_witness :
  phaseOriginal noPhase = [] ∧
  createOperations 1 [0; 1; 2] noPhase chainHeap = Some ([0; 1; 2], chainHeap).
Proof.
  split; [reflexivity|].
  apply (empty_selection_creates_nothing noPhase 0 [0; 1; 2] chainHeap).
  left. reflexivity.
Defined.

Lemma finalization_effect_witness :
  heap buildTestASelected !! 1 = Some testOfA ∧
  ∃ op', finalize buildTestAWork (allOperations buildTestASelected)
           (heap buildTestASelected) !! 1 = Some op' ∧
    project op' = project testOfA ∧ phase op' = phase testOfA ∧
    shard op' = shard testOfA ∧
    dependencies op' = dependencies testOfA ∧ consumers op' = consumers testOfA ∧
    (1 ∈ buildTestAWork → runner op' = runner testOfA) ∧
    ((∀ key ops, (key, ops) ∈ allOperations buildTestASelected → 1 ∉ ops) →
     runner op' = runner testOfA) ∧
    (1 ∉ buildTestAWork →
     (∃ key ops, (key, ops) ∈ allOperations buildTestASelected ∧ 1 ∈ ops) →
     ∃ key ops, (key, ops) ∈ allOperations buildTestASelected ∧ 1 ∈ ops ∧
                runner op' = Some (skipRunner key)).
Proof.
  assert (heap buildTestASelected !! 1 = Some testOfA) as Hop by reflexivity.
  split; [done|].
  exact (finalization_effect buildTestAWork (allOperations buildTestASelected)
           (heap buildTestASelected) 1 testOfA Hop).
Defined.

Lemma propagation_is_idempotent_witness :
  expandConsumers 4 chainHeap 0 [0] = Some [0; 1; 2] ∧
  (∀ x y, x ∈ [0; 1; 2] → y ∈ consumersOf chainHeap x → y ∈ [0; 1; 2]) ∧
  ∀ fuel', length [0; 1; 2] < fuel' →
           expandConsumers fuel' chainHeap 0 [0; 1; 2] = Some [0; 1; 2].
Proof.
  assert (expandConsumers 4 chainHeap 0 [0] = Some [0; 1; 2]) as Hrun
    by (vm_compute; reflexivity).
  split; [done|].
  exact (propagation_is_idempotent 4 chainHeap [0] [0; 1; 2] Hrun).
Defined.

Lemma getOperationKey_injective_witness :
  hasSeparator (packageName ProjB) = false ∧
  getOperationKey Bundle ProjB = getOperationKey Bundle ProjB ∧
  packageName ProjB = packageName ProjB ∧ name Bundle = name Bundle.
Proof.
  split; [reflexivity|]. split; [reflexivity|].
  exact (getOperationKey_injective Bundle ProjB Bundle ProjB
           eq_refl eq_refl eq_refl).
Defined.


Lemma selected_pairs_are_created_witness :
  createOperations 5 [0; 1; 2] buildA chainHeap = Some ([0; 1; 2; 3], chainPassHeap) ∧
  Build ∈ phaseOriginal buildA ∧ ProjA ∈ projectSelection buildA ∧
  ∃ o op, length chainHeap ≤ o ∧ o ∈ [0; 1; 2; 3] ∧ chainPassHeap !! o = Some op ∧
          getOperationKey (phase op) (project op) = getOperationKey Build ProjA.
Proof.
  assert (createOperations 5 [0; 1; 2] buildA chainHeap
          = Some ([0; 1; 2; 3], chainPassHeap)) as Hpass by (vm_compute; reflexivity).
  assert (Build ∈ phaseOriginal buildA) as Hph by apply list_elem_of_here.
  assert (ProjA ∈ projectSelection buildA) as Hpr by apply list_elem_of_here.
  split; [done|]. split; [done|]. split; [done|].
  exact (selected_pairs_are_created buildA 5 [0; 1; 2] chainHeap _ _ Build ProjA
           Hpass Hph Hpr).
Defined.

Lemma skip_runner_named_after_own_key_witness :
  createOperations 3 [] buildTestA [] = Some ([0; 1], buildTestAHeap) ∧
  buildTestAHeap !! 1 = Some testOfA ∧
  runner testOfA = Some (skipRunner "a;_phase:test") ∧
  "a;_phase:test" = getOperationKey (phase testOfA) (project testOfA).
Proof.
  assert (createOperations 3 [] buildTestA [] = Some ([0; 1], buildTestAHeap))
    as Hpass by (vm_compute; reflexivity).
  assert (buildTestAHeap !! 1 = Some testOfA) as Hop by reflexivity.
  assert (runner testOfA = Some (skipRunner "a;_phase:test")) as Hskip by reflexivity.
  split; [done|]. split; [done|]. split; [done|].
  apply (skip_runner_named_after_own_key buildTestA 3 [] [] _ _ 1 testOfA _
           Hpass); [simpl; lia|done|done].
Defined.


Lemma unsharded_pair_has_one_operation_witness :
  keysIdentifyPairs ∧
  createOperations 3 [] buildTestA [] = Some ([0; 1], buildTestAHeap) ∧
  buildTestAHeap !! 1 = Some testOfA ∧
  shardsAboveOne (getShards (phase testOfA) (project testOfA)) = None ∧
  1 = 1.
Proof.
  assert (createOperations 3 [] buildTestA [] = Some ([0; 1], buildTestAHeap))
    as Hpass by (vm_compute; reflexivity).
  assert (buildTestAHeap !! 1 = Some testOfA) as Hop by reflexivity.
  assert (shardsAboveOne (getShards (phase testOfA) (project testOfA)) = None)
    as Hun by reflexivity.
  split; [exact DemoFacts.keys_identify_pairs|].
  split; [done|]. split; [done|]. split; [done|].
  apply (unsharded_pair_has_one_operation buildTestA 3 [] [] _ _ 1 1 testOfA testOfA
           DemoFacts.keys_identify_pairs Hpass); [simpl; lia|simpl; lia|done..].
Defined.

End ExtraFacts.

Module CyclicFacts.
Import Cyclic.

Lemma self_dependent_sharded_pair_never_resolves_witness :
  Again ∈ self Again ∧
  getShards Again Solo = Some 2%Z ∧
  ∀ fuel, getOrCreateOperations fuel again Again Solo (initialState [] []) = None.
Proof.
  assert (Again ∈ self Again) as Hcyc by apply list_elem_of_here.
  assert (getShards Again Solo = Some 2%Z) as Hshards by reflexivity.
  split; [done|]. split; [done|].
  apply (self_dependent_sharded_pair_never_resolves again Again Solo 2
           (initialState [] [])); [|done|done|lia|reflexivity].
  intros [] [] Hkey; [done|discriminate Hkey].
Defined.

Lemma self_dependent_unsharded_pair_depends_on_itself_witness :
  Again ∈ self Again ∧
  getOrCreateOperations 2 again Again Plain (initialState [] [])
    = Some ([], afterPlain) ∧
  ∃ op, heap afterPlain !! 0 = Some op ∧
        0 ∈ dependencies op ∧ 0 ∈ consumers op.
Proof.
  assert (Again ∈ self Again) as Hcyc by apply list_elem_of_here.
  assert (getOrCreateOperations 2 again Again Plain (initialState [] [])
          = Some ([], afterPlain)) as Hrun by (vm_compute; reflexivity).
  split; [done|]. split; [done|].
  apply (self_dependent_unsharded_pair_depends_on_itself again 2 Again Plain
           (initialState [] []) [] afterPlain);
    [by intros k l o ?|reflexivity|reflexivity|done|done].
Defined.

End CyclicFacts.
